(** * phaseSystem: the phase registry and mixture aggregation of reactingEulerFoam

    A shallow embedding of
    [applications/solvers/multiphase/reactingEulerFoam/phaseSystems/phaseSystem/phaseSystem.C]
    and the properties its description states about it.

    Conventions of the embedding.
    - A [FatalError] of the library (an index outside a list, a hanging
      pointer, a name that is not in a dictionary list, a trapped division by
      zero) ends the computation: fallible code returns a [result].
    - A field over the mesh is the list of its cell values; boundary values,
      dimensions and field names are not represented.
    - The arithmetic of cell values is the interface [Scalar]; it is
      instantiated with exact rationals and with IEEE binary64.
    - The filtered phase lists are lists of pointers into the owning phase
      list, represented by positions in that list.
    - Virtual hooks of collaborators are parameters; the calls made to them
      are returned as a trace next to the new state. *)

From Stdlib Require Import Floats.PrimFloat.
From Stdlib Require Import Strings.String.
From Stdlib Require Import QArith Qcanon.
From Stdlib Require Import List Bool Arith Lia.
Import ListNotations.

Close Scope Qc_scope.
Close Scope Q_scope.
Open Scope nat_scope.
Open Scope list_scope.

Set Implicit Arguments.
Set Warnings "-inexact-float".

(** ** Errors *)

Definition word := string.
Definition label := nat.

Inductive FatalError : Type :=
| IndexOutOfRange          (* operator[] outside a List, PtrList or UPtrList *)
| HangingPointer           (* PtrList::operator[] on a slot that is not set *)
| NotFound (name : word)   (* PtrListDictionary::operator[](word): no such entry *)
| KeyNotFound              (* HashTable::operator[] on an absent key *)
| FloatingPointException.  (* division by zero, trapped as SIGFPE *)

Inductive result (A : Type) : Type :=
| Ok (a : A)
| Fatal (e : FatalError).

Arguments Ok {A} a.
Arguments Fatal {A} e.

Definition bind {A B : Type} (r : result A) (k : A -> result B) : result B :=
  match r with
  | Ok a => k a
  | Fatal e => Fatal e
  end.

Notation "x <- r ;; k" := (bind r (fun x => k))
  (at level 61, r at next level, right associativity).

Definition isOk {A : Type} (r : result A) : bool :=
  match r with Ok _ => true | Fatal _ => false end.

(** [for (label i = lo; i < hi; i++) body], threading the variables the body
    updates; [n] counts the iterations that remain. *)
Fixpoint forLoop {A : Type} (n : nat) (i : label)
    (body : label -> A -> result A) (a : A) : result A :=
  match n with
  | O => Ok a
  | S n' => a' <- body i a ;; forLoop n' (S i) body a'
  end.

Definition forRange {A : Type} (lo hi : label)
    (body : label -> A -> result A) (a : A) : result A :=
  forLoop (hi - lo) lo body a.

(** [List<T>::operator[]] *)
Definition at_ {A : Type} (l : list A) (i : label) : result A :=
  match nth_error l i with
  | Some a => Ok a
  | None => Fatal IndexOutOfRange
  end.

(** ** The arithmetic of cell values *)

(** Modelled from the spec: the field layer is declared outside this file
    and is an injected numeric substrate. [Scalar] is what the file asks of
    the type of a cell value. *)
Class Scalar (scalar : Type) : Type := {
  szero : scalar;
  sone : scalar;
  sadd : scalar -> scalar -> scalar;
  smul : scalar -> scalar -> scalar;
  sdiv : scalar -> scalar -> scalar;
  sIsZero : scalar -> bool
}.

#[export] Instance Scalar_Qc : Scalar Qc := {
  szero := 0%Qc;
  sone := 1%Qc;
  sadd := Qcplus;
  smul := Qcmult;
  sdiv := Qcdiv;
  sIsZero := fun x => if Qc_eq_dec x 0%Qc then true else false
}.

#[export] Instance Scalar_double : Scalar PrimFloat.float := {
  szero := PrimFloat.zero;
  sone := PrimFloat.one;
  sadd := PrimFloat.add;
  smul := PrimFloat.mul;
  sdiv := PrimFloat.div;
  sIsZero := fun x => PrimFloat.eqb x PrimFloat.zero
}.

(** Division of one cell value by another; the divisor zero raises the
    floating point exception. *)
Definition sdivide {scalar : Type} `{Scalar scalar} (x y : scalar)
    : result scalar :=
  if sIsZero y then Fatal FloatingPointException else Ok (sdiv x y).

(** ** Fields *)

(** Modelled from the spec: meshes and fields are declared outside this
    file. A mesh is its number of cells; a field holds one value per cell,
    and the operators on fields work cell by cell. *)
Record fvMesh : Type := { nCells : nat }.

Definition Field (T : Type) : Type := list T.

Fixpoint zipWith {A B C : Type} (f : A -> B -> C) (l : list A) (m : list B)
    : list C :=
  match l, m with
  | a :: l', b :: m' => f a b :: zipWith f l' m'
  | _, _ => []
  end.

Fixpoint zipWithM {A B C : Type} (f : A -> B -> result C) (l : list A)
    (m : list B) : result (list C) :=
  match l, m with
  | a :: l', b :: m' =>
      c <- f a b ;;
      r <- zipWithM f l' m' ;;
      Ok (c :: r)
  | _, _ => Ok []
  end.

Record Vector (scalar : Type) : Type :=
  { vx : scalar; vy : scalar; vz : scalar }.

Section Fields.
Context {scalar : Type} `{Scalar scalar}.

Definition volScalarField : Type := Field scalar.
Definition volVectorField : Type := Field (Vector scalar).
Definition surfaceScalarField : Type := Field scalar.

(** [volScalarField::New(name, mesh, dimensionedScalar(dims, v))] *)
Definition uniformField (mesh : fvMesh) (v : scalar) : volScalarField :=
  repeat v (nCells mesh).

Definition vadd (u v : Vector scalar) : Vector scalar :=
  {| vx := sadd (vx u) (vx v);
     vy := sadd (vy u) (vy v);
     vz := sadd (vz u) (vz v) |}.

Definition vscale (a : scalar) (v : Vector scalar) : Vector scalar :=
  {| vx := smul a (vx v); vy := smul a (vy v); vz := smul a (vz v) |}.

Definition vdiv (v : Vector scalar) (a : scalar) : Vector scalar :=
  {| vx := sdiv (vx v) a; vy := sdiv (vy v) a; vz := sdiv (vz v) a |}.

Definition vdivide (v : Vector scalar) (a : scalar) : result (Vector scalar) :=
  if sIsZero a then Fatal FloatingPointException else Ok (vdiv v a).

(** scalar field [*] scalar field, [+=] *)
Definition fmul (f g : volScalarField) : volScalarField := zipWith smul f g.
Definition fadd (f g : volScalarField) : volScalarField := zipWith sadd f g.
(** scalar field [/] scalar field *)
Definition fdivide (f g : volScalarField) : result volScalarField :=
  zipWithM sdivide f g.

(** scalar field [*] vector field, [+=], vector field [/] scalar field *)
Definition fvscale (f : volScalarField) (u : volVectorField)
    : volVectorField := zipWith vscale f u.
Definition fvadd (u v : volVectorField) : volVectorField := zipWith vadd u v.
Definition fvdivide (u : volVectorField) (g : volScalarField)
    : result volVectorField := zipWithM vdivide u g.
End Fields.

Arguments volScalarField scalar : clear implicits.
Arguments volVectorField scalar : clear implicits.
Arguments surfaceScalarField scalar : clear implicits.

(** ** Pointer lists *)

(** Modelled from the spec: [PtrList<T>] is declared outside this file. It
    is the index-addressed list of the accumulation protocol: a list of
    owned pointers, each set or null. *)
Module PtrList.
Definition t (T : Type) : Type := list (option T).

(** [PtrList<T>(n)]: [n] null pointers. *)
Definition sized (T : Type) (n : nat) : t T := repeat None n.

Definition size {T : Type} (l : t T) : nat := List.length l.

(** [set(i)]: is the pointer at [i] set? *)
Definition set {T : Type} (l : t T) (i : label) : result bool :=
  p <- at_ l i ;;
  Ok (match p with Some _ => true | None => false end).

(** [operator[](i)] *)
Definition get {T : Type} (l : t T) (i : label) : result T :=
  p <- at_ l i ;;
  match p with
  | Some x => Ok x
  | None => Fatal HangingPointer
  end.
End PtrList.

(** Assignment to the element at [i] through a reference. *)
Fixpoint setAt {A : Type} (l : list A) (i : label) (a : A) : list A :=
  match l, i with
  | [], _ => []
  | _ :: l', O => a :: l'
  | x :: l', S i' => x :: setAt l' i' a
  end.

(** ** Phases *)

Module phaseModel.
Section Def.
Context {scalar : Type} `{Scalar scalar}.

(** Modelled from the spec: [phaseModel] and its thermo package are
    declared outside this file. These records hold what the system reads of
    them. *)
Record rhoThermo : Type := {
  rhoName : word;            (* thermo.rho().name() *)
  thermoRho : volScalarField scalar;
  p : volScalarField scalar;
  dpdt : bool
}.

(** A phase: identity, index, fields and classification. A phase is its
    own fraction field, [alpha]. *)
Record t : Type := {
  name : word;
  index : label;
  alpha : volScalarField scalar;
  rho : volScalarField scalar;
  U : volVectorField scalar;
  phi : surfaceScalarField scalar;
  stationary : bool;
  isothermal : bool;
  pure : bool;
  incompressible : bool;
  thermo : rhoThermo
}.
End Def.
Arguments rhoThermo scalar : clear implicits.
Arguments t scalar : clear implicits.
End phaseModel.

(** Modelled from the spec: [phaseModelList] is declared outside this file.
    [operator[](const word&)] is the phase of that name, as a pointer into
    the list; a name that is no phase of the system is an error. *)
Fixpoint findIndex {scalar : Type} (phases : list (phaseModel.t scalar))
    (key : word) (i : label) : option label :=
  match phases with
  | [] => None
  | phase :: rest =>
      if String.eqb (phaseModel.name phase) key then Some i
      else findIndex rest key (S i)
  end.

Definition lookupPhase {scalar : Type} (phases : list (phaseModel.t scalar))
    (key : word) : result label :=
  match findIndex phases key 0 with
  | Some i => Ok i
  | None => Fatal (NotFound key)
  end.

(** ** Pair keys, pairs and pair-indexed tables *)

(** Modelled from the spec: [phasePairKey] is declared outside this file.
    A key is an ordered or unordered 2-tuple of phase names; two unordered
    keys are equal when they name the same two phases in either order, two
    ordered keys when they name them in the same order. *)
Module phasePairKey.
Record t : Type := { first : word; second : word; ordered : bool }.

Definition eqb (a b : t) : bool :=
  Bool.eqb (ordered a) (ordered b)
  && ((String.eqb (first a) (first b) && String.eqb (second a) (second b))
      || (negb (ordered a)
          && String.eqb (first a) (second b)
          && String.eqb (second a) (first b))).
End phasePairKey.

(** Modelled from the spec: [phasePair] and [orderedPhasePair] are declared
    outside this file. A pair holds references to its two phases; the
    directional pair is the one built for an ordered key. *)
Module phasePair.
Inductive type : Type := phasePair | orderedPhasePair.

Record t : Type := {
  key : phasePairKey.t;
  phase1 : label;
  phase2 : label;
  dynamicType : type
}.

Definition New {scalar : Type} (phases : list (phaseModel.t scalar))
    (phase1 phase2 : label) (ordered : bool) : t :=
  {| key := {| phasePairKey.first :=
                 match nth_error phases phase1 with
                 | Some ph => phaseModel.name ph
                 | None => EmptyString
                 end;
               phasePairKey.second :=
                 match nth_error phases phase2 with
                 | Some ph => phaseModel.name ph
                 | None => EmptyString
                 end;
               phasePairKey.ordered := ordered |};
     phase1 := phase1;
     phase2 := phase2;
     dynamicType := if ordered then orderedPhasePair else phasePair |}.
End phasePair.

(** Modelled from the spec: [HashTable] is declared outside this file.
    [HashTable<V, phasePairKey, phasePairKey::hash>] maps pair keys to
    values: the entries, compared by the equality of keys. *)
Module HashTable.
Section Def.
Variable V : Type.

Definition t : Type := list (phasePairKey.t * V).

Fixpoint find (tbl : t) (k : phasePairKey.t) : option V :=
  match tbl with
  | [] => None
  | (k', v) :: rest =>
      if phasePairKey.eqb k' k then Some v else find rest k
  end.

Definition found (tbl : t) (k : phasePairKey.t) : bool :=
  match find tbl k with Some _ => true | None => false end.

(** [insert]: a key that is present keeps its entry. *)
Definition insert (tbl : t) (k : phasePairKey.t) (v : V) : t :=
  if found tbl k then tbl else tbl ++ [(k, v)].

(** [operator[]] *)
Definition get (tbl : t) (k : phasePairKey.t) : result V :=
  match find tbl k with
  | Some v => Ok v
  | None => Fatal KeyNotFound
  end.
End Def.
Arguments t V : clear implicits.
End HashTable.

(** Modelled from the spec: the interfacial models are declared outside
    this file; they are opaque, and held here by what the system asks of
    them. *)
Record surfaceTensionModel (scalar : Type) : Type :=
  { surfaceTensionModel_sigma : volScalarField scalar }.

Record aspectRatioModel (scalar : Type) : Type :=
  { aspectRatioModel_E : volScalarField scalar }.

(** An [autoPtr<phasePair>] is the address of the pair it owns. *)
Definition address := nat.

(** ** The phase system *)

Module phaseSystem.
Section Def.
Context {scalar : Type} `{Scalar scalar}.

Record t : Type := {
  mesh_ : fvMesh;
  phaseModels_ : list (phaseModel.t scalar);
  movingPhaseModels_ : list label;
  stationaryPhaseModels_ : list label;
  anisothermalPhaseModels_ : list label;
  multiComponentPhaseModels_ : list label;
  phi_ : surfaceScalarField scalar;
  dpdt_ : volScalarField scalar;
  phasePairs_ : HashTable.t address;
  (* the pairs owned by the pointers of [phasePairs_], by address *)
  pairStore : list phasePair.t;
  surfaceTensionModels_ : HashTable.t (surfaceTensionModel scalar);
  aspectRatioModels_ : HashTable.t (aspectRatioModel scalar)
}.

Definition setPhaseModels (sys : t) (phases : list (phaseModel.t scalar))
    : t :=
  {| mesh_ := mesh_ sys;
     phaseModels_ := phases;
     movingPhaseModels_ := movingPhaseModels_ sys;
     stationaryPhaseModels_ := stationaryPhaseModels_ sys;
     anisothermalPhaseModels_ := anisothermalPhaseModels_ sys;
     multiComponentPhaseModels_ := multiComponentPhaseModels_ sys;
     phi_ := phi_ sys;
     dpdt_ := dpdt_ sys;
     phasePairs_ := phasePairs_ sys;
     pairStore := pairStore sys;
     surfaceTensionModels_ := surfaceTensionModels_ sys;
     aspectRatioModels_ := aspectRatioModels_ sys |}.

Definition setDpdt (sys : t) (dpdt : volScalarField scalar) : t :=
  {| mesh_ := mesh_ sys;
     phaseModels_ := phaseModels_ sys;
     movingPhaseModels_ := movingPhaseModels_ sys;
     stationaryPhaseModels_ := stationaryPhaseModels_ sys;
     anisothermalPhaseModels_ := anisothermalPhaseModels_ sys;
     multiComponentPhaseModels_ := multiComponentPhaseModels_ sys;
     phi_ := phi_ sys;
     dpdt_ := dpdt;
     phasePairs_ := phasePairs_ sys;
     pairStore := pairStore sys;
     surfaceTensionModels_ := surfaceTensionModels_ sys;
     aspectRatioModels_ := aspectRatioModels_ sys |}.

Definition setPhasePairs (sys : t) (pairs : HashTable.t address)
    (store : list phasePair.t) : t :=
  {| mesh_ := mesh_ sys;
     phaseModels_ := phaseModels_ sys;
     movingPhaseModels_ := movingPhaseModels_ sys;
     stationaryPhaseModels_ := stationaryPhaseModels_ sys;
     anisothermalPhaseModels_ := anisothermalPhaseModels_ sys;
     multiComponentPhaseModels_ := multiComponentPhaseModels_ sys;
     phi_ := phi_ sys;
     dpdt_ := dpdt_ sys;
     phasePairs_ := pairs;
     pairStore := store;
     surfaceTensionModels_ := surfaceTensionModels_ sys;
     aspectRatioModels_ := aspectRatioModels_ sys |}.

(** *** calcPhi *)

Definition calcPhi
    (interpolate : volScalarField scalar -> surfaceScalarField scalar)
    (phaseModels : list (phaseModel.t scalar))
    : result (surfaceScalarField scalar) :=
  phase0 <- at_ phaseModels 0 ;;
  let tmpPhi :=
    fmul (interpolate (phaseModel.alpha phase0)) (phaseModel.phi phase0) in
  forRange 1 (List.length phaseModels)
    (fun phasei tmpPhi =>
       phase <- at_ phaseModels phasei ;;
       Ok (fadd tmpPhi
             (fmul (interpolate (phaseModel.alpha phase))
                (phaseModel.phi phase))))
    tmpPhi.

(** *** Groupings (constructor) *)

(** The second pass of the constructor over [phaseModels_]: every phase
    is appended to the filtered lists it belongs to. *)
Fixpoint groupingsLoop (phasei : label)
    (phases : list (phaseModel.t scalar))
    (acc : list label * list label * list label * list label)
    : list label * list label * list label * list label :=
  match phases with
  | [] => acc
  | phase :: rest =>
      let '(moving, stationary, anisothermal, multiComponent) := acc in
      let moving :=
        if negb (phaseModel.stationary phase)
        then moving ++ [phasei] else moving in
      let stationary :=
        if phaseModel.stationary phase
        then stationary ++ [phasei] else stationary in
      let anisothermal :=
        if negb (phaseModel.isothermal phase)
        then anisothermal ++ [phasei] else anisothermal in
      let multiComponent :=
        if negb (phaseModel.pure phase)
        then multiComponent ++ [phasei] else multiComponent in
      groupingsLoop (S phasei) rest
        (moving, stationary, anisothermal, multiComponent)
  end.

(** The state the constructor's member initialisers and groupings
    leave, [phi] being what [calcPhi] returned for the phases: the phases,
    the four filtered lists, [dpdt] zero, no pairs and no sub-models yet. *)
Definition New (mesh : fvMesh) (phases : list (phaseModel.t scalar))
    (phi : surfaceScalarField scalar) : t :=
  let '(moving, stationary, anisothermal, multiComponent) :=
    groupingsLoop 0 phases ([], [], [], []) in
  {| mesh_ := mesh;
     phaseModels_ := phases;
     movingPhaseModels_ := moving;
     stationaryPhaseModels_ := stationary;
     anisothermalPhaseModels_ := anisothermal;
     multiComponentPhaseModels_ := multiComponent;
     phi_ := phi;
     dpdt_ := uniformField mesh szero;
     phasePairs_ := [];
     pairStore := [];
     surfaceTensionModels_ := [];
     aspectRatioModels_ := [] |}.

(** [UPtrList<phaseModel>::operator[]] on a filtered list: the phase the
    i-th pointer refers to. *)
Definition viewAt (sys : t) (view : list label) (i : label)
    : result (phaseModel.t scalar) :=
  ptr <- at_ view i ;;
  match nth_error (phaseModels_ sys) ptr with
  | Some phase => Ok phase
  | None => Fatal HangingPointer
  end.

(** *** generatePairs *)

(** [new phasePair(...)] / [new orderedPhasePair(...)]: the pair is
    placed at a fresh address. *)
Definition newPair (store : list phasePair.t) (pair : phasePair.t)
    : address * list phasePair.t :=
  (List.length store, store ++ [pair]).

Definition generatePair (key : phasePairKey.t) (sys : t) : result t :=
  (* pair already exists *)
  if HashTable.found (phasePairs_ sys) key then Ok sys
  (* new ordered pair *)
  else if phasePairKey.ordered key then
    phase1 <- lookupPhase (phaseModels_ sys) (phasePairKey.first key) ;;
    phase2 <- lookupPhase (phaseModels_ sys) (phasePairKey.second key) ;;
    let '(ptr, store) :=
      newPair (pairStore sys)
        (phasePair.New (phaseModels_ sys) phase1 phase2 true) in
    Ok (setPhasePairs sys
          (HashTable.insert (phasePairs_ sys) key ptr) store)
  (* new unordered pair *)
  else
    phase1 <- lookupPhase (phaseModels_ sys) (phasePairKey.first key) ;;
    phase2 <- lookupPhase (phaseModels_ sys) (phasePairKey.second key) ;;
    let '(ptr, store) :=
      newPair (pairStore sys)
        (phasePair.New (phaseModels_ sys) phase1 phase2 false) in
    Ok (setPhasePairs sys
          (HashTable.insert (phasePairs_ sys) key ptr) store).

(** [modelDicts] is the table of configuration entries in the order its
    iterator visits them. *)
Fixpoint generatePairs {dictionary : Type}
    (modelDicts : HashTable.t dictionary) (sys : t) : result t :=
  match modelDicts with
  | [] => Ok sys
  | (key, _) :: rest =>
      sys' <- generatePair key sys ;;
      generatePairs rest sys'
  end.

(** *** Mixture density and velocity *)

Definition rho (sys : t) : result (volScalarField scalar) :=
  phase0 <- viewAt sys (movingPhaseModels_ sys) 0 ;;
  let rho := fmul (phaseModel.alpha phase0) (phaseModel.rho phase0) in
  rho <- forRange 1 (List.length (movingPhaseModels_ sys))
           (fun movingPhasei rho =>
              phase <- viewAt sys (movingPhaseModels_ sys) movingPhasei ;;
              Ok (fadd rho
                    (fmul (phaseModel.alpha phase) (phaseModel.rho phase))))
           rho ;;
  match stationaryPhaseModels_ sys with
  | [] => Ok rho
  | _ :: _ =>
      phase0 <- viewAt sys (movingPhaseModels_ sys) 0 ;;
      let sumAlphaMoving := phaseModel.alpha phase0 in
      sumAlphaMoving <-
        forRange 1 (List.length (movingPhaseModels_ sys))
          (fun movingPhasei sumAlphaMoving =>
             phase <- viewAt sys (movingPhaseModels_ sys) movingPhasei ;;
             Ok (fadd sumAlphaMoving (phaseModel.alpha phase)))
          sumAlphaMoving ;;
      fdivide rho sumAlphaMoving
  end.

Definition U (sys : t) : result (volVectorField scalar) :=
  phase0 <- viewAt sys (movingPhaseModels_ sys) 0 ;;
  let U := fvscale (phaseModel.alpha phase0) (phaseModel.U phase0) in
  U <- forRange 1 (List.length (movingPhaseModels_ sys))
         (fun movingPhasei U =>
            phase <- viewAt sys (movingPhaseModels_ sys) movingPhasei ;;
            Ok (fvadd U
                  (fvscale (phaseModel.alpha phase) (phaseModel.U phase))))
         U ;;
  match stationaryPhaseModels_ sys with
  | [] => Ok U
  | _ :: _ =>
      phase0 <- viewAt sys (movingPhaseModels_ sys) 0 ;;
      let sumAlphaMoving := phaseModel.alpha phase0 in
      sumAlphaMoving <-
        forRange 1 (List.length (movingPhaseModels_ sys))
          (fun movingPhasei sumAlphaMoving =>
             phase <- viewAt sys (movingPhaseModels_ sys) movingPhasei ;;
             Ok (fadd sumAlphaMoving (phaseModel.alpha phase)))
          sumAlphaMoving ;;
      fvdivide U sumAlphaMoving
  end.

(** *** Per-pair queries *)

Definition E (sys : t) (key : phasePairKey.t)
    : result (volScalarField scalar) :=
  if HashTable.found (aspectRatioModels_ sys) key then
    model <- HashTable.get (aspectRatioModels_ sys) key ;;
    Ok (aspectRatioModel_E model)
  else
    Ok (uniformField (mesh_ sys) sone).

Definition sigma (sys : t) (key : phasePairKey.t)
    : result (volScalarField scalar) :=
  if HashTable.found (surfaceTensionModels_ sys) key then
    model <- HashTable.get (surfaceTensionModels_ sys) key ;;
    Ok (surfaceTensionModel_sigma model)
  else
    Ok (uniformField (mesh_ sys) szero).

(** *** Mass transfer, defaults *)

Definition dmdtf (sys : t) (key : phasePairKey.t)
    : result (volScalarField scalar) :=
  phase1 <- lookupPhase (phaseModels_ sys) (phasePairKey.first key) ;;
  phase2 <- lookupPhase (phaseModels_ sys) (phasePairKey.second key) ;;
  let pair := phasePair.New (phaseModels_ sys) phase1 phase2 false in
  Ok (uniformField (mesh_ sys) szero).

Definition dmdts (sys : t) : PtrList.t (volScalarField scalar) :=
  PtrList.sized (volScalarField scalar) (List.length (phaseModels_ sys)).

(** *** Predicates *)

Fixpoint incompressibleLoop (phases : list (phaseModel.t scalar)) : bool :=
  match phases with
  | [] => true
  | phase :: rest =>
      if negb (phaseModel.incompressible phase) then false
      else incompressibleLoop rest
  end.

Definition incompressible (sys : t) : bool :=
  incompressibleLoop (phaseModels_ sys).

Definition implicitPhasePressure (sys : t) : bool := false.

(** *** Corrections *)

(** The calls a correction makes to its collaborators, in the order it
    makes them. A phase is named by its position in [phaseModels_]. *)
Inductive call : Type :=
| phaseModel_correctKinematics (phasei : label)
| fvc_ddt (p : volScalarField scalar)
| fvOptions_source (alpha rho : volScalarField scalar)
| phaseModel_correctContinuityError (phasei : label)
    (source : volScalarField scalar).

Section Corrections.
(** [phaseModel::correctKinematics()] *)
Variable correctKinematicsHook :
  phaseModel.t scalar -> phaseModel.t scalar.
(** [phaseModel::correctContinuityError(source)] *)
Variable correctContinuityErrorHook :
  volScalarField scalar -> phaseModel.t scalar -> phaseModel.t scalar.
(** [fvc::ddt] *)
Variable ddt : volScalarField scalar -> volScalarField scalar.
(** [fvOptions().appliesToField(name)] *)
Variable appliesToField : word -> bool.
(** [fvOptions()(alpha, rho) & rho] *)
Variable fvOptionsSource :
  volScalarField scalar -> volScalarField scalar -> volScalarField scalar.
(** the virtual [dmdts()] of the system at hand *)
Variable virtualDmdts : t -> PtrList.t (volScalarField scalar).

Fixpoint correctKinematicsLoop (phasei : label)
    (phases : list (phaseModel.t scalar)) (updateDpdt : bool)
    : list (phaseModel.t scalar) * bool * list call :=
  match phases with
  | [] => ([], updateDpdt, [])
  | phase :: rest =>
      let phase := correctKinematicsHook phase in
      let updateDpdt :=
        updateDpdt || phaseModel.dpdt (phaseModel.thermo phase) in
      let '(rest, updateDpdt, calls) :=
        correctKinematicsLoop (S phasei) rest updateDpdt in
      (phase :: rest, updateDpdt,
       phaseModel_correctKinematics phasei :: calls)
  end.

Definition correctKinematics (sys : t) : t * list call :=
  let updateDpdt := false in
  let '(phases, updateDpdt, calls) :=
    correctKinematicsLoop 0 (phaseModels_ sys) updateDpdt in
  let sys := setPhaseModels sys phases in
  (* Update the pressure time-derivative if required *)
  if updateDpdt then
    match phaseModels_ sys with
    | first :: _ =>
        let p := phaseModel.p (phaseModel.thermo first) in
        (setDpdt sys (ddt p), calls ++ [fvc_ddt p])
    | [] => (sys, calls)
    end
  else (sys, calls).

Definition correctContinuityErrorBody
    (dmdts : PtrList.t (volScalarField scalar)) (ptr : label)
    (state : t * list call) : result (t * list call) :=
  let '(sys, calls) := state in
  match nth_error (phaseModels_ sys) ptr with
  | None => Fatal HangingPointer
  | Some phase =>
      let alpha := phaseModel.alpha phase in
      let rho := phaseModel.thermoRho (phaseModel.thermo phase) in
      let source := uniformField (mesh_ sys) szero in
      let '(source, calls) :=
        if appliesToField (phaseModel.rhoName (phaseModel.thermo phase))
        then (fadd source (fvOptionsSource alpha rho),
              calls ++ [fvOptions_source alpha rho])
        else (source, calls) in
      isSet <- PtrList.set dmdts (phaseModel.index phase) ;;
      source <-
        (if isSet : bool then
           dmdt <- PtrList.get dmdts (phaseModel.index phase) ;;
           Ok (fadd source dmdt)
         else Ok source) ;;
      Ok (setPhaseModels sys
            (setAt (phaseModels_ sys) ptr
               (correctContinuityErrorHook source phase)),
          calls ++ [phaseModel_correctContinuityError ptr source])
  end.

Fixpoint correctContinuityErrorLoop
    (dmdts : PtrList.t (volScalarField scalar)) (moving : list label)
    (state : t * list call) : result (t * list call) :=
  match moving with
  | [] => Ok state
  | ptr :: rest =>
      state <- correctContinuityErrorBody dmdts ptr state ;;
      correctContinuityErrorLoop dmdts rest state
  end.

Definition correctContinuityError (sys : t) : result (t * list call) :=
  let dmdts := virtualDmdts sys in
  correctContinuityErrorLoop dmdts (movingPhaseModels_ sys) (sys, []).
End Corrections.

(** *** The other corrections *)

Section PhaseLoops.
(** One of the hooks [correct()], [correctThermo()], [correctReactions()],
    [correctSpecies()], [correctTurbulence()], [correctEnergyTransport()] of
    [phaseModel]. *)
Variable hook : phaseModel.t scalar -> phaseModel.t scalar.

(** [forAll(phaseModels_, phasei) { phaseModels_[phasei].hook(); }], with
    the positions of the phases whose hook was called, in the order of the
    calls. *)
Fixpoint forAllPhases (phasei : label) (phases : list (phaseModel.t scalar))
    : list (phaseModel.t scalar) * list label :=
  match phases with
  | [] => ([], [])
  | phase :: rest =>
      let phase := hook phase in
      let '(rest, visited) := forAllPhases (S phasei) rest in
      (phase :: rest, phasei :: visited)
  end.
End PhaseLoops.

Definition correct (correctHook : phaseModel.t scalar -> phaseModel.t scalar)
    (sys : t) : t * list label :=
  let '(phases, visited) := forAllPhases correctHook 0 (phaseModels_ sys) in
  (setPhaseModels sys phases, visited).

Definition correctThermo
    (correctThermoHook : phaseModel.t scalar -> phaseModel.t scalar)
    (sys : t) : t * list label :=
  let '(phases, visited) :=
    forAllPhases correctThermoHook 0 (phaseModels_ sys) in
  (setPhaseModels sys phases, visited).

Definition correctReactions
    (correctReactionsHook : phaseModel.t scalar -> phaseModel.t scalar)
    (sys : t) : t * list label :=
  let '(phases, visited) :=
    forAllPhases correctReactionsHook 0 (phaseModels_ sys) in
  (setPhaseModels sys phases, visited).

Definition correctSpecies
    (correctSpeciesHook : phaseModel.t scalar -> phaseModel.t scalar)
    (sys : t) : t * list label :=
  let '(phases, visited) :=
    forAllPhases correctSpeciesHook 0 (phaseModels_ sys) in
  (setPhaseModels sys phases, visited).

Definition correctTurbulence
    (correctTurbulenceHook : phaseModel.t scalar -> phaseModel.t scalar)
    (sys : t) : t * list label :=
  let '(phases, visited) :=
    forAllPhases correctTurbulenceHook 0 (phaseModels_ sys) in
  (setPhaseModels sys phases, visited).

Definition correctEnergyTransport
    (correctEnergyTransportHook : phaseModel.t scalar -> phaseModel.t scalar)
    (sys : t) : t * list label :=
  let '(phases, visited) :=
    forAllPhases correctEnergyTransportHook 0 (phaseModels_ sys) in
  (setPhaseModels sys phases, visited).

(** *** read *)

Section Reading.
(** the outcome of [regIOobject::read()] *)
Variable regIOobjectRead : bool.
(** [phaseModel::read()]: the phase re-read, and whether that went well *)
Variable phaseRead : phaseModel.t scalar -> phaseModel.t scalar * bool.

Fixpoint readLoop (phasei : label) (phases : list (phaseModel.t scalar))
    (readOK : bool) : list (phaseModel.t scalar) * bool * list label :=
  match phases with
  | [] => ([], readOK, [])
  | phase :: rest =>
      let '(phase, ok) := phaseRead phase in
      let readOK := readOK && ok in
      let '(rest, readOK, visited) := readLoop (S phasei) rest readOK in
      (phase :: rest, readOK, phasei :: visited)
  end.

(** The system after the call, what the call returns, and the positions of
    the phases that were re-read. *)
Definition read (sys : t) : t * bool * list label :=
  if regIOobjectRead then
    let readOK := true in
    let '(phases, readOK, visited) :=
      readLoop 0 (phaseModels_ sys) readOK in
    (setPhaseModels sys phases, readOK, visited)
  else (sys, false, []).
End Reading.

(** *** sigma on a patch *)

Section Patches.
(** the sizes of the patches of [mesh.boundary()] *)
Variable boundary : fvMesh -> list nat.
(** [surfaceTensionModel::sigma(patchi)] *)
Variable modelSigmaPatch :
  surfaceTensionModel scalar -> label -> Field scalar.

Definition sigmaPatch (sys : t) (key : phasePairKey.t) (patchi : label)
    : result (Field scalar) :=
  if HashTable.found (surfaceTensionModels_ sys) key then
    model <- HashTable.get (surfaceTensionModels_ sys) key ;;
    Ok (modelSigmaPatch model patchi)
  else
    size <- at_ (boundary (mesh_ sys)) patchi ;;
    Ok (repeat szero size).
End Patches.

(** *** The two passes of the constructor *)

(** First pass: the number of phases of each group. *)
Fixpoint groupingsCount (phases : list (phaseModel.t scalar))
    (counts : label * label * label * label)
    : label * label * label * label :=
  match phases with
  | [] => counts
  | phase :: rest =>
      let '(movingPhasei, stationaryPhasei, anisothermalPhasei,
            multiComponentPhasei) := counts in
      groupingsCount rest
        (movingPhasei + Nat.b2n (negb (phaseModel.stationary phase)),
         stationaryPhasei + Nat.b2n (phaseModel.stationary phase),
         anisothermalPhasei + Nat.b2n (negb (phaseModel.isothermal phase)),
         multiComponentPhasei + Nat.b2n (negb (phaseModel.pure phase)))
  end.

(** [UPtrList::set(i, ptr)] on a list of pointers, [None] being null. *)
Definition setPtr (ptrs : list (option label)) (i : label) (ptr : label)
    : result (list (option label)) :=
  if Nat.ltb i (List.length ptrs) then Ok (setAt ptrs i (Some ptr))
  else Fatal IndexOutOfRange.

(** [if (select) { list.set(counter++, &phase); }] *)
Definition setIf (select : bool) (group : list (option label) * label)
    (phasei : label) : result (list (option label) * label) :=
  if select then
    ptrs <- setPtr (fst group) (snd group) phasei ;;
    Ok (ptrs, S (snd group))
  else Ok group.

(** Second pass: each phase is set in the lists of its groups, at the
    next free position of each. *)
Fixpoint groupingsSet (phasei : label) (phases : list (phaseModel.t scalar))
    (groups : (list (option label) * label) * (list (option label) * label)
              * (list (option label) * label) * (list (option label) * label))
    : result ((list (option label) * label) * (list (option label) * label)
              * (list (option label) * label)
              * (list (option label) * label)) :=
  match phases with
  | [] => Ok groups
  | phase :: rest =>
      let '(moving, stationary, anisothermal, multiComponent) := groups in
      moving <- setIf (negb (phaseModel.stationary phase)) moving phasei ;;
      stationary <- setIf (phaseModel.stationary phase) stationary phasei ;;
      anisothermal <-
        setIf (negb (phaseModel.isothermal phase)) anisothermal phasei ;;
      multiComponent <-
        setIf (negb (phaseModel.pure phase)) multiComponent phasei ;;
      groupingsSet (S phasei) rest
        (moving, stationary, anisothermal, multiComponent)
  end.

(** The groupings of the constructor: count, resize, reset the counters,
    set. *)
Definition groupings (phases : list (phaseModel.t scalar))
    : result (list (option label) * list (option label)
              * list (option label) * list (option label)) :=
  let '(movingPhasei, stationaryPhasei, anisothermalPhasei,
        multiComponentPhasei) := groupingsCount phases (0, 0, 0, 0) in
  groups <-
    groupingsSet 0 phases
      ((repeat None movingPhasei, 0), (repeat None stationaryPhasei, 0),
       (repeat None anisothermalPhasei, 0),
       (repeat None multiComponentPhasei, 0)) ;;
  let '(moving, stationary, anisothermal, multiComponent) := groups in
  Ok (fst moving, fst stationary, fst anisothermal, fst multiComponent).
End Def.
Arguments t scalar : clear implicits.
Arguments call scalar : clear implicits.
End phaseSystem.

(** ** byDt *)

Section ByDt.
Context {scalar : Type} `{Scalar scalar}.
(** [fv::localEulerDdt::enabled(mesh)] *)
Variable localEulerDdtEnabled : fvMesh -> bool.
(** [fv::localEulerDdt::localRDeltaT(mesh)] and [localRDeltaTf(mesh)] *)
Variable localRDeltaT : fvMesh -> volScalarField scalar.
Variable localRDeltaTf : fvMesh -> surfaceScalarField scalar.
(** [mesh.time().deltaT()] *)
Variable deltaT : fvMesh -> scalar.

(** field [/] dimensioned scalar: every value is divided by the scalar. *)
Fixpoint fdivideScalar (f : Field scalar) (s : scalar)
    : result (Field scalar) :=
  match f with
  | [] => Ok []
  | x :: f' =>
      y <- sdivide x s ;;
      r <- fdivideScalar f' s ;;
      Ok (y :: r)
  end.

(** [byDt(const volScalarField& vf)], [mesh] being [vf.mesh()] *)
Definition byDt (mesh : fvMesh) (vf : volScalarField scalar)
    : result (volScalarField scalar) :=
  if localEulerDdtEnabled mesh then Ok (fmul (localRDeltaT mesh) vf)
  else fdivideScalar vf (deltaT mesh).

(** [byDt(const surfaceScalarField& sf)], [mesh] being [sf.mesh()] *)
Definition byDtSurface (mesh : fvMesh) (sf : surfaceScalarField scalar)
    : result (surfaceScalarField scalar) :=
  if localEulerDdtEnabled mesh then Ok (fmul (localRDeltaTf mesh) sf)
  else fdivideScalar sf (deltaT mesh).
End ByDt.

(** ** What the description says, in terms of the embedding *)

Section Description.
Context {scalar : Type} `{Scalar scalar}.

(** The phases a filtered list refers to, in the order of the list. *)
Definition phasesOf (sys : phaseSystem.t scalar) (view : list label)
    : list (phaseModel.t scalar) :=
  flat_map
    (fun ptr =>
       match nth_error (phaseSystem.phaseModels_ sys) ptr with
       | Some phase => [phase]
       | None => []
       end)
    view.

Definition movingPhases (sys : phaseSystem.t scalar) :=
  phasesOf sys (phaseSystem.movingPhaseModels_ sys).

(** The sum of fields, added one after the other to the first. *)
Definition sumFields {T : Type} (add : T -> T -> T) (fields : list T)
    (none : T) : T :=
  match fields with
  | [] => none
  | f :: rest => fold_left add rest f
  end.

(** The sum over the moving phases of fraction times density. *)
Definition weightedRho (sys : phaseSystem.t scalar) : volScalarField scalar :=
  sumFields fadd
    (map (fun phase => fmul (phaseModel.alpha phase) (phaseModel.rho phase))
       (movingPhases sys))
    [].

(** The sum over the moving phases of fraction times velocity. *)
Definition weightedU (sys : phaseSystem.t scalar) : volVectorField scalar :=
  sumFields fvadd
    (map (fun phase => fvscale (phaseModel.alpha phase) (phaseModel.U phase))
       (movingPhases sys))
    [].

(** In one cell: the sum over the moving phases of the phase's fraction
    there times its density there. *)
Definition weightedRhoAt (sys : phaseSystem.t scalar) (cell : label)
    : scalar :=
  sumFields sadd
    (map (fun phase =>
            smul (nth cell (phaseModel.alpha phase) szero)
                 (nth cell (phaseModel.rho phase) szero))
       (movingPhases sys))
    szero.

(** In one cell: the sum of the fractions of the moving phases there. *)
Definition sumAlphaMovingAt (sys : phaseSystem.t scalar) (cell : label)
    : scalar :=
  sumFields sadd
    (map (fun phase => nth cell (phaseModel.alpha phase) szero)
       (movingPhases sys))
    szero.

(** The sum of the fractions of the moving phases. *)
Definition sumAlphaMoving (sys : phaseSystem.t scalar)
    : volScalarField scalar :=
  sumFields fadd (map (@phaseModel.alpha _) (movingPhases sys)) [].

(** Every pointer of the filtered lists refers to a phase of the system. *)
Definition validPointers (sys : phaseSystem.t scalar) (view : list label)
    : Prop :=
  Forall (fun ptr => ptr < List.length (phaseSystem.phaseModels_ sys)) view.

(** Every cell field of every phase has one value per cell of the mesh. *)
Definition fieldsOnMesh (sys : phaseSystem.t scalar) : Prop :=
  Forall
    (fun phase =>
       List.length (phaseModel.alpha phase)
         = nCells (phaseSystem.mesh_ sys)
       /\ List.length (phaseModel.rho phase)
            = nCells (phaseSystem.mesh_ sys)
       /\ List.length (phaseModel.U phase)
            = nCells (phaseSystem.mesh_ sys))
    (phaseSystem.phaseModels_ sys).

(** The positions, counted from [i], of the phases that satisfy [select]. *)
Fixpoint positionsWhere (select : phaseModel.t scalar -> bool) (i : label)
    (phases : list (phaseModel.t scalar)) : list label :=
  match phases with
  | [] => []
  | phase :: rest =>
      if select phase then i :: positionsWhere select (S i) rest
      else positionsWhere select (S i) rest
  end.

(** Some phase of the list asks for the pressure time-derivative. *)
Definition requestsDpdt (phases : list (phaseModel.t scalar)) : bool :=
  existsb (fun phase => phaseModel.dpdt (phaseModel.thermo phase)) phases.

(** The calls of the kinematics hook of the phases at [0 .. n-1], in order. *)
Definition kinematicsCalls (n : nat) : list (phaseSystem.call scalar) :=
  map (@phaseSystem.phaseModel_correctKinematics scalar) (seq 0 n).

(** How often a trace evaluates [fvc::ddt]. *)
Fixpoint ddtCalls (calls : list (phaseSystem.call scalar)) : nat :=
  match calls with
  | [] => 0
  | phaseSystem.fvc_ddt _ :: rest => S (ddtCalls rest)
  | _ :: rest => ddtCalls rest
  end.

(** The mass source [correctContinuityError] builds for a phase: zero, plus
    the injected source if one applies to the phase's density field, plus
    the mass-transfer rate at the phase's index if that slot is set. *)
Definition continuitySource (appliesToField : word -> bool)
    (fvOptionsSource :
       volScalarField scalar -> volScalarField scalar -> volScalarField scalar)
    (mesh : fvMesh) (dmdts : PtrList.t (volScalarField scalar))
    (phase : phaseModel.t scalar) : volScalarField scalar :=
  let zero := uniformField mesh szero in
  let injected :=
    if appliesToField (phaseModel.rhoName (phaseModel.thermo phase))
    then fadd zero
           (fvOptionsSource (phaseModel.alpha phase)
              (phaseModel.thermoRho (phaseModel.thermo phase)))
    else zero in
  match nth_error dmdts (phaseModel.index phase) with
  | Some (Some dmdt) => fadd injected dmdt
  | _ => injected
  end.

(** The calls [correctContinuityError] makes for the phase at [ptr]. *)
Definition continuityCalls (appliesToField : word -> bool)
    (fvOptionsSource :
       volScalarField scalar -> volScalarField scalar -> volScalarField scalar)
    (mesh : fvMesh) (dmdts : PtrList.t (volScalarField scalar))
    (ptr : label) (phase : phaseModel.t scalar)
    : list (phaseSystem.call scalar) :=
  (if appliesToField (phaseModel.rhoName (phaseModel.thermo phase))
   then [phaseSystem.fvOptions_source (phaseModel.alpha phase)
           (phaseModel.thermoRho (phaseModel.thermo phase))]
   else [])
  ++ [phaseSystem.phaseModel_correctContinuityError ptr
        (continuitySource appliesToField fvOptionsSource mesh dmdts phase)].

(** The calls [correctContinuityError] makes for the phase [ptr] points
    to. *)
Definition continuityCallsAt (appliesToField : word -> bool)
    (fvOptionsSource :
       volScalarField scalar -> volScalarField scalar -> volScalarField scalar)
    (sys : phaseSystem.t scalar) (dmdts : PtrList.t (volScalarField scalar))
    (ptr : label) : list (phaseSystem.call scalar) :=
  match nth_error (phaseSystem.phaseModels_ sys) ptr with
  | Some phase =>
      continuityCalls appliesToField fvOptionsSource (phaseSystem.mesh_ sys)
        dmdts ptr phase
  | None => []
  end.

(** Is [ptr] one of the pointers of the filtered list? *)
Definition pointsTo (view : list label) (ptr : label) : bool :=
  existsb (Nat.eqb ptr) view.

(** The phase at [ptr] once the phases [moving] points to have been
    corrected, each by its hook on the source built for it. *)
Definition correctedPhase
    (hook : volScalarField scalar -> phaseModel.t scalar -> phaseModel.t scalar)
    (appliesToField : word -> bool)
    (fvOptionsSource :
       volScalarField scalar -> volScalarField scalar -> volScalarField scalar)
    (mesh : fvMesh) (dmdts : PtrList.t (volScalarField scalar))
    (moving : list label) (ptr : label) (phase : phaseModel.t scalar)
    : phaseModel.t scalar :=
  if pointsTo moving ptr
  then hook (continuitySource appliesToField fvOptionsSource mesh dmdts phase)
         phase
  else phase.

(** No cell value of the field is zero. *)
Definition nowhereZero (f : volScalarField scalar) : Prop :=
  Forall (fun x => sIsZero x = false) f.

(** At most one entry per key. *)
Fixpoint distinctKeys {V : Type} (tbl : HashTable.t V) : Prop :=
  match tbl with
  | [] => True
  | (k, _) :: rest =>
      Forall (fun e => phasePairKey.eqb k (fst e) = false) rest
      /\ distinctKeys rest
  end.

(** The pointers of the pair table are distinct addresses of the store, and
    every pair of the store is owned by one of them. *)
Definition pairsOwned (sys : phaseSystem.t scalar) : Prop :=
  NoDup (map snd (phaseSystem.phasePairs_ sys))
  /\ Forall (fun e => snd e < List.length (phaseSystem.pairStore sys))
       (phaseSystem.phasePairs_ sys)
  /\ List.length (phaseSystem.phasePairs_ sys)
     = List.length (phaseSystem.pairStore sys).

(** At most one pair per key: no two entries of the pair table have equal
    keys, and the entries own distinct pairs. *)
Definition onePairPerKey (sys : phaseSystem.t scalar) : Prop :=
  distinctKeys (phaseSystem.phasePairs_ sys) /\ pairsOwned sys.

(** A sequence of calls of [generatePairs], one per configuration
    section. *)
Fixpoint generatePairsCalls {dictionary : Type}
    (sections : list (HashTable.t dictionary)) (sys : phaseSystem.t scalar)
    : result (phaseSystem.t scalar) :=
  match sections with
  | [] => Ok sys
  | modelDicts :: rest =>
      sys' <- phaseSystem.generatePairs modelDicts sys ;;
      generatePairsCalls rest sys'
  end.
End Description.

(** ** Example systems *)

Module Examples.
Local Open Scope string_scope.

Section Def.
Context {scalar : Type} `{Scalar scalar}.

(** A phase at rest with uniform fraction [a] and density [r]. *)
Definition uniformPhase (mesh : fvMesh) (name : word) (index : label)
    (a r : scalar) (stationary dpdt : bool) : phaseModel.t scalar :=
  {| phaseModel.name := name;
     phaseModel.index := index;
     phaseModel.alpha := uniformField mesh a;
     phaseModel.rho := uniformField mesh r;
     phaseModel.U :=
       repeat {| vx := szero; vy := szero; vz := szero |} (nCells mesh);
     phaseModel.phi := [];
     phaseModel.stationary := stationary;
     phaseModel.isothermal := true;
     phaseModel.pure := true;
     phaseModel.incompressible := true;
     phaseModel.thermo :=
       {| phaseModel.rhoName := String.append "thermo:rho." name;
          phaseModel.thermoRho := uniformField mesh r;
          phaseModel.p := uniformField mesh sone;
          phaseModel.dpdt := dpdt |} |}.

(** A continuity correction that leaves its source in the density of the
    phase. *)
Definition recordSource (source : volScalarField scalar)
    (phase : phaseModel.t scalar) : phaseModel.t scalar :=
  {| phaseModel.name := phaseModel.name phase;
     phaseModel.index := phaseModel.index phase;
     phaseModel.alpha := phaseModel.alpha phase;
     phaseModel.rho := source;
     phaseModel.U := phaseModel.U phase;
     phaseModel.phi := phaseModel.phi phase;
     phaseModel.stationary := phaseModel.stationary phase;
     phaseModel.isothermal := phaseModel.isothermal phase;
     phaseModel.pure := phaseModel.pure phase;
     phaseModel.incompressible := phaseModel.incompressible phase;
     phaseModel.thermo := phaseModel.thermo phase |}.

(** Two moving phases. *)
Definition twoMoving (mesh : fvMesh) (a1 r1 a2 r2 : scalar)
    : phaseSystem.t scalar :=
  phaseSystem.New mesh
    [uniformPhase mesh "water" 0 a1 r1 false false;
     uniformPhase mesh "air" 1 a2 r2 false false]
    [].

(** One moving phase and one stationary phase. *)
Definition movingAndStationary (mesh : fvMesh) (a r a' r' : scalar)
    : phaseSystem.t scalar :=
  phaseSystem.New mesh
    [uniformPhase mesh "water" 0 a r false false;
     uniformPhase mesh "solid" 1 a' r' true false]
    [].

(** One isothermal phase whose thermo asks for the pressure
    time-derivative. *)
Definition isothermalOnly (mesh : fvMesh) (a r : scalar)
    : phaseSystem.t scalar :=
  phaseSystem.New mesh [uniformPhase mesh "water" 0 a r false true] [].

(** Stationary phases only. *)
Definition stationaryOnly (mesh : fvMesh) (a r : scalar)
    : phaseSystem.t scalar :=
  phaseSystem.New mesh [uniformPhase mesh "solid" 0 a r true false] [].
End Def.

Definition mesh2 : fvMesh := {| nCells := 2 |}.

Definition Qc_of (n : Z) (d : positive) : Qc := Q2Qc (n # d).

Definition waterAir : phasePairKey.t :=
  {| phasePairKey.first := "water"; phasePairKey.second := "air";
     phasePairKey.ordered := false |}.

Definition airWater : phasePairKey.t :=
  {| phasePairKey.first := "air"; phasePairKey.second := "water";
     phasePairKey.ordered := false |}.

Definition airInWater : phasePairKey.t :=
  {| phasePairKey.first := "air"; phasePairKey.second := "water";
     phasePairKey.ordered := true |}.

(** Water with air, over the rationals. *)
Definition waterWithAir : phaseSystem.t Qc :=
  twoMoving mesh2 (Qc_of 3 10) (Qc_of 1000 1) (Qc_of 7 10) (Qc_of 12 10).

(** Two configuration sections: the first names the unordered pair as
    (water, air) and an ordered pair, the second names the unordered pair as
    (air, water). *)
Definition surfaceTensionDicts : HashTable.t unit :=
  [(waterAir, tt); (airInWater, tt)].

Definition aspectRatioDicts : HashTable.t unit := [(airWater, tt)].
End Examples.

(** ** What the other operations compute *)

Section FurtherDescription.
Context {scalar : Type} `{Scalar scalar}.

(** The sum over the phases of interpolated fraction times flux. *)
Definition weightedPhi
    (interpolate : volScalarField scalar -> surfaceScalarField scalar)
    (phases : list (phaseModel.t scalar)) : surfaceScalarField scalar :=
  sumFields fadd
    (map (fun phase =>
            fmul (interpolate (phaseModel.alpha phase)) (phaseModel.phi phase))
       phases)
    [].

(** On one face: the sum over the phases of the interpolated fraction there
    times the flux there. *)
Definition weightedPhiAt
    (interpolate : volScalarField scalar -> surfaceScalarField scalar)
    (phases : list (phaseModel.t scalar)) (face : label) : scalar :=
  sumFields sadd
    (map (fun phase =>
            smul (nth face (interpolate (phaseModel.alpha phase)) szero)
                 (nth face (phaseModel.phi phase) szero))
       phases)
    szero.
End FurtherDescription.

Section FurtherDescription2.
Context {scalar : Type}.

(** The name is the name of a phase of the list. *)
Definition namesPhase (phases : list (phaseModel.t scalar)) (name : word)
    : Prop :=
  In name (map (@phaseModel.name scalar) phases).

(** A key that [generatePairs] can serve: it has a pair already, or both
    its names are names of phases. *)
Definition servable (sys : phaseSystem.t scalar) (key : phasePairKey.t)
    : Prop :=
  HashTable.found (phaseSystem.phasePairs_ sys) key = true
  \/ (namesPhase (phaseSystem.phaseModels_ sys) (phasePairKey.first key)
      /\ namesPhase (phaseSystem.phaseModels_ sys) (phasePairKey.second key)).
End FurtherDescription2.

Section FurtherDescription3.
Context {scalar : Type}.

(** The pair is the one to build for the key: it carries the key, is of
    the key's kind (directional for an ordered key), and refers to the
    phases the key names, in the key's order. *)
Definition pairMatches (sys : phaseSystem.t scalar) (key : phasePairKey.t)
    (pair : phasePair.t) : Prop :=
  phasePair.key pair = key
  /\ phasePair.dynamicType pair
     = (if phasePairKey.ordered key
        then phasePair.orderedPhasePair else phasePair.phasePair)
  /\ (exists phase,
        nth_error (phaseSystem.phaseModels_ sys) (phasePair.phase1 pair)
        = Some phase
        /\ phaseModel.name phase = phasePairKey.first key)
  /\ (exists phase,
        nth_error (phaseSystem.phaseModels_ sys) (phasePair.phase2 pair)
        = Some phase
        /\ phaseModel.name phase = phasePairKey.second key).

(** Every entry of the pair table points to the pair to build for its
    key. *)
Definition pairsMatchKeys (sys : phaseSystem.t scalar) : Prop :=
  Forall
    (fun e =>
       exists pair,
         nth_error (phaseSystem.pairStore sys) (snd e) = Some pair
         /\ pairMatches sys (fst e) pair)
    (phaseSystem.phasePairs_ sys).
End FurtherDescription3.

Section FurtherDescription4.
Context {scalar : Type} `{Scalar scalar}.

(** The second system differs from the first in its phases, of which there
    are as many, and in [dpdt] at most. *)
Definition sameFrame (sys sys' : phaseSystem.t scalar) : Prop :=
  List.length (phaseSystem.phaseModels_ sys')
  = List.length (phaseSystem.phaseModels_ sys)
  /\ sys'
     = phaseSystem.setDpdt
         (phaseSystem.setPhaseModels sys (phaseSystem.phaseModels_ sys'))
         (phaseSystem.dpdt_ sys').

(** The injected source for a phase: zero, plus the source of the options
    if one applies to the phase's density field. *)
Definition injectedSource (appliesToField : word -> bool)
    (fvOptionsSource :
       volScalarField scalar -> volScalarField scalar -> volScalarField scalar)
    (mesh : fvMesh) (phase : phaseModel.t scalar) : volScalarField scalar :=
  if appliesToField (phaseModel.rhoName (phaseModel.thermo phase))
  then fadd (uniformField mesh szero)
         (fvOptionsSource (phaseModel.alpha phase)
            (phaseModel.thermoRho (phaseModel.thermo phase)))
  else uniformField mesh szero.
End FurtherDescription4.

(** ** Further examples *)

Module Cases.
Local Open Scope string_scope.

(** A moving phase of water-like density whose flux through each of three
    faces is [flux]. *)
Definition flowing (name : word) (index : label) (a flux : Qc)
    : phaseModel.t Qc :=
  {| phaseModel.name := name;
     phaseModel.index := index;
     phaseModel.alpha := uniformField Examples.mesh2 a;
     phaseModel.rho := uniformField Examples.mesh2 (Examples.Qc_of 1000 1);
     phaseModel.U :=
       repeat {| vx := 0%Qc; vy := 0%Qc; vz := 0%Qc |}
         (nCells Examples.mesh2);
     phaseModel.phi := repeat flux 3;
     phaseModel.stationary := false;
     phaseModel.isothermal := true;
     phaseModel.pure := true;
     phaseModel.incompressible := true;
     phaseModel.thermo :=
       {| phaseModel.rhoName := String.append "thermo:rho." name;
          phaseModel.thermoRho :=
            uniformField Examples.mesh2 (Examples.Qc_of 1000 1);
          phaseModel.p := uniformField Examples.mesh2 1%Qc;
          phaseModel.dpdt := false |} |}.

Definition twoFlowing : list (phaseModel.t Qc) :=
  [flowing "water" 0 (Examples.Qc_of 3 10) (Examples.Qc_of 2 1);
   flowing "air" 1 (Examples.Qc_of 7 10) (Examples.Qc_of 5 1)].

(** An interpolation to three faces: the value of the first cell. *)
Definition toFaces (alpha : volScalarField Qc) : surfaceScalarField Qc :=
  repeat (hd 0%Qc alpha) 3.

Definition water : phaseModel.t Qc :=
  Examples.uniformPhase Examples.mesh2 "water" 0
    (Examples.Qc_of 6 10) (Examples.Qc_of 1000 1) false false.

Definition solid : phaseModel.t Qc :=
  Examples.uniformPhase Examples.mesh2 "solid" 1
    (Examples.Qc_of 4 10) (Examples.Qc_of 2500 1) true false.

(** Water through a solid at rest. *)
Definition waterAndSolid : phaseSystem.t Qc :=
  Examples.movingAndStationary Examples.mesh2
    (Examples.Qc_of 6 10) (Examples.Qc_of 1000 1)
    (Examples.Qc_of 4 10) (Examples.Qc_of 2500 1).

(** A key that names a phase no system of the examples has. *)
Definition oilWater : phasePairKey.t :=
  {| phasePairKey.first := "oil"; phasePairKey.second := "water";
     phasePairKey.ordered := false |}.

(** A mesh boundary of two patches, of four faces and of two. *)
Definition patches (mesh : fvMesh) : list nat := [4; 2].

Definition noPatchValues (model : surfaceTensionModel Qc) (patchi : label)
    : Field Qc := [].

(** A time step of half a second, and the reciprocal of it in every cell. *)
Definition halfSecond (mesh : fvMesh) : Qc := Examples.Qc_of 1 2.


(** A phase that reads its dictionary and changes nothing. *)
Definition reread (phase : phaseModel.t Qc) : phaseModel.t Qc * bool :=
  (phase, true).
(** A phase of water-like density with the same velocity [u] in every
    cell. *)
Definition streaming (name : word) (index : label) (a : Qc) (u : Vector Qc)
    (stationary : bool) : phaseModel.t Qc :=
  {| phaseModel.name := name;
     phaseModel.index := index;
     phaseModel.alpha := uniformField Examples.mesh2 a;
     phaseModel.rho := uniformField Examples.mesh2 (Examples.Qc_of 1000 1);
     phaseModel.U := repeat u (nCells Examples.mesh2);
     phaseModel.phi := [];
     phaseModel.stationary := stationary;
     phaseModel.isothermal := true;
     phaseModel.pure := true;
     phaseModel.incompressible := true;
     phaseModel.thermo :=
       {| phaseModel.rhoName := String.append "thermo:rho." name;
          phaseModel.thermoRho :=
            uniformField Examples.mesh2 (Examples.Qc_of 1000 1);
          phaseModel.p := uniformField Examples.mesh2 1%Qc;
          phaseModel.dpdt := false |} |}.

(** Two streams of a quarter of the volume each, with the velocities
    (8, 0, 0) and (4, 4, 0), through a solid that takes the other half. *)
Definition twoStreamsAndSolid : phaseSystem.t Qc :=
  phaseSystem.New Examples.mesh2
    [streaming "water" 0 (Examples.Qc_of 1 4)
       {| vx := Examples.Qc_of 8 1; vy := 0%Qc; vz := 0%Qc |} false;
     streaming "air" 1 (Examples.Qc_of 1 4)
       {| vx := Examples.Qc_of 4 1; vy := Examples.Qc_of 4 1; vz := 0%Qc |}
       false;
     streaming "solid" 2 (Examples.Qc_of 1 2)
       {| vx := 0%Qc; vy := 0%Qc; vz := 0%Qc |} true]
    [].

(** The same two streams without the solid. *)
Definition twoStreams : phaseSystem.t Qc :=
  phaseSystem.New Examples.mesh2
    [streaming "water" 0 (Examples.Qc_of 1 4)
       {| vx := Examples.Qc_of 8 1; vy := 0%Qc; vz := 0%Qc |} false;
     streaming "air" 1 (Examples.Qc_of 1 4)
       {| vx := Examples.Qc_of 4 1; vy := Examples.Qc_of 4 1; vz := 0%Qc |}
       false]
    [].

(** Options that apply to the density field of the water only and inject
    2 in the first cell and 3 in the second. *)
Definition appliesToWater (name : word) : bool :=
  String.eqb name "thermo:rho.water".

Definition injected (alpha rho : volScalarField Qc) : volScalarField Qc :=
  [Examples.Qc_of 2 1; Examples.Qc_of 3 1].

(** Mass-transfer rates: 5 and 7 for the phase of index 0, none for the
    phase of index 1. *)
Definition transfer (sys : phaseSystem.t Qc) : PtrList.t (volScalarField Qc) :=
  [Some [Examples.Qc_of 5 1; Examples.Qc_of 7 1]; None].

(** Reciprocal local time steps of 2 and 4. *)
Definition localSteps (mesh : fvMesh) : volScalarField Qc :=
  [Examples.Qc_of 2 1; Examples.Qc_of 4 1].
End Cases.

(** ** The values in one cell *)

Section CellValues.
Context {scalar : Type} `{Scalar scalar}.

(** In one cell: the sum over the moving phases of the phase's fraction
    there times its velocity there. *)
Definition weightedUAt (sys : phaseSystem.t scalar) (cell : label)
    : Vector scalar :=
  sumFields vadd
    (map (fun phase =>
            vscale (nth cell (phaseModel.alpha phase) szero)
              (nth cell (phaseModel.U phase)
                 {| vx := szero; vy := szero; vz := szero |}))
       (movingPhases sys))
    {| vx := szero; vy := szero; vz := szero |}.

(** In one cell: zero, plus the value of the options' source there if one
    applies to the phase's density field. *)
Definition injectedSourceAt (appliesToField : word -> bool)
    (fvOptionsSource :
       volScalarField scalar -> volScalarField scalar -> volScalarField scalar)
    (phase : phaseModel.t scalar) (cell : label) : scalar :=
  if appliesToField (phaseModel.rhoName (phaseModel.thermo phase))
  then sadd szero
         (nth cell
            (fvOptionsSource (phaseModel.alpha phase)
               (phaseModel.thermoRho (phaseModel.thermo phase)))
            szero)
  else szero.

(** In one cell: the injected value, plus the mass-transfer rate there of
    the slot at the phase's index if that slot is set. *)
Definition continuitySourceAt (appliesToField : word -> bool)
    (fvOptionsSource :
       volScalarField scalar -> volScalarField scalar -> volScalarField scalar)
    (dmdts : PtrList.t (volScalarField scalar))
    (phase : phaseModel.t scalar) (cell : label) : scalar :=
  match nth_error dmdts (phaseModel.index phase) with
  | Some (Some dmdt) =>
      sadd (injectedSourceAt appliesToField fvOptionsSource phase cell)
        (nth cell dmdt szero)
  | _ => injectedSourceAt appliesToField fvOptionsSource phase cell
  end.
End CellValues.

(** ** Results, interpreters and loops *)

Lemma bind_Ok {A B : Type} (r : result A) (k : A -> result B) (b : B) :
  bind r k = Ok b <-> exists a, r = Ok a /\ k a = Ok b.
Proof.
  destruct r as [a|e]; simpl; split.
  - intros Hk. exists a. split; [reflexivity | exact Hk].
  - intros [a' [Ha Hk]]. inversion Ha. subst a'. exact Hk.
  - discriminate.
  - intros [a [Ha _]]. discriminate.
Qed.

Lemma at_lt {A : Type} (l : list A) (i : label) :
  i < List.length l -> exists a, nth_error l i = Some a /\ at_ l i = Ok a.
Proof.
  intros Hi. unfold at_.
  destruct (nth_error l i) as [a|] eqn:E.
  - exists a. split; reflexivity.
  - apply nth_error_None in E. lia.
Qed.

Lemma at_nil {A : Type} (i : label) : at_ (@nil A) i = Fatal IndexOutOfRange.
Proof. unfold at_. destruct i; reflexivity. Qed.

Lemma at_cons_S {A : Type} (a : A) (l : list A) (i : label) :
  at_ (a :: l) (S i) = at_ l i.
Proof. reflexivity. Qed.

(** A loop that reads its i-th element and folds it into the accumulator
    computes the left fold over the elements from [i] on. *)
Lemma forLoop_fold {A B : Type} (f : A -> B -> A) (l : list B) :
  forall (n i : label) (a : A),
    n = List.length l - i -> i <= List.length l ->
    forLoop n i (fun j acc => x <- at_ l j ;; Ok (f acc x)) a
    = Ok (fold_left f (skipn i l) a).
Proof.
  induction n as [|n IH]; intros i a Hn Hi.
  - simpl. rewrite skipn_all2 by lia. reflexivity.
  - assert (Hlt : i < List.length l) by lia.
    destruct (at_lt l Hlt) as [x [Hx Hat]].
    simpl. rewrite Hat. simpl.
    rewrite IH by lia.
    assert (Hs : skipn i l = x :: skipn (S i) l).
    { clear - Hx. revert i Hx. induction l as [|y l IHl]; intros i Hx.
      - destruct i; discriminate.
      - destruct i as [|i]; simpl in *.
        + inversion Hx. reflexivity.
        + apply IHl. exact Hx. }
    rewrite Hs. reflexivity.
Qed.

Lemma forLoop_ext {A : Type} (body body' : label -> A -> result A) :
  forall (n i : label) (a : A),
    (forall j acc, i <= j < i + n -> body j acc = body' j acc) ->
    forLoop n i body a = forLoop n i body' a.
Proof.
  induction n as [|n IH]; intros i a Hext.
  - reflexivity.
  - simpl. rewrite Hext by lia.
    destruct (body' i a) as [a'|e]; simpl; [|reflexivity].
    apply IH. intros j acc Hj. apply Hext. lia.
Qed.

Lemma zipWith_repeat {A B C : Type} (f : A -> B -> C) (a : A) (b : B)
    (n : nat) :
  zipWith f (repeat a n) (repeat b n) = repeat (f a b) n.
Proof.
  induction n as [|n IH]; simpl; [reflexivity | rewrite IH; reflexivity].
Qed.

Lemma zipWith_length {A B C : Type} (f : A -> B -> C) (l : list A)
    (m : list B) (n : nat) :
  List.length l = n -> List.length m = n -> List.length (zipWith f l m) = n.
Proof.
  revert m n. induction l as [|a l IH]; intros m n Hl Hm.
  - simpl in *. exact Hl.
  - destruct m as [|b m]; simpl in *.
    + subst n. discriminate.
    + destruct n as [|n]; [discriminate|].
      f_equal. apply IH; lia.
Qed.

(** ** incompressible *)

Lemma incompressibleLoop_forallb {scalar : Type}
    (phases : list (phaseModel.t scalar)) :
  phaseSystem.incompressibleLoop phases
  = forallb (@phaseModel.incompressible scalar) phases.
Proof.
  induction phases as [|phase rest IH]; simpl.
  - reflexivity.
  - destruct (phaseModel.incompressible phase); simpl; [exact IH | reflexivity].
Qed.

Lemma incompressibleLoop_false {scalar : Type}
    (phases : list (phaseModel.t scalar)) :
  phaseSystem.incompressibleLoop phases = false
  <-> Exists (fun phase => phaseModel.incompressible phase = false) phases.
Proof.
  induction phases as [|phase rest IH]; simpl.
  - split; [discriminate | intros HE; inversion HE].
  - destruct (phaseModel.incompressible phase) eqn:E; simpl.
    + rewrite IH. split.
      * intros HE. right. exact HE.
      * intros HE. inversion HE as [? ? Hp|? ? Hr]; subst.
        -- rewrite E in Hp. discriminate.
        -- exact Hr.
    + split; [|reflexivity]. intros _. left. exact E.
Qed.

Lemma In_setAt {A : Type} (l : list A) (i : label) (a : A) :
  i < List.length l -> In a (setAt l i a).
Proof.
  revert i. induction l as [|x l IH]; intros i Hi; simpl in *.
  - lia.
  - destruct i as [|i]; simpl.
    + left. reflexivity.
    + right. apply IH. lia.
Qed.

(** C8: [incompressible()] is true exactly when every phase of the system
    reports incompressible, and false exactly when some phase reports
    compressible; in a system of three incompressible phases, replacing any
    one of them by a phase that reports compressible makes it false. *)
Theorem incompressible_iff_every_phase {scalar : Type}
    (sys : phaseSystem.t scalar) :
  (phaseSystem.incompressible sys = true
   <-> Forall (fun phase => phaseModel.incompressible phase = true)
         (phaseSystem.phaseModels_ sys))
  /\ (phaseSystem.incompressible sys = false
      <-> Exists (fun phase => phaseModel.incompressible phase = false)
            (phaseSystem.phaseModels_ sys))
  /\ (forall phase0 phase1 phase2 flipped i,
        phaseSystem.phaseModels_ sys = [phase0; phase1; phase2] ->
        phaseSystem.incompressible sys = true ->
        i < 3 ->
        phaseModel.incompressible flipped = false ->
        phaseSystem.incompressible
          (phaseSystem.setPhaseModels sys
             (setAt [phase0; phase1; phase2] i flipped))
        = false).
Proof.
  unfold phaseSystem.incompressible.
  split; [|split].
  - rewrite incompressibleLoop_forallb, forallb_forall, Forall_forall.
    reflexivity.
  - apply incompressibleLoop_false.
  - intros phase0 phase1 phase2 flipped i _ _ Hi Hflipped.
    cbn [phaseSystem.phaseModels_ phaseSystem.setPhaseModels].
    apply incompressibleLoop_false.
    apply Exists_exists. exists flipped. split; [|exact Hflipped].
    apply In_setAt. simpl. exact Hi.
Qed.

(** ** Per-pair queries *)

Lemma uniformField_at {scalar : Type} (mesh : fvMesh) (v : scalar)
    (cell : label) :
  cell < nCells mesh -> nth_error (uniformField mesh v) cell = Some v.
Proof.
  unfold uniformField. generalize (nCells mesh) as n.
  induction cell as [|cell IH]; intros n Hn; destruct n as [|n];
    simpl; try lia.
  - reflexivity.
  - apply IH. lia.
Qed.

Lemma uniformField_length {scalar : Type} (mesh : fvMesh) (v : scalar) :
  List.length (uniformField mesh v) = nCells mesh.
Proof. unfold uniformField. apply repeat_length. Qed.

(** C4: without a surface-tension model for the key, [sigma(key)] is the
    field that is 0 in every cell; without an aspect-ratio model for the
    key, [E(key)] is the field that is 1 in every cell; with a model for the
    key the query returns what the model returns; neither query fails. *)
Theorem missing_model_defaults {scalar : Type} `{Scalar scalar}
    (sys : phaseSystem.t scalar) (key : phasePairKey.t) :
  (HashTable.find (phaseSystem.surfaceTensionModels_ sys) key = None ->
   exists field,
     phaseSystem.sigma sys key = Ok field
     /\ List.length field = nCells (phaseSystem.mesh_ sys)
     /\ forall cell, cell < nCells (phaseSystem.mesh_ sys) ->
          nth_error field cell = Some szero)
  /\ (HashTable.find (phaseSystem.aspectRatioModels_ sys) key = None ->
      exists field,
        phaseSystem.E sys key = Ok field
        /\ List.length field = nCells (phaseSystem.mesh_ sys)
        /\ forall cell, cell < nCells (phaseSystem.mesh_ sys) ->
             nth_error field cell = Some sone)
  /\ (forall model,
        HashTable.find (phaseSystem.surfaceTensionModels_ sys) key
        = Some model ->
        phaseSystem.sigma sys key = Ok (surfaceTensionModel_sigma model))
  /\ (forall model,
        HashTable.find (phaseSystem.aspectRatioModels_ sys) key = Some model ->
        phaseSystem.E sys key = Ok (aspectRatioModel_E model))
  /\ isOk (phaseSystem.sigma sys key) = true
  /\ isOk (phaseSystem.E sys key) = true.
Proof.
  unfold phaseSystem.sigma, phaseSystem.E, HashTable.found, HashTable.get.
  repeat split.
  - intros Hnone. rewrite Hnone.
    exists (uniformField (phaseSystem.mesh_ sys) szero).
    split; [reflexivity|]. split.
    + apply uniformField_length.
    + intros cell Hcell. apply uniformField_at. exact Hcell.
  - intros Hnone. rewrite Hnone.
    exists (uniformField (phaseSystem.mesh_ sys) sone).
    split; [reflexivity|]. split.
    + apply uniformField_length.
    + intros cell Hcell. apply uniformField_at. exact Hcell.
  - intros model Hsome. rewrite Hsome. reflexivity.
  - intros model Hsome. rewrite Hsome. reflexivity.
  - destruct (HashTable.find (phaseSystem.surfaceTensionModels_ sys) key);
      reflexivity.
  - destruct (HashTable.find (phaseSystem.aspectRatioModels_ sys) key);
      reflexivity.
Qed.

(** ** Mass-transfer defaults *)

Lemma findIndex_In {scalar : Type} (phases : list (phaseModel.t scalar))
    (key : word) :
  In key (map (@phaseModel.name scalar) phases) ->
  forall i, exists j, findIndex phases key i = Some j.
Proof.
  induction phases as [|phase rest IH]; intros Hin i; simpl in *.
  - contradiction.
  - destruct (String.eqb (phaseModel.name phase) key) eqn:E.
    + exists i. reflexivity.
    + destruct Hin as [Heq|Hin].
      * rewrite Heq, String.eqb_refl in E. discriminate.
      * apply IH. exact Hin.
Qed.

Lemma lookupPhase_In {scalar : Type} (phases : list (phaseModel.t scalar))
    (key : word) :
  In key (map (@phaseModel.name scalar) phases) ->
  exists j, lookupPhase phases key = Ok j.
Proof.
  intros Hin. unfold lookupPhase.
  destruct (findIndex_In phases key Hin 0) as [j Hj].
  exists j. rewrite Hj. reflexivity.
Qed.

Lemma sized_at {T : Type} (n : nat) (i : label) :
  i < n -> at_ (PtrList.sized T n) i = Ok None.
Proof.
  unfold PtrList.sized, at_. revert i.
  induction n as [|n IH]; intros i Hi; [lia|].
  destruct i as [|i]; simpl; [reflexivity|].
  apply IH. lia.
Qed.

(** C9: for a key that names two phases of the system the default
    [dmdtf(key)] is the field that is 0 in every cell, and the default
    [dmdts()] is a list with one slot per phase none of which is set. *)
Theorem dmdt_defaults {scalar : Type} `{Scalar scalar}
    (sys : phaseSystem.t scalar) (key : phasePairKey.t)
    (Hfirst : In (phasePairKey.first key)
                (map (@phaseModel.name scalar) (phaseSystem.phaseModels_ sys)))
    (Hsecond : In (phasePairKey.second key)
                 (map (@phaseModel.name scalar) (phaseSystem.phaseModels_ sys))) :
  (exists field,
     phaseSystem.dmdtf sys key = Ok field
     /\ List.length field = nCells (phaseSystem.mesh_ sys)
     /\ forall cell, cell < nCells (phaseSystem.mesh_ sys) ->
          nth_error field cell = Some szero)
  /\ PtrList.size (phaseSystem.dmdts sys)
     = List.length (phaseSystem.phaseModels_ sys)
  /\ (forall phasei, phasei < List.length (phaseSystem.phaseModels_ sys) ->
        PtrList.set (phaseSystem.dmdts sys) phasei = Ok false).
Proof.
  split; [|split].
  - destruct (lookupPhase_In _ _ Hfirst) as [phase1 H1].
    destruct (lookupPhase_In _ _ Hsecond) as [phase2 H2].
    exists (uniformField (phaseSystem.mesh_ sys) szero).
    unfold phaseSystem.dmdtf. rewrite H1, H2. simpl.
    split; [reflexivity|]. split.
    + apply uniformField_length.
    + intros cell Hcell. apply uniformField_at. exact Hcell.
  - unfold PtrList.size, phaseSystem.dmdts, PtrList.sized.
    apply repeat_length.
  - intros phasei Hi. unfold PtrList.set, phaseSystem.dmdts.
    rewrite sized_at by exact Hi. reflexivity.
Qed.

Lemma dmdt_defaults_witness :
  (exists field,
     phaseSystem.dmdtf
       (Examples.twoMoving Examples.mesh2
          (Examples.Qc_of 3 10) (Examples.Qc_of 1000 1)
          (Examples.Qc_of 7 10) (Examples.Qc_of 12 10))
       Examples.waterAir
     = Ok field
     /\ List.length field = 2
     /\ forall cell, cell < 2 -> nth_error field cell = Some 0%Qc)
  /\ PtrList.size
       (phaseSystem.dmdts
          (Examples.twoMoving Examples.mesh2
             (Examples.Qc_of 3 10) (Examples.Qc_of 1000 1)
             (Examples.Qc_of 7 10) (Examples.Qc_of 12 10)))
     = 2
  /\ (forall phasei, phasei < 2 ->
        PtrList.set
          (phaseSystem.dmdts
             (Examples.twoMoving Examples.mesh2
                (Examples.Qc_of 3 10) (Examples.Qc_of 1000 1)
                (Examples.Qc_of 7 10) (Examples.Qc_of 12 10)))
          phasei
        = Ok false).
Proof.
  refine (dmdt_defaults
            (Examples.twoMoving Examples.mesh2
               (Examples.Qc_of 3 10) (Examples.Qc_of 1000 1)
               (Examples.Qc_of 7 10) (Examples.Qc_of 12 10))
            Examples.waterAir _ _).
  - simpl. left. reflexivity.
  - simpl. right. left. reflexivity.
Defined.

(** ** Filtered lists *)

Section Views.
Context {scalar : Type} `{Scalar scalar}.
Variable sys : phaseSystem.t scalar.

Lemma phasesOf_cons (ptr : label) (view : list label)
    (phase : phaseModel.t scalar) :
  nth_error (phaseSystem.phaseModels_ sys) ptr = Some phase ->
  phasesOf sys (ptr :: view) = phase :: phasesOf sys view.
Proof. intros Hphase. unfold phasesOf. simpl. rewrite Hphase. reflexivity. Qed.

Lemma viewAt_phasesOf (view : list label) :
  validPointers sys view ->
  forall i, phaseSystem.viewAt sys view i = at_ (phasesOf sys view) i.
Proof.
  unfold validPointers.
  induction view as [|ptr view IH]; intros Hvalid i.
  - unfold phaseSystem.viewAt. simpl. rewrite !at_nil. reflexivity.
  - inversion Hvalid as [|? ? Hptr Hrest]; subst.
    destruct (at_lt _ Hptr) as [phase [Hphase _]].
    rewrite (@phasesOf_cons ptr view phase Hphase).
    destruct i as [|i].
    + unfold phaseSystem.viewAt. simpl. rewrite Hphase. reflexivity.
    + rewrite at_cons_S. rewrite <- (IH Hrest i).
      unfold phaseSystem.viewAt. rewrite at_cons_S. reflexivity.
Qed.

Lemma phasesOf_length (view : list label) :
  validPointers sys view ->
  List.length (phasesOf sys view) = List.length view.
Proof.
  unfold validPointers.
  induction view as [|ptr view IH]; intros Hvalid.
  - reflexivity.
  - inversion Hvalid as [|? ? Hptr Hrest]; subst.
    destruct (at_lt _ Hptr) as [phase [Hphase _]].
    rewrite (@phasesOf_cons ptr view phase Hphase). simpl.
    f_equal. apply IH. exact Hrest.
Qed.

Lemma phasesOf_In (view : list label) (phase : phaseModel.t scalar) :
  In phase (phasesOf sys view) -> In phase (phaseSystem.phaseModels_ sys).
Proof.
  unfold phasesOf. rewrite in_flat_map.
  intros [ptr [_ Hin]].
  destruct (nth_error (phaseSystem.phaseModels_ sys) ptr) as [ph|] eqn:E.
  - destruct Hin as [Heq|[]]. subst ph.
    apply nth_error_In with (n := ptr). exact E.
  - contradiction.
Qed.

(** The loop of [rho()] and [U()] over the moving phases from the second
    on, as a left fold over those phases. *)
Lemma moving_loop_fold {A : Type} (f : A -> phaseModel.t scalar -> A)
    (view : list label) (a : A) :
  validPointers sys view ->
  forRange 1 (List.length view)
    (fun i acc => phase <- phaseSystem.viewAt sys view i ;; Ok (f acc phase)) a
  = Ok (fold_left f (tl (phasesOf sys view)) a).
Proof.
  intros Hvalid. unfold forRange.
  rewrite forLoop_ext
    with (body' := fun i acc => x <- at_ (phasesOf sys view) i ;; Ok (f acc x)).
  - destruct view as [|ptr view].
    + reflexivity.
    + rewrite forLoop_fold with (l := phasesOf sys (ptr :: view)).
      * destruct (phasesOf sys (ptr :: view)); reflexivity.
      * rewrite phasesOf_length by exact Hvalid. reflexivity.
      * rewrite phasesOf_length by exact Hvalid. simpl. lia.
  - intros j acc _. rewrite viewAt_phasesOf by exact Hvalid. reflexivity.
Qed.
End Views.

(** ** Field division *)

Lemma zipWithM_guarded {A B C : Type} (isZero : B -> bool) (g : A -> B -> C)
    (e : FatalError) :
  forall (l : list A) (m : list B),
    List.length l = List.length m ->
    zipWithM (fun a b => if isZero b then Fatal e else Ok (g a b)) l m
    = if forallb (fun b => negb (isZero b)) m
      then Ok (zipWith g l m) else Fatal e.
Proof.
  induction l as [|a l IH]; intros m Hlen; destruct m as [|b m];
    simpl in *; try discriminate.
  - reflexivity.
  - destruct (isZero b); simpl; [reflexivity|].
    rewrite IH by lia.
    destruct (forallb (fun b0 => negb (isZero b0)) m); reflexivity.
Qed.

Lemma nowhereZero_forallb {scalar : Type} `{Scalar scalar}
    (f : volScalarField scalar) :
  nowhereZero f <-> forallb (fun x => negb (sIsZero x)) f = true.
Proof.
  unfold nowhereZero. rewrite forallb_forall, Forall_forall.
  split; intros Hall x Hx; specialize (Hall x Hx).
  - rewrite Hall. reflexivity.
  - destruct (sIsZero x); [discriminate | reflexivity].
Qed.

Lemma fdivide_cases {scalar : Type} `{Scalar scalar}
    (f g : volScalarField scalar) :
  List.length f = List.length g ->
  (nowhereZero g -> fdivide f g = Ok (zipWith sdiv f g))
  /\ (~ nowhereZero g -> fdivide f g = Fatal FloatingPointException).
Proof.
  intros Hlen. unfold fdivide, sdivide.
  rewrite zipWithM_guarded by exact Hlen.
  rewrite nowhereZero_forallb.
  destruct (forallb (fun x => negb (sIsZero x)) g); split; intros Hz;
    try reflexivity; try discriminate.
  exfalso. apply Hz. reflexivity.
Qed.

Lemma fvdivide_cases {scalar : Type} `{Scalar scalar}
    (u : volVectorField scalar) (g : volScalarField scalar) :
  List.length u = List.length g ->
  (nowhereZero g -> fvdivide u g = Ok (zipWith vdiv u g))
  /\ (~ nowhereZero g -> fvdivide u g = Fatal FloatingPointException).
Proof.
  intros Hlen. unfold fvdivide.
  change (@vdivide scalar _)
    with (fun (v : Vector scalar) (a : scalar) =>
            if sIsZero a then Fatal FloatingPointException
            else Ok (vdiv v a)).
  rewrite zipWithM_guarded by exact Hlen.
  rewrite nowhereZero_forallb.
  destruct (forallb (fun x => negb (sIsZero x)) g); split; intros Hz;
    try reflexivity; try discriminate.
  exfalso. apply Hz. reflexivity.
Qed.

Lemma fold_left_map {A B C : Type} (f : A -> C -> A) (g : B -> C)
    (l : list B) (a : A) :
  fold_left (fun acc x => f acc (g x)) l a = fold_left f (map g l) a.
Proof.
  revert a. induction l as [|x l IH]; intros a; simpl.
  - reflexivity.
  - apply IH.
Qed.

Lemma fold_zipWith_length {A : Type} (f : A -> A -> A) (n : nat)
    (fields : list (list A)) (first : list A) :
  List.length first = n ->
  Forall (fun field => List.length field = n) fields ->
  List.length (fold_left (zipWith f) fields first) = n.
Proof.
  revert first. induction fields as [|field fields IH]; intros first Hf Hall.
  - exact Hf.
  - inversion_clear Hall as [|? ? Hfield Hrest]. simpl.
    apply IH; [|exact Hrest].
    apply zipWith_length; [exact Hf | exact Hfield].
Qed.

(** ** Mixture density and velocity *)

Section Mixture.
Context {scalar : Type} `{Scalar scalar}.
Variable sys : phaseSystem.t scalar.
Hypothesis Hvalid : validPointers sys (phaseSystem.movingPhaseModels_ sys).

Lemma movingPhases_nil :
  movingPhases sys = [] <-> phaseSystem.movingPhaseModels_ sys = [].
Proof.
  pose proof (phasesOf_length Hvalid) as Hlen.
  unfold movingPhases.
  destruct (phasesOf sys (phaseSystem.movingPhaseModels_ sys));
    destruct (phaseSystem.movingPhaseModels_ sys); simpl in Hlen;
    split; intros Heq; try reflexivity; try discriminate.
Qed.

Lemma rho_cases :
  phaseSystem.rho sys
  = match movingPhases sys with
    | [] => Fatal IndexOutOfRange
    | _ :: _ =>
        match phaseSystem.stationaryPhaseModels_ sys with
        | [] => Ok (weightedRho sys)
        | _ :: _ => fdivide (weightedRho sys) (sumAlphaMoving sys)
        end
    end.
Proof.
  unfold phaseSystem.rho.
  pose proof (moving_loop_fold (sys := sys)
                (fun acc phase =>
                   fadd acc
                     (fmul (phaseModel.alpha phase) (phaseModel.rho phase))))
    as Hrho.
  pose proof (moving_loop_fold (sys := sys)
                (fun acc phase => fadd acc (phaseModel.alpha phase)))
    as Hsum.
  cbv beta in Hrho, Hsum.
  rewrite (viewAt_phasesOf Hvalid).
  unfold weightedRho, sumAlphaMoving, movingPhases.
  destruct (phasesOf sys (phaseSystem.movingPhaseModels_ sys))
    as [|phase0 rest] eqn:Hphases.
  - reflexivity.
  - simpl. rewrite (Hrho _ _ Hvalid), Hphases. simpl.
    rewrite fold_left_map
      with (f := fadd)
           (g := fun phase =>
                   fmul (phaseModel.alpha phase) (phaseModel.rho phase)).
    destruct (phaseSystem.stationaryPhaseModels_ sys); [reflexivity|].
    rewrite (Hsum _ _ Hvalid), Hphases. simpl.
    rewrite fold_left_map with (f := fadd) (g := @phaseModel.alpha scalar).
    reflexivity.
Qed.

Lemma U_cases :
  phaseSystem.U sys
  = match movingPhases sys with
    | [] => Fatal IndexOutOfRange
    | _ :: _ =>
        match phaseSystem.stationaryPhaseModels_ sys with
        | [] => Ok (weightedU sys)
        | _ :: _ => fvdivide (weightedU sys) (sumAlphaMoving sys)
        end
    end.
Proof.
  unfold phaseSystem.U.
  pose proof (moving_loop_fold (sys := sys)
                (fun acc phase =>
                   fvadd acc
                     (fvscale (phaseModel.alpha phase) (phaseModel.U phase))))
    as HU.
  pose proof (moving_loop_fold (sys := sys)
                (fun acc phase => fadd acc (phaseModel.alpha phase)))
    as Hsum.
  cbv beta in HU, Hsum.
  rewrite (viewAt_phasesOf Hvalid).
  unfold weightedU, sumAlphaMoving, movingPhases.
  destruct (phasesOf sys (phaseSystem.movingPhaseModels_ sys))
    as [|phase0 rest] eqn:Hphases.
  - reflexivity.
  - simpl. rewrite (HU _ _ Hvalid), Hphases. simpl.
    rewrite fold_left_map
      with (f := fvadd)
           (g := fun phase =>
                   fvscale (phaseModel.alpha phase) (phaseModel.U phase)).
    destruct (phaseSystem.stationaryPhaseModels_ sys); [reflexivity|].
    rewrite (Hsum _ _ Hvalid), Hphases. simpl.
    rewrite fold_left_map with (f := fadd) (g := @phaseModel.alpha scalar).
    reflexivity.
Qed.
End Mixture.

(** ** Groupings *)

Section Groupings.
Context {scalar : Type} `{Scalar scalar}.

Lemma groupingsLoop_positions (phases : list (phaseModel.t scalar)) :
  forall (phasei : label) (moving stationary anisothermal multi : list label),
    phaseSystem.groupingsLoop phasei phases
      (moving, stationary, anisothermal, multi)
    = (moving
         ++ positionsWhere (fun ph => negb (phaseModel.stationary ph))
              phasei phases,
       stationary
         ++ positionsWhere (@phaseModel.stationary scalar) phasei phases,
       anisothermal
         ++ positionsWhere (fun ph => negb (phaseModel.isothermal ph))
              phasei phases,
       multi
         ++ positionsWhere (fun ph => negb (phaseModel.pure ph))
              phasei phases).
Proof.
  induction phases as [|phase rest IH]; intros phasei mv st an mc.
  - simpl. rewrite !app_nil_r. reflexivity.
  - simpl. rewrite IH.
    destruct (phaseModel.stationary phase), (phaseModel.isothermal phase),
      (phaseModel.pure phase); simpl; rewrite <- ?app_assoc; reflexivity.
Qed.

Lemma positionsWhere_bound (select : phaseModel.t scalar -> bool)
    (phases : list (phaseModel.t scalar)) :
  forall i,
    Forall (fun ptr => i <= ptr < i + List.length phases)
      (positionsWhere select i phases).
Proof.
  induction phases as [|phase rest IH]; intros i; simpl.
  - constructor.
  - assert (Hrest : Forall (fun ptr => i <= ptr < i + S (List.length rest))
                      (positionsWhere select (S i) rest)).
    { eapply Forall_impl; [|apply IH]. simpl. intros ptr Hptr. lia. }
    destruct (select phase); [constructor; [lia|]|]; exact Hrest.
Qed.

(** The constructor leaves filtered lists whose pointers refer to phases of
    the system. *)
Lemma New_validPointers (mesh : fvMesh) (phases : list (phaseModel.t scalar))
    (phi : Field scalar) :
  let sys := phaseSystem.New mesh phases phi in
  phaseSystem.phaseModels_ sys = phases
  /\ phaseSystem.movingPhaseModels_ sys
     = positionsWhere (fun ph => negb (phaseModel.stationary ph)) 0 phases
  /\ phaseSystem.stationaryPhaseModels_ sys
     = positionsWhere (@phaseModel.stationary scalar) 0 phases
  /\ validPointers sys (phaseSystem.movingPhaseModels_ sys)
  /\ validPointers sys (phaseSystem.stationaryPhaseModels_ sys).
Proof.
  unfold phaseSystem.New. rewrite groupingsLoop_positions. simpl.
  repeat split; unfold validPointers; simpl;
    (eapply Forall_impl; [|apply positionsWhere_bound]);
    simpl; intros ptr Hptr; lia.
Qed.

Lemma positionsWhere_partition (select : phaseModel.t scalar -> bool)
    (phases : list (phaseModel.t scalar)) :
  forall i,
    List.length (positionsWhere (fun ph => negb (select ph)) i phases)
    + List.length (positionsWhere select i phases)
    = List.length phases.
Proof.
  induction phases as [|phase rest IH]; intros i; simpl.
  - reflexivity.
  - specialize (IH (S i)). destruct (select phase); simpl; lia.
Qed.

(** The constructor needs a phase: [calcPhi] reads the first one. *)
Lemma calcPhi_needs_phase
    (interpolate : volScalarField scalar -> surfaceScalarField scalar)
    (phases : list (phaseModel.t scalar)) (phi : surfaceScalarField scalar) :
  phaseSystem.calcPhi interpolate phases = Ok phi -> phases <> [].
Proof.
  intros Hphi Hnil. subst phases. discriminate.
Qed.

(** A constructed system without stationary phases has a moving phase. *)
Lemma New_moving_phase
    (interpolate : volScalarField scalar -> surfaceScalarField scalar)
    (mesh : fvMesh) (phases : list (phaseModel.t scalar))
    (phi : surfaceScalarField scalar) :
  phaseSystem.calcPhi interpolate phases = Ok phi ->
  phaseSystem.stationaryPhaseModels_ (phaseSystem.New mesh phases phi) = [] ->
  phaseSystem.movingPhaseModels_ (phaseSystem.New mesh phases phi) <> [].
Proof.
  intros Hphi Hstationary Hmoving.
  apply (calcPhi_needs_phase interpolate Hphi).
  destruct (New_validPointers mesh phases phi) as [_ [Hmv [Hst _]]].
  rewrite Hmv in Hmoving. rewrite Hst in Hstationary.
  pose proof (positionsWhere_partition (@phaseModel.stationary scalar)
                phases 0) as Hpart.
  rewrite Hmoving, Hstationary in Hpart. simpl in Hpart.
  destruct phases; [reflexivity | discriminate].
Qed.
End Groupings.

(** ** Sums of fields, cell by cell *)

Lemma zipWith_nth_error {A B C : Type} (f : A -> B -> C) (l : list A)
    (m : list B) (cell : label) (x : A) (y : B) :
  nth_error l cell = Some x -> nth_error m cell = Some y ->
  nth_error (zipWith f l m) cell = Some (f x y).
Proof.
  revert m cell. induction l as [|a l IH]; intros m cell Hx Hy.
  - destruct cell; discriminate.
  - destruct m as [|b m]; [destruct cell; discriminate|].
    destruct cell as [|cell]; simpl in *.
    + inversion Hx. inversion Hy. reflexivity.
    + apply IH; assumption.
Qed.

Lemma nth_error_nth_lt {A : Type} (l : list A) (cell : label) (d : A) :
  cell < List.length l -> nth_error l cell = Some (nth cell l d).
Proof.
  revert cell. induction l as [|a l IH]; intros cell Hc; simpl in *.
  - lia.
  - destruct cell as [|cell]; simpl.
    + reflexivity.
    + apply IH. lia.
Qed.

Lemma fold_zipWith_nth_error {A : Type} (add : A -> A -> A) (d : A)
    (cell : label) (fields : list (list A)) :
  forall (first : list A) (x : A),
    nth_error first cell = Some x ->
    Forall (fun field => cell < List.length field) fields ->
    nth_error (fold_left (zipWith add) fields first) cell
    = Some (fold_left add (map (fun field => nth cell field d) fields) x).
Proof.
  induction fields as [|field fields IH]; intros first x Hx Hall.
  - exact Hx.
  - inversion_clear Hall as [|? ? Hfield Hrest]. simpl.
    apply IH; [|exact Hrest].
    apply zipWith_nth_error; [exact Hx|].
    apply nth_error_nth_lt. exact Hfield.
Qed.

Section CellSums.
Context {scalar : Type} `{Scalar scalar}.
Variable sys : phaseSystem.t scalar.
Hypothesis Hfields : fieldsOnMesh sys.

Lemma moving_fieldsOnMesh (phase : phaseModel.t scalar) :
  In phase (movingPhases sys) ->
  List.length (phaseModel.alpha phase) = nCells (phaseSystem.mesh_ sys)
  /\ List.length (phaseModel.rho phase) = nCells (phaseSystem.mesh_ sys)
  /\ List.length (phaseModel.U phase) = nCells (phaseSystem.mesh_ sys).
Proof.
  intros Hin. apply phasesOf_In in Hin.
  unfold fieldsOnMesh in Hfields. rewrite Forall_forall in Hfields.
  apply Hfields. exact Hin.
Qed.

Lemma weightedRho_at (cell : label) :
  movingPhases sys <> [] ->
  cell < nCells (phaseSystem.mesh_ sys) ->
  nth_error (weightedRho sys) cell = Some (weightedRhoAt sys cell).
Proof.
  intros Hne Hcell. unfold weightedRho, weightedRhoAt.
  pose proof moving_fieldsOnMesh as Hmesh.
  destruct (movingPhases sys) as [|phase0 rest]; [contradiction|].
  simpl. unfold fadd.
  rewrite fold_zipWith_nth_error
    with (d := szero)
         (x := smul (nth cell (phaseModel.alpha phase0) szero)
                 (nth cell (phaseModel.rho phase0) szero)).
  - f_equal. f_equal. rewrite map_map. apply map_ext_in.
    intros phase Hin.
    destruct (Hmesh phase (or_intror Hin)) as [Ha [Hr _]].
    apply nth_error_nth with (d := szero).
    unfold fmul. apply zipWith_nth_error; apply nth_error_nth_lt; lia.
  - destruct (Hmesh phase0 (or_introl eq_refl)) as [Ha [Hr _]].
    unfold fmul. apply zipWith_nth_error; apply nth_error_nth_lt; lia.
  - rewrite Forall_forall. intros field Hin.
    apply in_map_iff in Hin. destruct Hin as [phase [Heq Hin]]. subst field.
    destruct (Hmesh phase (or_intror Hin)) as [Ha [Hr _]].
    unfold fmul. rewrite zipWith_length with (n := nCells (phaseSystem.mesh_ sys));
      assumption.
Qed.

Lemma sumAlphaMoving_at (cell : label) :
  movingPhases sys <> [] ->
  cell < nCells (phaseSystem.mesh_ sys) ->
  nth_error (sumAlphaMoving sys) cell = Some (sumAlphaMovingAt sys cell).
Proof.
  intros Hne Hcell. unfold sumAlphaMoving, sumAlphaMovingAt.
  pose proof moving_fieldsOnMesh as Hmesh.
  destruct (movingPhases sys) as [|phase0 rest]; [contradiction|].
  simpl. unfold fadd.
  rewrite fold_zipWith_nth_error
    with (d := szero) (x := nth cell (phaseModel.alpha phase0) szero).
  - f_equal. f_equal. rewrite map_map. reflexivity.
  - destruct (Hmesh phase0 (or_introl eq_refl)) as [Ha _].
    apply nth_error_nth_lt. lia.
  - rewrite Forall_forall. intros field Hin.
    apply in_map_iff in Hin. destruct Hin as [phase [Heq Hin]]. subst field.
    destruct (Hmesh phase (or_intror Hin)) as [Ha _]. lia.
Qed.

Lemma weightedRho_length :
  movingPhases sys <> [] ->
  List.length (weightedRho sys) = nCells (phaseSystem.mesh_ sys).
Proof.
  intros Hne. unfold weightedRho.
  pose proof moving_fieldsOnMesh as Hmesh.
  destruct (movingPhases sys) as [|phase0 rest]; [contradiction|].
  simpl. unfold fadd. apply fold_zipWith_length.
  - destruct (Hmesh phase0 (or_introl eq_refl)) as [Ha [Hr _]].
    unfold fmul. apply zipWith_length; assumption.
  - rewrite Forall_forall. intros field Hin.
    apply in_map_iff in Hin. destruct Hin as [phase [Heq Hin]]. subst field.
    destruct (Hmesh phase (or_intror Hin)) as [Ha [Hr _]].
    unfold fmul. apply zipWith_length; assumption.
Qed.

Lemma weightedU_length :
  movingPhases sys <> [] ->
  List.length (weightedU sys) = nCells (phaseSystem.mesh_ sys).
Proof.
  intros Hne. unfold weightedU.
  pose proof moving_fieldsOnMesh as Hmesh.
  destruct (movingPhases sys) as [|phase0 rest]; [contradiction|].
  simpl. unfold fvadd. apply fold_zipWith_length.
  - destruct (Hmesh phase0 (or_introl eq_refl)) as [Ha [_ Hu]].
    unfold fvscale. apply zipWith_length; assumption.
  - rewrite Forall_forall. intros field Hin.
    apply in_map_iff in Hin. destruct Hin as [phase [Heq Hin]]. subst field.
    destruct (Hmesh phase (or_intror Hin)) as [Ha [_ Hu]].
    unfold fvscale. apply zipWith_length; assumption.
Qed.

Lemma sumAlphaMoving_length :
  movingPhases sys <> [] ->
  List.length (sumAlphaMoving sys) = nCells (phaseSystem.mesh_ sys).
Proof.
  intros Hne. unfold sumAlphaMoving.
  pose proof moving_fieldsOnMesh as Hmesh.
  destruct (movingPhases sys) as [|phase0 rest]; [contradiction|].
  simpl. unfold fadd. apply fold_zipWith_length.
  - destruct (Hmesh phase0 (or_introl eq_refl)) as [Ha _]. exact Ha.
  - rewrite Forall_forall. intros field Hin.
    apply in_map_iff in Hin. destruct Hin as [phase [Heq Hin]]. subst field.
    destruct (Hmesh phase (or_intror Hin)) as [Ha _]. exact Ha.
Qed.
End CellSums.

(** ** The mixture density of the example systems *)

Lemma zipWithM_sdivide_repeat {scalar : Type} `{Scalar scalar} (x y : scalar)
    (n : nat) :
  sIsZero y = false ->
  zipWithM sdivide (repeat x n) (repeat y n) = Ok (repeat (sdiv x y) n).
Proof.
  intros Hy. induction n as [|n IH]; simpl.
  - reflexivity.
  - unfold sdivide at 1. rewrite Hy. simpl. rewrite IH. reflexivity.
Qed.

Lemma rho_twoMoving {scalar : Type} `{Scalar scalar} (mesh : fvMesh)
    (a1 r1 a2 r2 : scalar) :
  phaseSystem.rho (Examples.twoMoving mesh a1 r1 a2 r2)
  = Ok (uniformField mesh (sadd (smul a1 r1) (smul a2 r2))).
Proof.
  unfold Examples.twoMoving, phaseSystem.rho. cbn.
  unfold uniformField. rewrite !zipWith_repeat. reflexivity.
Qed.

Lemma rho_movingAndStationary {scalar : Type} `{Scalar scalar} (mesh : fvMesh)
    (a r a' r' : scalar) :
  sIsZero a = false ->
  phaseSystem.rho (Examples.movingAndStationary mesh a r a' r')
  = Ok (uniformField mesh (sdiv (smul a r) a)).
Proof.
  intros Ha.
  unfold Examples.movingAndStationary, phaseSystem.rho. cbn.
  unfold uniformField. rewrite zipWith_repeat.
  apply zipWithM_sdivide_repeat. exact Ha.
Qed.

(** C2: in a system without stationary phases (and with a moving phase to
    start the sum from, which a constructed system has) [rho()] returns the
    sum over the moving phases of fraction times density, as it stands: cell
    by cell, the sum of the phases' fraction times density in that cell.
    With two moving phases of fractions 0.3 and 0.7 and densities 1000 and
    1.2 the result is 0.3*1000 + 0.7*1.2 = 300.84 in every cell, over the
    rationals and in binary64. *)
Theorem rho_without_stationary_phases :
  (forall (scalar : Type) (ops : Scalar scalar) (sys : phaseSystem.t scalar),
     validPointers sys (phaseSystem.movingPhaseModels_ sys) ->
     phaseSystem.movingPhaseModels_ sys <> [] ->
     phaseSystem.stationaryPhaseModels_ sys = [] ->
     phaseSystem.rho sys = Ok (weightedRho sys)
     /\ (fieldsOnMesh sys ->
         forall cell, cell < nCells (phaseSystem.mesh_ sys) ->
           nth_error (weightedRho sys) cell = Some (weightedRhoAt sys cell)))
  /\ (forall (scalar : Type) (ops : Scalar scalar)
        (interpolate : volScalarField scalar -> surfaceScalarField scalar)
        (mesh : fvMesh) (phases : list (phaseModel.t scalar))
        (phi : surfaceScalarField scalar),
        phaseSystem.calcPhi interpolate phases = Ok phi ->
        phaseSystem.stationaryPhaseModels_ (phaseSystem.New mesh phases phi)
        = [] ->
        phaseSystem.rho (phaseSystem.New mesh phases phi)
        = Ok (weightedRho (phaseSystem.New mesh phases phi)))
  /\ (forall mesh : fvMesh,
        phaseSystem.rho
          (Examples.twoMoving mesh
             (Examples.Qc_of 3 10) (Examples.Qc_of 1000 1)
             (Examples.Qc_of 7 10) (Examples.Qc_of 12 10))
        = Ok (uniformField mesh
                (Examples.Qc_of 3 10 * Examples.Qc_of 1000 1
                 + Examples.Qc_of 7 10 * Examples.Qc_of 12 10)%Qc)
        /\ (Examples.Qc_of 3 10 * Examples.Qc_of 1000 1
            + Examples.Qc_of 7 10 * Examples.Qc_of 12 10)%Qc
           = Examples.Qc_of 30084 100)
  /\ (forall mesh : fvMesh,
        phaseSystem.rho
          (Examples.twoMoving mesh 0.3%float 1000%float 0.7%float 1.2%float)
        = Ok (uniformField mesh (0.3 * 1000 + 0.7 * 1.2)%float)
        /\ (0.3 * 1000 + 0.7 * 1.2)%float = 300.84%float).
Proof.
  assert (Hgeneral :
            forall (scalar : Type) (ops : Scalar scalar)
              (sys : phaseSystem.t scalar),
              validPointers sys (phaseSystem.movingPhaseModels_ sys) ->
              phaseSystem.movingPhaseModels_ sys <> [] ->
              phaseSystem.stationaryPhaseModels_ sys = [] ->
              phaseSystem.rho sys = Ok (weightedRho sys)).
  { intros scalar ops sys Hvalid Hmoving Hstationary.
    rewrite (rho_cases Hvalid), Hstationary.
    destruct (movingPhases sys) eqn:Hphases; [|reflexivity].
    exfalso. apply Hmoving. apply (movingPhases_nil Hvalid). exact Hphases. }
  split; [|split; [|split]].
  - intros scalar ops sys Hvalid Hmoving Hstationary. split.
    + apply Hgeneral; assumption.
    + intros Hfields cell Hcell. apply weightedRho_at; [exact Hfields| |exact Hcell].
      intros Hnil. apply Hmoving. apply (movingPhases_nil Hvalid). exact Hnil.
  - intros scalar ops interpolate mesh phases phi Hphi Hstationary.
    apply Hgeneral.
    + apply New_validPointers.
    + eapply New_moving_phase; eassumption.
    + exact Hstationary.
  - intros mesh. split.
    + exact (rho_twoMoving mesh (Examples.Qc_of 3 10) (Examples.Qc_of 1000 1)
               (Examples.Qc_of 7 10) (Examples.Qc_of 12 10)).
    + apply Qc_is_canon. reflexivity.
  - intros mesh. split.
    + exact (rho_twoMoving mesh 0.3%float 1000%float 0.7%float 1.2%float).
    + reflexivity.
Qed.

Lemma rho_without_stationary_phases_witness :
  phaseSystem.rho
    (Examples.twoMoving Examples.mesh2
       (Examples.Qc_of 3 10) (Examples.Qc_of 1000 1)
       (Examples.Qc_of 7 10) (Examples.Qc_of 12 10))
  = Ok (weightedRho
          (Examples.twoMoving Examples.mesh2
             (Examples.Qc_of 3 10) (Examples.Qc_of 1000 1)
             (Examples.Qc_of 7 10) (Examples.Qc_of 12 10))).
Proof.
  refine (proj1
            (proj1 rho_without_stationary_phases Qc Scalar_Qc
               (Examples.twoMoving Examples.mesh2
                  (Examples.Qc_of 3 10) (Examples.Qc_of 1000 1)
                  (Examples.Qc_of 7 10) (Examples.Qc_of 12 10))
               _ _ _)).
  - repeat constructor.
  - discriminate.
  - reflexivity.
Defined.

Lemma Qc_undiluted (a r : Qc) :
  sIsZero a = false -> sdiv (smul a r) a = r.
Proof.
  simpl. destruct (Qc_eq_dec a 0%Qc) as [Heq|Hne]; [discriminate|].
  intros _. field. exact Hne.
Qed.

Lemma zipWith_undiluted (alpha rho : volScalarField Qc) :
  List.length alpha = List.length rho ->
  nowhereZero alpha ->
  zipWith sdiv (fmul alpha rho) alpha = rho.
Proof.
  unfold nowhereZero, fmul. revert rho.
  induction alpha as [|a alpha IH]; intros rho Hlen Hnz;
    destruct rho as [|r rho]; simpl in *; try discriminate.
  - reflexivity.
  - inversion_clear Hnz as [|? ? Ha Hrest].
    f_equal.
    + apply Qc_undiluted. exact Ha.
    + apply IH; [lia | exact Hrest].
Qed.

(** C3: in a system with stationary phases [rho()] returns the sum over the
    moving phases of fraction times density divided, cell by cell, by the
    sum of the moving fractions, provided there is a moving phase and that
    sum is nowhere zero. Over the rationals a single moving phase then gets
    its own density back. With one moving phase of fraction 0.6 and density
    1000 and one stationary phase of fraction 0.4 the result is 1000 in
    every cell, over the rationals and in binary64. *)
Theorem rho_with_stationary_phases :
  (forall (scalar : Type) (ops : Scalar scalar) (sys : phaseSystem.t scalar),
     validPointers sys (phaseSystem.movingPhaseModels_ sys) ->
     phaseSystem.movingPhaseModels_ sys <> [] ->
     phaseSystem.stationaryPhaseModels_ sys <> [] ->
     phaseSystem.rho sys = fdivide (weightedRho sys) (sumAlphaMoving sys)
     /\ (fieldsOnMesh sys ->
         nowhereZero (sumAlphaMoving sys) ->
         phaseSystem.rho sys
         = Ok (zipWith sdiv (weightedRho sys) (sumAlphaMoving sys))
         /\ forall cell, cell < nCells (phaseSystem.mesh_ sys) ->
              nth_error (zipWith sdiv (weightedRho sys) (sumAlphaMoving sys))
                cell
              = Some (sdiv (weightedRhoAt sys cell)
                        (sumAlphaMovingAt sys cell))))
  /\ (forall (scalar : Type) (ops : Scalar scalar) (mesh : fvMesh)
        (phases : list (phaseModel.t scalar))
        (phi : surfaceScalarField scalar),
        phaseSystem.movingPhaseModels_ (phaseSystem.New mesh phases phi)
        <> [] ->
        phaseSystem.stationaryPhaseModels_ (phaseSystem.New mesh phases phi)
        <> [] ->
        phaseSystem.rho (phaseSystem.New mesh phases phi)
        = fdivide (weightedRho (phaseSystem.New mesh phases phi))
            (sumAlphaMoving (phaseSystem.New mesh phases phi)))
  /\ (forall (sys : phaseSystem.t Qc) (phase : phaseModel.t Qc),
        movingPhases sys = [phase] ->
        validPointers sys (phaseSystem.movingPhaseModels_ sys) ->
        phaseSystem.stationaryPhaseModels_ sys <> [] ->
        List.length (phaseModel.alpha phase)
        = List.length (phaseModel.rho phase) ->
        nowhereZero (phaseModel.alpha phase) ->
        phaseSystem.rho sys = Ok (phaseModel.rho phase))
  /\ (forall (mesh : fvMesh) (r' : Qc),
        phaseSystem.rho
          (Examples.movingAndStationary mesh
             (Examples.Qc_of 6 10) (Examples.Qc_of 1000 1)
             (Examples.Qc_of 4 10) r')
        = Ok (uniformField mesh (Examples.Qc_of 1000 1)))
  /\ (forall (mesh : fvMesh) (r' : float),
        phaseSystem.rho
          (Examples.movingAndStationary mesh
             0.6%float 1000%float 0.4%float r')
        = Ok (uniformField mesh 1000%float)).
Proof.
  assert (Hgeneral :
            forall (scalar : Type) (ops : Scalar scalar)
              (sys : phaseSystem.t scalar),
              validPointers sys (phaseSystem.movingPhaseModels_ sys) ->
              phaseSystem.movingPhaseModels_ sys <> [] ->
              phaseSystem.stationaryPhaseModels_ sys <> [] ->
              phaseSystem.rho sys
              = fdivide (weightedRho sys) (sumAlphaMoving sys)).
  { intros scalar ops sys Hvalid Hmoving Hstationary.
    rewrite (rho_cases Hvalid).
    destruct (movingPhases sys) eqn:Hphases.
    - exfalso. apply Hmoving. apply (movingPhases_nil Hvalid). exact Hphases.
    - destruct (phaseSystem.stationaryPhaseModels_ sys);
        [contradiction | reflexivity]. }
  split; [|split; [|split; [|split]]].
  - intros scalar ops sys Hvalid Hmoving Hstationary.
    assert (Hne : movingPhases sys <> []).
    { intros Hnil. apply Hmoving. apply (movingPhases_nil Hvalid). exact Hnil. }
    pose proof (Hgeneral scalar ops sys Hvalid Hmoving Hstationary) as Hrho.
    split; [exact Hrho|].
    intros Hfields Hnz.
    pose proof (weightedRho_length Hfields Hne) as Hlr.
    pose proof (sumAlphaMoving_length Hfields Hne) as Hls.
    split.
    + rewrite Hrho. apply fdivide_cases; [lia | exact Hnz].
    + intros cell Hcell. apply zipWith_nth_error.
      * apply weightedRho_at; assumption.
      * apply sumAlphaMoving_at; assumption.
  - intros scalar ops mesh phases phi Hmoving Hstationary.
    apply Hgeneral; [apply New_validPointers | exact Hmoving
                    | exact Hstationary].
  - intros sys phase Hphase Hvalid Hstationary Hlen Hnz.
    rewrite (rho_cases Hvalid).
    unfold weightedRho, sumAlphaMoving. rewrite Hphase. simpl.
    destruct (phaseSystem.stationaryPhaseModels_ sys); [contradiction|].
    replace (fdivide (fmul (phaseModel.alpha phase) (phaseModel.rho phase))
               (phaseModel.alpha phase))
      with (Ok (zipWith sdiv
                  (fmul (phaseModel.alpha phase) (phaseModel.rho phase))
                  (phaseModel.alpha phase))).
    + rewrite zipWith_undiluted by assumption. reflexivity.
    + symmetry. apply fdivide_cases; [|exact Hnz].
      unfold fmul. apply zipWith_length; [reflexivity | symmetry; exact Hlen].
  - intros mesh r'. rewrite rho_movingAndStationary by reflexivity.
    do 2 f_equal. apply Qc_is_canon. reflexivity.
  - intros mesh r'. rewrite rho_movingAndStationary by reflexivity.
    reflexivity.
Qed.

Lemma rho_with_stationary_phases_witness :
  phaseSystem.rho
    (Examples.movingAndStationary Examples.mesh2
       (Examples.Qc_of 6 10) (Examples.Qc_of 1000 1)
       (Examples.Qc_of 4 10) (Examples.Qc_of 2500 1))
  = Ok (zipWith sdiv
          (weightedRho
             (Examples.movingAndStationary Examples.mesh2
                (Examples.Qc_of 6 10) (Examples.Qc_of 1000 1)
                (Examples.Qc_of 4 10) (Examples.Qc_of 2500 1)))
          (sumAlphaMoving
             (Examples.movingAndStationary Examples.mesh2
                (Examples.Qc_of 6 10) (Examples.Qc_of 1000 1)
                (Examples.Qc_of 4 10) (Examples.Qc_of 2500 1)))).
Proof.
  refine (proj1
            (proj2
               (proj1 rho_with_stationary_phases Qc Scalar_Qc
                  (Examples.movingAndStationary Examples.mesh2
                     (Examples.Qc_of 6 10) (Examples.Qc_of 1000 1)
                     (Examples.Qc_of 4 10) (Examples.Qc_of 2500 1))
                  _ _ _)
               _ _)).
  - repeat constructor.
  - discriminate.
  - discriminate.
  - repeat constructor.
  - repeat constructor.
Defined.

(** ** When the mixture queries return *)

Section Preconditions.
Context {scalar : Type} `{Scalar scalar}.
Variable sys : phaseSystem.t scalar.
Hypothesis Hvalid : validPointers sys (phaseSystem.movingPhaseModels_ sys).
Hypothesis Hfields : fieldsOnMesh sys.

Lemma rho_returns :
  isOk (phaseSystem.rho sys) = true
  <-> phaseSystem.movingPhaseModels_ sys <> []
      /\ (phaseSystem.stationaryPhaseModels_ sys <> [] ->
          nowhereZero (sumAlphaMoving sys)).
Proof.
  rewrite (rho_cases Hvalid).
  pose proof (movingPhases_nil Hvalid) as Hnil.
  pose proof (weightedRho_length Hfields) as Hlr.
  pose proof (sumAlphaMoving_length Hfields) as Hls.
  destruct (movingPhases sys) as [|phase0 rest].
  - simpl. split; [discriminate|].
    intros [Hne _]. exfalso. apply Hne. apply Hnil. reflexivity.
  - assert (Hne : phaseSystem.movingPhaseModels_ sys <> []).
    { intros Heq. apply Hnil in Heq. discriminate. }
    destruct (phaseSystem.stationaryPhaseModels_ sys) as [|s0 srest].
    + simpl. split; [|reflexivity].
      intros _. split; [exact Hne|]. intros Hcontra. contradiction.
    + destruct (fdivide_cases (weightedRho sys) (sumAlphaMoving sys))
        as [Hok Hfail].
      { rewrite Hlr, Hls by discriminate. reflexivity. }
      split.
      * intros Hisok. split; [exact Hne|]. intros _.
        rewrite nowhereZero_forallb.
        destruct (forallb (fun x => negb (sIsZero x)) (sumAlphaMoving sys))
          eqn:E; [reflexivity|].
        rewrite Hfail in Hisok; [discriminate|].
        rewrite nowhereZero_forallb, E. discriminate.
      * intros [_ Hnz]. rewrite Hok; [reflexivity|].
        apply Hnz. discriminate.
Qed.

Lemma U_returns :
  isOk (phaseSystem.U sys) = true
  <-> phaseSystem.movingPhaseModels_ sys <> []
      /\ (phaseSystem.stationaryPhaseModels_ sys <> [] ->
          nowhereZero (sumAlphaMoving sys)).
Proof.
  rewrite (U_cases Hvalid).
  pose proof (movingPhases_nil Hvalid) as Hnil.
  pose proof (weightedU_length Hfields) as Hlu.
  pose proof (sumAlphaMoving_length Hfields) as Hls.
  destruct (movingPhases sys) as [|phase0 rest].
  - simpl. split; [discriminate|].
    intros [Hne _]. exfalso. apply Hne. apply Hnil. reflexivity.
  - assert (Hne : phaseSystem.movingPhaseModels_ sys <> []).
    { intros Heq. apply Hnil in Heq. discriminate. }
    destruct (phaseSystem.stationaryPhaseModels_ sys) as [|s0 srest].
    + simpl. split; [|reflexivity].
      intros _. split; [exact Hne|]. intros Hcontra. contradiction.
    + destruct (fvdivide_cases (weightedU sys) (sumAlphaMoving sys))
        as [Hok Hfail].
      { rewrite Hlu, Hls by discriminate. reflexivity. }
      split.
      * intros Hisok. split; [exact Hne|]. intros _.
        rewrite nowhereZero_forallb.
        destruct (forallb (fun x => negb (sIsZero x)) (sumAlphaMoving sys))
          eqn:E; [reflexivity|].
        rewrite Hfail in Hisok; [discriminate|].
        rewrite nowhereZero_forallb, E. discriminate.
      * intros [_ Hnz]. rewrite Hok; [reflexivity|].
        apply Hnz. discriminate.
Qed.

Lemma mixture_divides_by_zero :
  phaseSystem.movingPhaseModels_ sys <> [] ->
  phaseSystem.stationaryPhaseModels_ sys <> [] ->
  ~ nowhereZero (sumAlphaMoving sys) ->
  phaseSystem.rho sys = Fatal FloatingPointException
  /\ phaseSystem.U sys = Fatal FloatingPointException.
Proof.
  intros Hmoving Hstationary Hzero.
  rewrite (rho_cases Hvalid), (U_cases Hvalid).
  pose proof (movingPhases_nil Hvalid) as Hnil.
  pose proof (weightedRho_length Hfields) as Hlr.
  pose proof (weightedU_length Hfields) as Hlu.
  pose proof (sumAlphaMoving_length Hfields) as Hls.
  destruct (movingPhases sys) as [|phase0 rest].
  - exfalso. apply Hmoving. apply Hnil. reflexivity.
  - destruct (phaseSystem.stationaryPhaseModels_ sys) as [|s0 srest];
      [contradiction|].
    split.
    + apply fdivide_cases; [|exact Hzero].
      rewrite Hlr, Hls by discriminate. reflexivity.
    + apply fvdivide_cases; [|exact Hzero].
      rewrite Hlu, Hls by discriminate. reflexivity.
Qed.
End Preconditions.

Lemma mixture_without_moving_phase {scalar : Type} `{Scalar scalar}
    (sys : phaseSystem.t scalar) :
  phaseSystem.movingPhaseModels_ sys = [] ->
  phaseSystem.rho sys = Fatal IndexOutOfRange
  /\ phaseSystem.U sys = Fatal IndexOutOfRange.
Proof.
  intros Hempty. unfold phaseSystem.rho, phaseSystem.U, phaseSystem.viewAt.
  rewrite Hempty. split; reflexivity.
Qed.

(** C7: [rho()] and [U()] read the first moving phase and, when there are
    stationary phases, divide by the sum of the moving fractions, unguarded.
    They return exactly when there is a moving phase and, if there are
    stationary phases, that sum is nowhere zero; without a moving phase they
    end in the index error of the list, and with a zero of the sum in the
    floating point exception of the division. *)
Theorem mixture_queries_preconditions {scalar : Type} `{Scalar scalar}
    (sys : phaseSystem.t scalar)
    (Hvalid : validPointers sys (phaseSystem.movingPhaseModels_ sys))
    (Hfields : fieldsOnMesh sys) :
  (isOk (phaseSystem.rho sys) = true
   <-> phaseSystem.movingPhaseModels_ sys <> []
       /\ (phaseSystem.stationaryPhaseModels_ sys <> [] ->
           nowhereZero (sumAlphaMoving sys)))
  /\ (isOk (phaseSystem.U sys) = true
      <-> phaseSystem.movingPhaseModels_ sys <> []
          /\ (phaseSystem.stationaryPhaseModels_ sys <> [] ->
              nowhereZero (sumAlphaMoving sys)))
  /\ (phaseSystem.movingPhaseModels_ sys = [] ->
      phaseSystem.rho sys = Fatal IndexOutOfRange
      /\ phaseSystem.U sys = Fatal IndexOutOfRange)
  /\ (phaseSystem.movingPhaseModels_ sys <> [] ->
      phaseSystem.stationaryPhaseModels_ sys <> [] ->
      ~ nowhereZero (sumAlphaMoving sys) ->
      phaseSystem.rho sys = Fatal FloatingPointException
      /\ phaseSystem.U sys = Fatal FloatingPointException).
Proof.
  split; [|split; [|split]].
  - apply rho_returns; assumption.
  - apply U_returns; assumption.
  - apply mixture_without_moving_phase.
  - apply mixture_divides_by_zero; assumption.
Qed.

Lemma mixture_queries_preconditions_witness :
  (phaseSystem.rho
     (Examples.stationaryOnly Examples.mesh2
        (Examples.Qc_of 1 1) (Examples.Qc_of 2500 1))
   = Fatal IndexOutOfRange
   /\ phaseSystem.U
        (Examples.stationaryOnly Examples.mesh2
           (Examples.Qc_of 1 1) (Examples.Qc_of 2500 1))
      = Fatal IndexOutOfRange).
Proof.
  refine (proj1
            (proj2
               (proj2
                  (mixture_queries_preconditions
                     (sys := Examples.stationaryOnly Examples.mesh2
                               (Examples.Qc_of 1 1) (Examples.Qc_of 2500 1))
                     _ _)))
            _).
  - constructor.
  - repeat constructor.
  - reflexivity.
Defined.

(** A moving phase whose fraction is zero next to a stationary phase: the
    renormalisation divides by zero in every cell. *)
Example mixture_zero_moving_fraction :
  phaseSystem.rho
    (Examples.movingAndStationary Examples.mesh2
       (Examples.Qc_of 0 1) (Examples.Qc_of 1000 1)
       (Examples.Qc_of 1 1) (Examples.Qc_of 2500 1))
  = Fatal FloatingPointException
  /\ phaseSystem.U
       (Examples.movingAndStationary Examples.mesh2
          (Examples.Qc_of 0 1) (Examples.Qc_of 1000 1)
          (Examples.Qc_of 1 1) (Examples.Qc_of 2500 1))
     = Fatal FloatingPointException
  /\ phaseSystem.rho
       (Examples.movingAndStationary Examples.mesh2
          0%float 1000%float 1%float 2500%float)
     = Fatal FloatingPointException.
Proof. repeat split. Qed.

(** ** Pair keys *)

Lemma phasePairKey_eqb_spec (a b : phasePairKey.t) :
  phasePairKey.eqb a b = true
  <-> phasePairKey.ordered a = phasePairKey.ordered b
      /\ ((phasePairKey.first a = phasePairKey.first b
           /\ phasePairKey.second a = phasePairKey.second b)
          \/ (phasePairKey.ordered a = false
              /\ phasePairKey.first a = phasePairKey.second b
              /\ phasePairKey.second a = phasePairKey.first b)).
Proof.
  unfold phasePairKey.eqb.
  rewrite andb_true_iff, orb_true_iff, !andb_true_iff, negb_true_iff,
    !String.eqb_eq.
  split.
  - intros [Ho Hc]. split.
    + apply Bool.eqb_prop. exact Ho.
    + destruct Hc as [Hsame|[[Hu Hf] Hs]]; [left; exact Hsame|].
      right. repeat split; assumption.
  - intros [Ho Hc]. split.
    + rewrite Ho. apply Bool.eqb_reflx.
    + destruct Hc as [Hsame|[Hu [Hf Hs]]]; [left; exact Hsame|].
      right. repeat split; assumption.
Qed.

Lemma phasePairKey_eqb_refl (a : phasePairKey.t) : phasePairKey.eqb a a = true.
Proof.
  apply phasePairKey_eqb_spec. split; [reflexivity|].
  left. split; reflexivity.
Qed.

Lemma phasePairKey_eqb_sym (a b : phasePairKey.t) :
  phasePairKey.eqb a b = true -> phasePairKey.eqb b a = true.
Proof.
  rewrite !phasePairKey_eqb_spec.
  intros [Ho [[Hf Hs]|[Hu [Hf Hs]]]].
  - split; [symmetry; exact Ho|]. left. split; symmetry; assumption.
  - split; [symmetry; exact Ho|]. right.
    repeat split; [rewrite <- Ho; exact Hu | symmetry; exact Hs
                  | symmetry; exact Hf].
Qed.

Lemma phasePairKey_eqb_trans (a b c : phasePairKey.t) :
  phasePairKey.eqb a b = true -> phasePairKey.eqb b c = true ->
  phasePairKey.eqb a c = true.
Proof.
  rewrite !phasePairKey_eqb_spec.
  intros [Ho1 H1] [Ho2 H2].
  split; [rewrite Ho1; exact Ho2|].
  destruct H1 as [[Hf1 Hs1]|[Hu1 [Hf1 Hs1]]];
    destruct H2 as [[Hf2 Hs2]|[Hu2 [Hf2 Hs2]]].
  - left. split; [rewrite Hf1; exact Hf2 | rewrite Hs1; exact Hs2].
  - right. repeat split;
      [rewrite Ho1; exact Hu2 | rewrite Hf1; exact Hf2
      | rewrite Hs1; exact Hs2].
  - right. repeat split;
      [exact Hu1 | rewrite Hf1; exact Hs2 | rewrite Hs1; exact Hf2].
  - left. split; [rewrite Hf1; exact Hs2 | rewrite Hs1; exact Hf2].
Qed.

(** Equal keys are interchangeable in comparisons. *)
Lemma phasePairKey_eqb_compat (k a b : phasePairKey.t) :
  phasePairKey.eqb a b = true ->
  phasePairKey.eqb k a = phasePairKey.eqb k b.
Proof.
  intros Hab.
  destruct (phasePairKey.eqb k a) eqn:Ea, (phasePairKey.eqb k b) eqn:Eb;
    try reflexivity.
  - rewrite (phasePairKey_eqb_trans k a b Ea Hab) in Eb. discriminate.
  - rewrite (phasePairKey_eqb_trans k b a Eb (phasePairKey_eqb_sym a b Hab))
      in Ea.
    discriminate.
Qed.

Lemma find_eqb_compat {V : Type} (tbl : HashTable.t V) (a b : phasePairKey.t) :
  phasePairKey.eqb a b = true ->
  HashTable.find tbl a = HashTable.find tbl b.
Proof.
  intros Hab. induction tbl as [|[k v] rest IH]; simpl.
  - reflexivity.
  - rewrite (phasePairKey_eqb_compat k a b Hab), IH. reflexivity.
Qed.

Lemma unordered_key_symmetric (a b : word) :
  phasePairKey.eqb
    {| phasePairKey.first := a; phasePairKey.second := b;
       phasePairKey.ordered := false |}
    {| phasePairKey.first := b; phasePairKey.second := a;
       phasePairKey.ordered := false |}
  = true.
Proof.
  apply phasePairKey_eqb_spec. simpl. split; [reflexivity|].
  right. repeat split.
Qed.

(** ** The table of pairs *)

Lemma find_app {V : Type} (tbl more : HashTable.t V) (k : phasePairKey.t) :
  HashTable.find (tbl ++ more) k
  = match HashTable.find tbl k with
    | Some v => Some v
    | None => HashTable.find more k
    end.
Proof.
  induction tbl as [|[k' v'] rest IH]; simpl.
  - reflexivity.
  - destruct (phasePairKey.eqb k' k); [reflexivity | exact IH].
Qed.

Lemma distinctKeys_app {V : Type} (tbl : HashTable.t V) (k : phasePairKey.t)
    (v : V) :
  distinctKeys tbl -> HashTable.find tbl k = None ->
  distinctKeys (tbl ++ [(k, v)]).
Proof.
  induction tbl as [|[k' v'] rest IH]; simpl.
  - intros _ _. split; [constructor | exact I].
  - intros [Hfresh Hrest] Hnone.
    destruct (phasePairKey.eqb k' k) eqn:E; [discriminate|].
    split.
    + apply Forall_app. split; [exact Hfresh|].
      constructor; [exact E | constructor].
    + apply IH; assumption.
Qed.

(** ** generatePairs *)

Section GeneratePairs.
Context {scalar : Type} `{Scalar scalar}.

Lemma generatePair_found (key : phasePairKey.t) (sys : phaseSystem.t scalar) :
  HashTable.found (phaseSystem.phasePairs_ sys) key = true ->
  phaseSystem.generatePair key sys = Ok sys.
Proof.
  intros Hfound. unfold phaseSystem.generatePair. rewrite Hfound. reflexivity.
Qed.

Lemma generatePair_cases (key : phasePairKey.t)
    (sys sys' : phaseSystem.t scalar) :
  phaseSystem.generatePair key sys = Ok sys' ->
  (HashTable.found (phaseSystem.phasePairs_ sys) key = true /\ sys' = sys)
  \/ (HashTable.found (phaseSystem.phasePairs_ sys) key = false
      /\ exists phase1 phase2,
           lookupPhase (phaseSystem.phaseModels_ sys) (phasePairKey.first key)
           = Ok phase1
           /\ lookupPhase (phaseSystem.phaseModels_ sys)
                (phasePairKey.second key)
              = Ok phase2
           /\ sys'
              = phaseSystem.setPhasePairs sys
                  (phaseSystem.phasePairs_ sys
                     ++ [(key, List.length (phaseSystem.pairStore sys))])
                  (phaseSystem.pairStore sys
                     ++ [phasePair.New (phaseSystem.phaseModels_ sys)
                           phase1 phase2 (phasePairKey.ordered key)])).
Proof.
  unfold phaseSystem.generatePair, HashTable.insert.
  destruct (HashTable.found (phaseSystem.phasePairs_ sys) key) eqn:Hfound.
  - intros Hok. inversion Hok. left. split; reflexivity.
  - intros Hok. right. split; [reflexivity|].
    destruct (lookupPhase (phaseSystem.phaseModels_ sys)
                (phasePairKey.first key)) as [phase1|e1];
      [|destruct (phasePairKey.ordered key); discriminate].
    destruct (lookupPhase (phaseSystem.phaseModels_ sys)
                (phasePairKey.second key)) as [phase2|e2];
      [|destruct (phasePairKey.ordered key); discriminate].
    exists phase1, phase2. split; [reflexivity|]. split; [reflexivity|].
    destruct (phasePairKey.ordered key); simpl in Hok; inversion Hok;
      reflexivity.
Qed.

Lemma found_find {V : Type} (tbl : HashTable.t V) (k : phasePairKey.t) :
  HashTable.found tbl k = false <-> HashTable.find tbl k = None.
Proof.
  unfold HashTable.found. destruct (HashTable.find tbl k); split;
    intros Heq; try reflexivity; discriminate.
Qed.

(** A request leaves every registered pointer and every pair of the store
    as it was, and leaves its own key registered. *)
Lemma generatePair_stable (key : phasePairKey.t)
    (sys sys' : phaseSystem.t scalar) :
  phaseSystem.generatePair key sys = Ok sys' ->
  (forall k ptr,
     HashTable.find (phaseSystem.phasePairs_ sys) k = Some ptr ->
     HashTable.find (phaseSystem.phasePairs_ sys') k = Some ptr)
  /\ (forall ptr pair,
        nth_error (phaseSystem.pairStore sys) ptr = Some pair ->
        nth_error (phaseSystem.pairStore sys') ptr = Some pair)
  /\ HashTable.found (phaseSystem.phasePairs_ sys') key = true
  /\ phaseSystem.phaseModels_ sys' = phaseSystem.phaseModels_ sys.
Proof.
  intros Hok.
  destruct (generatePair_cases key sys Hok)
    as [[Hfound Heq]|[Hnew [phase1 [phase2 [_ [_ Heq]]]]]]; subst sys'.
  - repeat split; auto.
  - simpl. repeat split.
    + intros k ptr Hfind. rewrite find_app, Hfind. reflexivity.
    + intros ptr pair Hnth. rewrite nth_error_app1; [exact Hnth|].
      apply nth_error_Some. rewrite Hnth. discriminate.
    + apply found_find in Hnew. unfold HashTable.found.
      rewrite find_app, Hnew. simpl.
      rewrite phasePairKey_eqb_refl. reflexivity.
Qed.

Lemma generatePair_onePairPerKey (key : phasePairKey.t)
    (sys sys' : phaseSystem.t scalar) :
  phaseSystem.generatePair key sys = Ok sys' ->
  onePairPerKey sys -> onePairPerKey sys'.
Proof.
  intros Hok [Hdistinct [Hnodup [Hbound Hlen]]].
  destruct (generatePair_cases key sys Hok)
    as [[Hfound Heq]|[Hnew [phase1 [phase2 [_ [_ Heq]]]]]]; subst sys'.
  - repeat split; assumption.
  - apply found_find in Hnew.
    unfold onePairPerKey, pairsOwned. simpl.
    rewrite map_app, !length_app. simpl.
    split; [|split; [|split]].
    + apply distinctKeys_app; assumption.
    + apply NoDup_app.
      * exact Hnodup.
      * constructor; [intros []|constructor].
      * intros ptr Hin [Heq|[]]. subst ptr.
        apply in_map_iff in Hin. destruct Hin as [e [Hsnd Hin]].
        rewrite Forall_forall in Hbound. specialize (Hbound e Hin).
        simpl in Hbound. unfold address in *. lia.
    + apply Forall_app. split.
      * eapply Forall_impl; [|exact Hbound]. simpl. intros e He. lia.
      * constructor; [simpl; lia | constructor].
    + rewrite Hlen. reflexivity.
Qed.

Lemma generatePairs_stable {dictionary : Type}
    (modelDicts : HashTable.t dictionary) :
  forall sys sys' : phaseSystem.t scalar,
    phaseSystem.generatePairs modelDicts sys = Ok sys' ->
    (forall k ptr,
       HashTable.find (phaseSystem.phasePairs_ sys) k = Some ptr ->
       HashTable.find (phaseSystem.phasePairs_ sys') k = Some ptr)
    /\ (forall ptr pair,
          nth_error (phaseSystem.pairStore sys) ptr = Some pair ->
          nth_error (phaseSystem.pairStore sys') ptr = Some pair)
    /\ Forall
         (fun e => HashTable.found (phaseSystem.phasePairs_ sys') (fst e) = true)
         modelDicts
    /\ phaseSystem.phaseModels_ sys' = phaseSystem.phaseModels_ sys.
Proof.
  induction modelDicts as [|[key dict] rest IH]; intros sys sys' Hok.
  - simpl in Hok. inversion Hok. subst sys'. repeat split; auto.
  - simpl in Hok. apply bind_Ok in Hok. destruct Hok as [mid [Hstep Hrest]].
    destruct (generatePair_stable key sys Hstep) as [Hk1 [Hs1 [Hf1 Hp1]]].
    destruct (IH mid sys' Hrest) as [Hk2 [Hs2 [Hf2 Hp2]]].
    repeat split.
    + intros k ptr Hfind. apply Hk2, Hk1. exact Hfind.
    + intros ptr pair Hnth. apply Hs2, Hs1. exact Hnth.
    + constructor; [|exact Hf2]. simpl.
      unfold HashTable.found in *.
      destruct (HashTable.find (phaseSystem.phasePairs_ mid) key) as [ptr|]
        eqn:E; [|discriminate].
      rewrite (Hk2 key ptr E). reflexivity.
    + rewrite Hp2. exact Hp1.
Qed.

Lemma generatePairs_all_found {dictionary : Type}
    (modelDicts : HashTable.t dictionary) (sys : phaseSystem.t scalar) :
  Forall (fun e => HashTable.found (phaseSystem.phasePairs_ sys) (fst e) = true)
    modelDicts ->
  phaseSystem.generatePairs modelDicts sys = Ok sys.
Proof.
  induction modelDicts as [|[key dict] rest IH]; intros Hall.
  - reflexivity.
  - inversion_clear Hall as [|? ? Hkey Hrest]. simpl in *.
    rewrite generatePair_found by exact Hkey. simpl.
    apply IH. exact Hrest.
Qed.

Lemma generatePairs_onePairPerKey {dictionary : Type}
    (modelDicts : HashTable.t dictionary) :
  forall sys sys' : phaseSystem.t scalar,
    phaseSystem.generatePairs modelDicts sys = Ok sys' ->
    onePairPerKey sys -> onePairPerKey sys'.
Proof.
  induction modelDicts as [|[key dict] rest IH]; intros sys sys' Hok Hinv.
  - simpl in Hok. inversion Hok. subst sys'. exact Hinv.
  - simpl in Hok. apply bind_Ok in Hok. destruct Hok as [mid [Hstep Hrest]].
    apply (IH mid sys' Hrest).
    eapply generatePair_onePairPerKey; eassumption.
Qed.

Lemma generatePairsCalls_onePairPerKey {dictionary : Type}
    (sections : list (HashTable.t dictionary)) :
  forall sys sys' : phaseSystem.t scalar,
    generatePairsCalls sections sys = Ok sys' ->
    onePairPerKey sys -> onePairPerKey sys'.
Proof.
  induction sections as [|modelDicts rest IH]; intros sys sys' Hok Hinv.
  - simpl in Hok. inversion Hok. subst sys'. exact Hinv.
  - simpl in Hok. apply bind_Ok in Hok. destruct Hok as [mid [Hstep Hrest]].
    apply (IH mid sys' Hrest).
    eapply generatePairs_onePairPerKey; eassumption.
Qed.

Lemma New_onePairPerKey (mesh : fvMesh) (phases : list (phaseModel.t scalar))
    (phi : Field scalar) :
  onePairPerKey (phaseSystem.New mesh phases phi).
Proof.
  unfold phaseSystem.New.
  destruct (phaseSystem.groupingsLoop 0 phases ([], [], [], []))
    as [[[mv st] an] mc].
  unfold onePairPerKey, pairsOwned. simpl.
  repeat split; constructor.
Qed.
End GeneratePairs.

(** C1: a request for a key that has a pair leaves the system as it is (no
    pair is allocated, the registered pair stays); hence a second run of
    [generatePairs] over the same entries changes nothing, every run keeps
    the pointers and pairs registered before it, and after any sequence of
    runs from the constructor on the table has at most one pair per key. The
    unordered keys (a, b) and (b, a) are equal, are looked up to the same
    pair, and a request for one is a request for the other. *)
Theorem generatePairs_idempotent {scalar : Type} `{Scalar scalar} :
  (forall (key : phasePairKey.t) (sys : phaseSystem.t scalar),
     HashTable.found (phaseSystem.phasePairs_ sys) key = true ->
     phaseSystem.generatePair key sys = Ok sys)
  /\ (forall (dictionary : Type) (modelDicts : HashTable.t dictionary)
        (sys sys' : phaseSystem.t scalar),
        phaseSystem.generatePairs modelDicts sys = Ok sys' ->
        phaseSystem.generatePairs modelDicts sys' = Ok sys')
  /\ (forall (dictionary : Type) (modelDicts : HashTable.t dictionary)
        (sys sys' : phaseSystem.t scalar) (key : phasePairKey.t)
        (ptr : address) (pair : phasePair.t),
        phaseSystem.generatePairs modelDicts sys = Ok sys' ->
        HashTable.find (phaseSystem.phasePairs_ sys) key = Some ptr ->
        nth_error (phaseSystem.pairStore sys) ptr = Some pair ->
        HashTable.find (phaseSystem.phasePairs_ sys') key = Some ptr
        /\ nth_error (phaseSystem.pairStore sys') ptr = Some pair)
  /\ (forall (mesh : fvMesh) (phases : list (phaseModel.t scalar))
        (phi : Field scalar),
        onePairPerKey (phaseSystem.New mesh phases phi))
  /\ (forall (dictionary : Type) (modelDicts : HashTable.t dictionary)
        (sys sys' : phaseSystem.t scalar),
        phaseSystem.generatePairs modelDicts sys = Ok sys' ->
        onePairPerKey sys -> onePairPerKey sys')
  /\ (forall a b : word,
        phasePairKey.eqb
          {| phasePairKey.first := a; phasePairKey.second := b;
             phasePairKey.ordered := false |}
          {| phasePairKey.first := b; phasePairKey.second := a;
             phasePairKey.ordered := false |}
        = true)
  /\ (forall (sys : phaseSystem.t scalar) (a b : word),
        HashTable.find (phaseSystem.phasePairs_ sys)
          {| phasePairKey.first := a; phasePairKey.second := b;
             phasePairKey.ordered := false |}
        = HashTable.find (phaseSystem.phasePairs_ sys)
            {| phasePairKey.first := b; phasePairKey.second := a;
               phasePairKey.ordered := false |})
  /\ (forall (sys : phaseSystem.t scalar) (a b : word),
        HashTable.found (phaseSystem.phasePairs_ sys)
          {| phasePairKey.first := a; phasePairKey.second := b;
             phasePairKey.ordered := false |}
        = true ->
        phaseSystem.generatePair
          {| phasePairKey.first := b; phasePairKey.second := a;
             phasePairKey.ordered := false |}
          sys
        = Ok sys)
  /\ (forall (dictionary : Type) (sections : list (HashTable.t dictionary))
        (mesh : fvMesh) (phases : list (phaseModel.t scalar))
        (phi : surfaceScalarField scalar) (sys' : phaseSystem.t scalar),
        generatePairsCalls sections (phaseSystem.New mesh phases phi)
        = Ok sys' ->
        onePairPerKey sys').
Proof.
  split; [|split; [|split; [|split; [|split; [|split; [|split; [|split]]]]]]].
  - intros key sys Hfound. apply generatePair_found. exact Hfound.
  - intros dictionary modelDicts sys sys' Hok.
    apply generatePairs_all_found.
    apply (generatePairs_stable modelDicts sys Hok).
  - intros dictionary modelDicts sys sys' key ptr pair Hok Hfind Hnth.
    destruct (generatePairs_stable modelDicts sys Hok) as [Hk [Hs _]].
    split; [apply Hk; exact Hfind | apply Hs; exact Hnth].
  - intros mesh phases phi. apply New_onePairPerKey.
  - intros dictionary modelDicts sys sys' Hok Hinv.
    eapply generatePairs_onePairPerKey; eassumption.
  - intros a b. apply unordered_key_symmetric.
  - intros sys a b. apply find_eqb_compat. apply unordered_key_symmetric.
  - intros sys a b Hfound. apply generatePair_found.
    unfold HashTable.found in *.
    rewrite (@find_eqb_compat _ (phaseSystem.phasePairs_ sys) _ _
               (unordered_key_symmetric b a)).
    exact Hfound.
  - intros dictionary sections mesh phases phi sys' Hok.
    eapply generatePairsCalls_onePairPerKey; [exact Hok|].
    apply New_onePairPerKey.
Qed.

Lemma generatePairs_idempotent_witness :
  exists sys' : phaseSystem.t Qc,
    phaseSystem.generatePairs Examples.surfaceTensionDicts
      Examples.waterWithAir
    = Ok sys'
    /\ phaseSystem.generatePairs Examples.surfaceTensionDicts sys' = Ok sys'
    /\ phaseSystem.generatePairs Examples.aspectRatioDicts sys' = Ok sys'
    /\ List.length (phaseSystem.pairStore sys') = 2.
Proof.
  eexists. split; [reflexivity|]. split; [|split].
  - refine (proj1 (proj2 generatePairs_idempotent) unit
              Examples.surfaceTensionDicts Examples.waterWithAir _ _).
    reflexivity.
  - reflexivity.
  - reflexivity.
Defined.

(** ** correctKinematics *)

Section Kinematics.
Context {scalar : Type}.
Variable hook : phaseModel.t scalar -> phaseModel.t scalar.
Variable ddt : volScalarField scalar -> volScalarField scalar.

Lemma correctKinematicsLoop_spec (phases : list (phaseModel.t scalar)) :
  forall (phasei : label) (updateDpdt : bool),
    phaseSystem.correctKinematicsLoop hook phasei phases updateDpdt
    = (map hook phases,
       updateDpdt || requestsDpdt (map hook phases),
       map (@phaseSystem.phaseModel_correctKinematics scalar)
         (seq phasei (List.length phases))).
Proof.
  induction phases as [|phase rest IH]; intros phasei updateDpdt; simpl.
  - rewrite orb_false_r. reflexivity.
  - rewrite IH. rewrite orb_assoc. reflexivity.
Qed.

Lemma correctKinematics_spec (sys : phaseSystem.t scalar) :
  phaseSystem.correctKinematics hook ddt sys
  = if requestsDpdt (map hook (phaseSystem.phaseModels_ sys)) then
      match map hook (phaseSystem.phaseModels_ sys) with
      | first :: _ =>
          (phaseSystem.setDpdt
             (phaseSystem.setPhaseModels sys
                (map hook (phaseSystem.phaseModels_ sys)))
             (ddt (phaseModel.p (phaseModel.thermo first))),
           kinematicsCalls (List.length (phaseSystem.phaseModels_ sys))
             ++ [phaseSystem.fvc_ddt (phaseModel.p (phaseModel.thermo first))])
      | [] =>
          (phaseSystem.setPhaseModels sys [],
           kinematicsCalls (List.length (phaseSystem.phaseModels_ sys)))
      end
    else
      (phaseSystem.setPhaseModels sys
         (map hook (phaseSystem.phaseModels_ sys)),
       kinematicsCalls (List.length (phaseSystem.phaseModels_ sys))).
Proof.
  unfold phaseSystem.correctKinematics.
  rewrite correctKinematicsLoop_spec. simpl.
  destruct (requestsDpdt (map hook (phaseSystem.phaseModels_ sys)));
    [|reflexivity].
  destruct (map hook (phaseSystem.phaseModels_ sys)); reflexivity.
Qed.

Lemma ddtCalls_kinematicsCalls (n : nat) :
  ddtCalls (@kinematicsCalls scalar n) = 0.
Proof.
  unfold kinematicsCalls.
  assert (Hany : forall start,
             ddtCalls
               (map (@phaseSystem.phaseModel_correctKinematics scalar)
                  (seq start n))
             = 0).
  { induction n as [|n IH]; intros start; simpl; [reflexivity | apply IH]. }
  apply Hany.
Qed.

Lemma ddtCalls_app (calls more : list (phaseSystem.call scalar)) :
  ddtCalls (calls ++ more) = ddtCalls calls + ddtCalls more.
Proof.
  induction calls as [|c calls IH]; simpl; [reflexivity|].
  destruct c; simpl; rewrite IH; reflexivity.
Qed.

Lemma requestsDpdt_true (phases : list (phaseModel.t scalar)) :
  requestsDpdt phases = true
  <-> exists phase,
        In phase phases /\ phaseModel.dpdt (phaseModel.thermo phase) = true.
Proof. unfold requestsDpdt. apply existsb_exists. Qed.

Lemma requestsDpdt_false (phases : list (phaseModel.t scalar)) :
  requestsDpdt phases = false
  <-> forall phase,
        In phase phases -> phaseModel.dpdt (phaseModel.thermo phase) = false.
Proof.
  unfold requestsDpdt. induction phases as [|phase rest IH]; simpl.
  - split; [intros _ ph [] | reflexivity].
  - rewrite orb_false_iff, IH. split.
    + intros [Hp Hrest] ph [Heq|Hin]; [subst ph; exact Hp | apply Hrest, Hin].
    + intros Hall. split; [apply Hall; left; reflexivity|].
      intros ph Hin. apply Hall. right. exact Hin.
Qed.
End Kinematics.

(** C5, as the code has it: [correctKinematics] calls the kinematics hook of
    every phase in the order of the phase list; it evaluates [fvc::ddt] once,
    on the pressure of the first phase, and assigns the result to [dpdt],
    when some phase of the list, isothermal or not, asks for the pressure
    time-derivative once its hook has run, and not at all otherwise. *)
Theorem correctKinematics_updates_dpdt_once {scalar : Type}
    (hook : phaseModel.t scalar -> phaseModel.t scalar)
    (ddt : volScalarField scalar -> volScalarField scalar)
    (sys : phaseSystem.t scalar) :
  phaseSystem.phaseModels_ (fst (phaseSystem.correctKinematics hook ddt sys))
  = map hook (phaseSystem.phaseModels_ sys)
  /\ ((exists phase,
         In phase (map hook (phaseSystem.phaseModels_ sys))
         /\ phaseModel.dpdt (phaseModel.thermo phase) = true) ->
      exists first rest,
        map hook (phaseSystem.phaseModels_ sys) = first :: rest
        /\ phaseSystem.dpdt_ (fst (phaseSystem.correctKinematics hook ddt sys))
           = ddt (phaseModel.p (phaseModel.thermo first))
        /\ snd (phaseSystem.correctKinematics hook ddt sys)
           = kinematicsCalls (List.length (phaseSystem.phaseModels_ sys))
               ++ [phaseSystem.fvc_ddt
                     (phaseModel.p (phaseModel.thermo first))])
  /\ (~ (exists phase,
           In phase (map hook (phaseSystem.phaseModels_ sys))
           /\ phaseModel.dpdt (phaseModel.thermo phase) = true) ->
      phaseSystem.dpdt_ (fst (phaseSystem.correctKinematics hook ddt sys))
      = phaseSystem.dpdt_ sys
      /\ snd (phaseSystem.correctKinematics hook ddt sys)
         = kinematicsCalls (List.length (phaseSystem.phaseModels_ sys)))
  /\ (ddtCalls (snd (phaseSystem.correctKinematics hook ddt sys)) = 1
      <-> exists phase,
            In phase (map hook (phaseSystem.phaseModels_ sys))
            /\ phaseModel.dpdt (phaseModel.thermo phase) = true)
  /\ ddtCalls (snd (phaseSystem.correctKinematics hook ddt sys)) <= 1.
Proof.
  rewrite correctKinematics_spec.
  rewrite <- requestsDpdt_true.
  destruct (requestsDpdt (map hook (phaseSystem.phaseModels_ sys))) eqn:Hreq.
  - destruct (map hook (phaseSystem.phaseModels_ sys)) as [|first rest] eqn:Hmap.
    + simpl in Hreq. discriminate.
    + simpl. rewrite ddtCalls_app, ddtCalls_kinematicsCalls. simpl.
      split; [reflexivity|]. split; [|split; [|split]].
      * intros _. exists first, rest. repeat split.
      * intros Hno. exfalso. apply Hno. reflexivity.
      * split; reflexivity.
      * apply Nat.le_refl.
  - simpl. rewrite ddtCalls_kinematicsCalls.
    split; [reflexivity|]. split; [|split; [|split]].
    + discriminate.
    + intros _. split; reflexivity.
    + split; discriminate.
    + apply Nat.le_0_l.
Qed.

(** C5, as stated, fails: one isothermal phase whose thermo asks for the
    pressure time-derivative. No phase of the anisothermal list asks, and
    [dpdt] is recomputed all the same. *)
Lemma correctKinematics_isothermal_request :
  phaseSystem.anisothermalPhaseModels_
    (fst (phaseSystem.correctKinematics (fun phase => phase) (fun p => p)
            (Examples.isothermalOnly Examples.mesh2
               (Examples.Qc_of 1 1) (Examples.Qc_of 1000 1))))
  = []
  /\ ddtCalls
       (snd (phaseSystem.correctKinematics (fun phase => phase) (fun p => p)
               (Examples.isothermalOnly Examples.mesh2
                  (Examples.Qc_of 1 1) (Examples.Qc_of 1000 1))))
     = 1
  /\ ~ (ddtCalls
          (snd (phaseSystem.correctKinematics (fun phase => phase)
                  (fun p => p)
                  (Examples.isothermalOnly Examples.mesh2
                     (Examples.Qc_of 1 1) (Examples.Qc_of 1000 1))))
        = 1
        <-> exists phase,
              In phase
                (phasesOf
                   (fst (phaseSystem.correctKinematics (fun phase => phase)
                           (fun p => p)
                           (Examples.isothermalOnly Examples.mesh2
                              (Examples.Qc_of 1 1) (Examples.Qc_of 1000 1))))
                   (phaseSystem.anisothermalPhaseModels_
                      (fst (phaseSystem.correctKinematics
                              (fun phase => phase) (fun p => p)
                              (Examples.isothermalOnly Examples.mesh2
                                 (Examples.Qc_of 1 1)
                                 (Examples.Qc_of 1000 1))))))
              /\ phaseModel.dpdt (phaseModel.thermo phase) = true).
Proof.
  split; [reflexivity|]. split; [reflexivity|].
  intros [Hrequested _].
  destruct (Hrequested eq_refl) as [phase [Hin _]].
  exact Hin.
Qed.

(** C10: whatever the phases ask, [correctKinematics] changes nothing of
    the system but the phases (through their hooks) and [dpdt]; when no
    phase asks for the pressure time-derivative (once its hook has run),
    [dpdt] is left as it was, and the hook of every phase has been called,
    in order. A hook that leaves the request of its phase alone makes this
    a condition on the phases before the call. *)
Theorem correctKinematics_frame {scalar : Type}
    (hook : phaseModel.t scalar -> phaseModel.t scalar)
    (ddt : volScalarField scalar -> volScalarField scalar)
    (sys : phaseSystem.t scalar) :
  (exists dpdt,
     fst (phaseSystem.correctKinematics hook ddt sys)
     = phaseSystem.setDpdt
         (phaseSystem.setPhaseModels sys
            (map hook (phaseSystem.phaseModels_ sys)))
         dpdt)
  /\ ((forall phase,
         In phase (phaseSystem.phaseModels_ sys) ->
         phaseModel.dpdt (phaseModel.thermo (hook phase)) = false) ->
      phaseSystem.correctKinematics hook ddt sys
      = (phaseSystem.setPhaseModels sys
           (map hook (phaseSystem.phaseModels_ sys)),
         kinematicsCalls (List.length (phaseSystem.phaseModels_ sys)))
      /\ phaseSystem.dpdt_ (fst (phaseSystem.correctKinematics hook ddt sys))
         = phaseSystem.dpdt_ sys)
  /\ ((forall phase,
         phaseModel.dpdt (phaseModel.thermo (hook phase))
         = phaseModel.dpdt (phaseModel.thermo phase)) ->
      (forall phase,
         In phase (phaseSystem.phaseModels_ sys) ->
         phaseModel.dpdt (phaseModel.thermo phase) = false) ->
      phaseSystem.dpdt_ (fst (phaseSystem.correctKinematics hook ddt sys))
      = phaseSystem.dpdt_ sys
      /\ snd (phaseSystem.correctKinematics hook ddt sys)
         = kinematicsCalls (List.length (phaseSystem.phaseModels_ sys))).
Proof.
  assert (Hquiet :
            (forall phase,
               In phase (phaseSystem.phaseModels_ sys) ->
               phaseModel.dpdt (phaseModel.thermo (hook phase)) = false) ->
            requestsDpdt (map hook (phaseSystem.phaseModels_ sys)) = false).
  { intros Hnone. apply requestsDpdt_false. intros phase Hin.
    apply in_map_iff in Hin. destruct Hin as [before [Heq Hin]]. subst phase.
    apply Hnone. exact Hin. }
  split; [|split].
  - rewrite correctKinematics_spec.
    destruct (requestsDpdt (map hook (phaseSystem.phaseModels_ sys))) eqn:Hreq.
    + destruct (map hook (phaseSystem.phaseModels_ sys)) as [|first rest].
      * simpl in Hreq. discriminate.
      * eexists. reflexivity.
    + exists (phaseSystem.dpdt_ sys). simpl. destruct sys. reflexivity.
  - intros Hnone. rewrite correctKinematics_spec, (Hquiet Hnone).
    split; reflexivity.
  - intros Hkeeps Hnone. rewrite correctKinematics_spec, Hquiet.
    + split; reflexivity.
    + intros phase Hin. rewrite Hkeeps. apply Hnone. exact Hin.
Qed.

Lemma correctKinematics_frame_witness :
  phaseSystem.dpdt_
    (fst (phaseSystem.correctKinematics (fun phase => phase) (fun p => p)
            Examples.waterWithAir))
  = phaseSystem.dpdt_ Examples.waterWithAir
  /\ snd (phaseSystem.correctKinematics (fun phase => phase) (fun p => p)
            Examples.waterWithAir)
     = [phaseSystem.phaseModel_correctKinematics 0;
        phaseSystem.phaseModel_correctKinematics 1].
Proof.
  refine (proj2
            (proj2
               (correctKinematics_frame (fun phase => phase) (fun p => p)
                  Examples.waterWithAir))
            _ _).
  - intros phase. reflexivity.
  - intros phase [Heq|[Heq|[]]]; subst phase; reflexivity.
Defined.

(** ** correctContinuityError *)

Lemma setAt_length {A : Type} (l : list A) (i : label) (a : A) :
  List.length (setAt l i a) = List.length l.
Proof.
  revert i. induction l as [|x l IH]; intros i; simpl.
  - reflexivity.
  - destruct i as [|i]; simpl; [reflexivity | rewrite IH; reflexivity].
Qed.

Lemma setAt_nth_error {A : Type} (l : list A) (i j : label) (a : A) :
  i < List.length l ->
  nth_error (setAt l i a) j = if Nat.eqb j i then Some a else nth_error l j.
Proof.
  revert i j. induction l as [|x l IH]; intros i j Hi; simpl in *.
  - lia.
  - destruct i as [|i], j as [|j]; simpl; try reflexivity.
    apply IH. lia.
Qed.

Lemma flat_map_ext_in {A B : Type} (f g : A -> list B) (l : list A) :
  (forall a, In a l -> f a = g a) -> flat_map f l = flat_map g l.
Proof.
  induction l as [|a l IH]; intros Hext; simpl.
  - reflexivity.
  - rewrite Hext by (left; reflexivity).
    rewrite IH; [reflexivity|].
    intros b Hb. apply Hext. right. exact Hb.
Qed.

Lemma pointsTo_In (view : list label) (ptr : label) :
  pointsTo view ptr = true <-> In ptr view.
Proof.
  unfold pointsTo. rewrite existsb_exists. split.
  - intros [x [Hin Heq]]. apply Nat.eqb_eq in Heq. subst x. exact Hin.
  - intros Hin. exists ptr. split; [exact Hin | apply Nat.eqb_refl].
Qed.

Section Continuity.
Context {scalar : Type} `{Scalar scalar}.
Variable hook :
  volScalarField scalar -> phaseModel.t scalar -> phaseModel.t scalar.
Variable appliesToField : word -> bool.
Variable fvOptionsSource :
  volScalarField scalar -> volScalarField scalar -> volScalarField scalar.
Variable dmdts : PtrList.t (volScalarField scalar).

Lemma correctContinuityErrorBody_spec (sys : phaseSystem.t scalar)
    (calls : list (phaseSystem.call scalar)) (ptr : label)
    (phase : phaseModel.t scalar) :
  nth_error (phaseSystem.phaseModels_ sys) ptr = Some phase ->
  phaseModel.index phase < PtrList.size dmdts ->
  phaseSystem.correctContinuityErrorBody hook appliesToField fvOptionsSource
    dmdts ptr (sys, calls)
  = Ok (phaseSystem.setPhaseModels sys
          (setAt (phaseSystem.phaseModels_ sys) ptr
             (hook
                (continuitySource appliesToField fvOptionsSource
                   (phaseSystem.mesh_ sys) dmdts phase)
                phase)),
        calls
          ++ continuityCalls appliesToField fvOptionsSource
               (phaseSystem.mesh_ sys) dmdts ptr phase).
Proof.
  intros Hphase Hindex.
  unfold phaseSystem.correctContinuityErrorBody, continuityCalls,
    continuitySource, PtrList.set, PtrList.get.
  rewrite Hphase.
  destruct (at_lt dmdts Hindex) as [slot [Hslot Hat]].
  rewrite Hat, Hslot.
  destruct (appliesToField (phaseModel.rhoName (phaseModel.thermo phase)));
    destruct slot as [dmdt|]; simpl; rewrite <- ?app_assoc; reflexivity.
Qed.

Lemma correctContinuityErrorLoop_spec (moving : list label) :
  forall (sys : phaseSystem.t scalar) (calls : list (phaseSystem.call scalar)),
    NoDup moving ->
    (forall ptr, In ptr moving ->
       exists phase,
         nth_error (phaseSystem.phaseModels_ sys) ptr = Some phase
         /\ phaseModel.index phase < PtrList.size dmdts) ->
    exists phases',
      phaseSystem.correctContinuityErrorLoop hook appliesToField
        fvOptionsSource dmdts moving (sys, calls)
      = Ok (phaseSystem.setPhaseModels sys phases',
            calls ++ flat_map
                       (continuityCallsAt appliesToField fvOptionsSource sys
                          dmdts)
                       moving)
      /\ List.length phases' = List.length (phaseSystem.phaseModels_ sys)
      /\ forall i,
           nth_error phases' i
           = option_map
               (correctedPhase hook appliesToField fvOptionsSource
                  (phaseSystem.mesh_ sys) dmdts moving i)
               (nth_error (phaseSystem.phaseModels_ sys) i).
Proof.
  induction moving as [|ptr rest IH]; intros sys calls Hnodup Hphases.
  - exists (phaseSystem.phaseModels_ sys). simpl.
    rewrite app_nil_r. split; [|split].
    + destruct sys. reflexivity.
    + reflexivity.
    + intros i. unfold correctedPhase. simpl.
      destruct (nth_error (phaseSystem.phaseModels_ sys) i); reflexivity.
  - inversion_clear Hnodup as [|? ? Hfresh Hrest].
    destruct (Hphases ptr (or_introl eq_refl)) as [phase [Hphase Hindex]].
    assert (Hptr : ptr < List.length (phaseSystem.phaseModels_ sys)).
    { apply nth_error_Some. rewrite Hphase. discriminate. }
    cbn [phaseSystem.correctContinuityErrorLoop].
    rewrite (correctContinuityErrorBody_spec sys calls ptr Hphase Hindex).
    cbn [bind].
    set (phase' := hook
                     (continuitySource appliesToField fvOptionsSource
                        (phaseSystem.mesh_ sys) dmdts phase)
                     phase).
    set (mid := phaseSystem.setPhaseModels sys
                  (setAt (phaseSystem.phaseModels_ sys) ptr phase')).
    assert (Hmid : forall j, j <> ptr ->
                     nth_error (phaseSystem.phaseModels_ mid) j
                     = nth_error (phaseSystem.phaseModels_ sys) j).
    { intros j Hj. unfold mid. simpl. rewrite setAt_nth_error by exact Hptr.
      destruct (Nat.eqb_spec j ptr); [contradiction | reflexivity]. }
    destruct (IH mid
                (calls
                   ++ continuityCalls appliesToField fvOptionsSource
                        (phaseSystem.mesh_ sys) dmdts ptr phase)
                Hrest)
      as [phases' [Hloop [Hlen Hnth]]].
    { intros ptr' Hin.
      assert (Hne : ptr' <> ptr) by (intros Heq; subst ptr'; contradiction).
      rewrite (Hmid ptr' Hne). apply Hphases. right. exact Hin. }
    exists phases'. split; [|split].
    + rewrite Hloop.
      assert (Hcalls :
                flat_map
                  (continuityCallsAt appliesToField fvOptionsSource mid dmdts)
                  rest
                = flat_map
                    (continuityCallsAt appliesToField fvOptionsSource sys dmdts)
                    rest).
      { apply flat_map_ext_in. intros ptr' Hin.
        assert (Hne : ptr' <> ptr) by (intros Heq; subst ptr'; contradiction).
        unfold continuityCallsAt. rewrite (Hmid ptr' Hne). reflexivity. }
      rewrite Hcalls. cbn [flat_map].
      unfold continuityCallsAt at 2. rewrite Hphase, app_assoc. reflexivity.
    + rewrite Hlen. unfold mid. simpl. apply setAt_length.
    + intros i. rewrite Hnth. unfold mid at 1. simpl.
      rewrite setAt_nth_error by exact Hptr.
      unfold correctedPhase, pointsTo. simpl.
      destruct (Nat.eqb_spec i ptr) as [Heq|Hne].
      * subst i. rewrite Hphase. simpl.
        destruct (existsb (Nat.eqb ptr) rest) eqn:E; [|reflexivity].
        exfalso. apply Hfresh. apply pointsTo_In. exact E.
      * reflexivity.
Qed.
End Continuity.

Section MovingPointers.
Context {scalar : Type} `{Scalar scalar}.

Lemma positionsWhere_In (select : phaseModel.t scalar -> bool)
    (phases : list (phaseModel.t scalar)) :
  forall i j,
    In j (positionsWhere select i phases)
    <-> i <= j
        /\ exists phase,
             nth_error phases (j - i) = Some phase /\ select phase = true.
Proof.
  induction phases as [|phase rest IH]; intros i j; simpl.
  - split; [intros [] | intros [_ [ph [Hnth _]]]].
    destruct (j - i); discriminate.
  - assert (Hrest : In j (positionsWhere select (S i) rest)
                    <-> i < j
                        /\ exists ph,
                             nth_error rest (j - S i) = Some ph
                             /\ select ph = true).
    { rewrite IH. split; intros [Hle Hex]; (split; [lia | exact Hex]). }
    destruct (select phase) eqn:Hsel; simpl; rewrite ?Hrest; split.
    + intros [Heq|[Hlt [ph [Hnth Hph]]]].
      * subst j. split; [lia|]. exists phase.
        rewrite Nat.sub_diag. split; [reflexivity | exact Hsel].
      * split; [lia|]. exists ph.
        replace (j - i) with (S (j - S i)) by lia. split; assumption.
    + intros [Hle [ph [Hnth Hph]]].
      destruct (Nat.eq_dec i j) as [Heq|Hne]; [left; exact Heq|].
      right. split; [lia|]. exists ph.
      replace (j - i) with (S (j - S i)) in Hnth by lia. split; assumption.
    + intros [Hlt [ph [Hnth Hph]]].
      split; [lia|]. exists ph.
      replace (j - i) with (S (j - S i)) by lia. split; assumption.
    + intros [Hle [ph [Hnth Hph]]].
      destruct (Nat.eq_dec i j) as [Heq|Hne].
      * subst j. rewrite Nat.sub_diag in Hnth. simpl in Hnth.
        inversion Hnth. subst ph. rewrite Hsel in Hph. discriminate.
      * split; [lia|]. exists ph.
        replace (j - i) with (S (j - S i)) in Hnth by lia. split; assumption.
Qed.

Lemma positionsWhere_NoDup (select : phaseModel.t scalar -> bool)
    (phases : list (phaseModel.t scalar)) :
  forall i, NoDup (positionsWhere select i phases).
Proof.
  induction phases as [|phase rest IH]; intros i; simpl.
  - constructor.
  - destruct (select phase); [|apply IH].
    constructor; [|apply IH].
    rewrite positionsWhere_In. intros [Hle _]. lia.
Qed.

Lemma pointsTo_positionsWhere (select : phaseModel.t scalar -> bool)
    (phases : list (phaseModel.t scalar)) (j : label)
    (phase : phaseModel.t scalar) :
  nth_error phases j = Some phase ->
  pointsTo (positionsWhere select 0 phases) j = select phase.
Proof.
  intros Hnth.
  destruct (select phase) eqn:Hsel.
  - apply pointsTo_In. apply positionsWhere_In. split; [lia|].
    exists phase. rewrite Nat.sub_0_r. split; assumption.
  - destruct (pointsTo (positionsWhere select 0 phases) j) eqn:E;
      [|reflexivity].
    apply pointsTo_In, positionsWhere_In in E.
    destruct E as [_ [ph [Hnth' Hph]]].
    rewrite Nat.sub_0_r, Hnth in Hnth'. inversion Hnth'. subst ph.
    rewrite Hsel in Hph. discriminate.
Qed.
End MovingPointers.

Lemma continuitySource_at {scalar : Type} `{Scalar scalar}
    (appliesToField : word -> bool)
    (fvOptionsSource :
       volScalarField scalar -> volScalarField scalar -> volScalarField scalar)
    (mesh : fvMesh) (dmdts : PtrList.t (volScalarField scalar))
    (phase : phaseModel.t scalar) (cell : label) :
  cell < nCells mesh ->
  (appliesToField (phaseModel.rhoName (phaseModel.thermo phase)) = true ->
   cell < List.length
            (fvOptionsSource (phaseModel.alpha phase)
               (phaseModel.thermoRho (phaseModel.thermo phase)))) ->
  (forall dmdt,
     nth_error dmdts (phaseModel.index phase) = Some (Some dmdt) ->
     cell < List.length dmdt) ->
  nth_error (continuitySource appliesToField fvOptionsSource mesh dmdts phase)
    cell
  = Some (continuitySourceAt appliesToField fvOptionsSource dmdts phase cell).
Proof.
  intros Hcell Hoptions Hrate.
  assert (Hinjected :
            nth_error
              (if appliesToField
                    (phaseModel.rhoName (phaseModel.thermo phase))
               then fadd (uniformField mesh szero)
                      (fvOptionsSource (phaseModel.alpha phase)
                         (phaseModel.thermoRho (phaseModel.thermo phase)))
               else uniformField mesh szero)
              cell
            = Some (injectedSourceAt appliesToField fvOptionsSource phase
                      cell)).
  { unfold injectedSourceAt.
    destruct (appliesToField (phaseModel.rhoName (phaseModel.thermo phase))).
    - unfold fadd. apply zipWith_nth_error.
      + apply uniformField_at. exact Hcell.
      + apply nth_error_nth_lt. apply Hoptions. reflexivity.
    - apply uniformField_at. exact Hcell. }
  unfold continuitySource, continuitySourceAt. cbv zeta.
  destruct (nth_error dmdts (phaseModel.index phase)) as [[dmdt|]|] eqn:Hslot;
    try exact Hinjected.
  unfold fadd. apply zipWith_nth_error; [exact Hinjected|].
  apply nth_error_nth_lt. apply Hrate. reflexivity.
Qed.

(** C6: [correctContinuityError] returns, having corrected exactly the
    phases the moving list points to, each with the source built for it:
    zero, plus the injected source if one applies to the phase's density
    field, plus the mass-transfer rate at the phase's index if that slot is
    set; a slot that is not set adds nothing. The hook of each moving phase
    is called with that source, in the order of the moving list. In every
    cell the source is the sum of these values there: zero, plus the value
    of the injected source, plus the value of the mass-transfer rate. The
    constructor's moving list points to the phases that are not stationary,
    each once. *)
Theorem correctContinuityError_sources {scalar : Type} `{Scalar scalar}
    (hook : volScalarField scalar -> phaseModel.t scalar -> phaseModel.t scalar)
    (appliesToField : word -> bool)
    (fvOptionsSource :
       volScalarField scalar -> volScalarField scalar -> volScalarField scalar)
    (virtualDmdts : phaseSystem.t scalar -> PtrList.t (volScalarField scalar))
    (sys : phaseSystem.t scalar) :
  (NoDup (phaseSystem.movingPhaseModels_ sys) ->
   validPointers sys (phaseSystem.movingPhaseModels_ sys) ->
   (forall phase,
      In phase (movingPhases sys) ->
      phaseModel.index phase < PtrList.size (virtualDmdts sys)) ->
   exists phases',
     phaseSystem.correctContinuityError hook appliesToField fvOptionsSource
       virtualDmdts sys
     = Ok (phaseSystem.setPhaseModels sys phases',
           flat_map
             (continuityCallsAt appliesToField fvOptionsSource sys
                (virtualDmdts sys))
             (phaseSystem.movingPhaseModels_ sys))
     /\ List.length phases' = List.length (phaseSystem.phaseModels_ sys)
     /\ forall i phase,
          nth_error (phaseSystem.phaseModels_ sys) i = Some phase ->
          nth_error phases' i
          = Some
              (correctedPhase hook appliesToField fvOptionsSource
                 (phaseSystem.mesh_ sys) (virtualDmdts sys)
                 (phaseSystem.movingPhaseModels_ sys) i phase))
  /\ (forall phase,
        nth_error (virtualDmdts sys) (phaseModel.index phase) = Some None ->
        continuitySource appliesToField fvOptionsSource
          (phaseSystem.mesh_ sys) (virtualDmdts sys) phase
        = if appliesToField (phaseModel.rhoName (phaseModel.thermo phase))
          then fadd (uniformField (phaseSystem.mesh_ sys) szero)
                 (fvOptionsSource (phaseModel.alpha phase)
                    (phaseModel.thermoRho (phaseModel.thermo phase)))
          else uniformField (phaseSystem.mesh_ sys) szero)
  /\ (forall phase cell,
        cell < nCells (phaseSystem.mesh_ sys) ->
        (appliesToField (phaseModel.rhoName (phaseModel.thermo phase)) = true ->
         cell < List.length
                  (fvOptionsSource (phaseModel.alpha phase)
                     (phaseModel.thermoRho (phaseModel.thermo phase)))) ->
        (forall dmdt,
           nth_error (virtualDmdts sys) (phaseModel.index phase)
           = Some (Some dmdt) ->
           cell < List.length dmdt) ->
        nth_error
          (continuitySource appliesToField fvOptionsSource
             (phaseSystem.mesh_ sys) (virtualDmdts sys) phase)
          cell
        = Some
            (continuitySourceAt appliesToField fvOptionsSource
               (virtualDmdts sys) phase cell))
  /\ (forall (mesh : fvMesh) (phases : list (phaseModel.t scalar))
        (phi : Field scalar),
        NoDup (phaseSystem.movingPhaseModels_ (phaseSystem.New mesh phases phi))
        /\ validPointers (phaseSystem.New mesh phases phi)
             (phaseSystem.movingPhaseModels_ (phaseSystem.New mesh phases phi))
        /\ forall i phase,
             nth_error phases i = Some phase ->
             pointsTo
               (phaseSystem.movingPhaseModels_
                  (phaseSystem.New mesh phases phi)) i
             = negb (phaseModel.stationary phase)).
Proof.
  split; [|split; [|split]].
  - intros Hnodup Hvalid Hindex.
    unfold phaseSystem.correctContinuityError.
    destruct (correctContinuityErrorLoop_spec hook appliesToField
                fvOptionsSource (virtualDmdts sys) sys [] Hnodup)
      as [phases' [Hloop [Hlen Hnth]]].
    { intros ptr Hin.
      unfold validPointers in Hvalid. rewrite Forall_forall in Hvalid.
      destruct (at_lt _ (Hvalid ptr Hin)) as [phase [Hphase _]].
      exists phase. split; [exact Hphase|].
      apply Hindex. unfold movingPhases, phasesOf.
      apply in_flat_map. exists ptr. split; [exact Hin|].
      rewrite Hphase. left. reflexivity. }
    exists phases'. split; [exact Hloop|]. split; [exact Hlen|].
    intros i phase Hphase. rewrite Hnth, Hphase. reflexivity.
  - intros phase Hslot. unfold continuitySource. rewrite Hslot. reflexivity.
  - intros phase cell Hcell Hoptions Hrate.
    apply continuitySource_at; assumption.
  - intros mesh phases phi.
    destruct (New_validPointers mesh phases phi)
      as [Hphases [Hmoving [_ [Hvalid _]]]].
    split; [|split].
    + rewrite Hmoving. apply positionsWhere_NoDup.
    + exact Hvalid.
    + intros i phase Hphase. rewrite Hmoving.
      apply (pointsTo_positionsWhere
               (fun ph => negb (phaseModel.stationary ph)) phases i Hphase).
Qed.

Lemma correctContinuityError_sources_witness :
  exists phases',
    phaseSystem.correctContinuityError Examples.recordSource
      Cases.appliesToWater Cases.injected Cases.transfer
      Examples.waterWithAir
    = Ok (phaseSystem.setPhaseModels Examples.waterWithAir phases',
          [phaseSystem.fvOptions_source
             [Examples.Qc_of 3 10; Examples.Qc_of 3 10]
             [Examples.Qc_of 1000 1; Examples.Qc_of 1000 1];
           phaseSystem.phaseModel_correctContinuityError 0
             [Examples.Qc_of 7 1; Examples.Qc_of 10 1];
           phaseSystem.phaseModel_correctContinuityError 1 [0%Qc; 0%Qc]])
    /\ nth_error phases' 0
       = Some
           (Examples.recordSource [Examples.Qc_of 7 1; Examples.Qc_of 10 1]
              (Examples.uniformPhase Examples.mesh2 "water"%string 0
                 (Examples.Qc_of 3 10) (Examples.Qc_of 1000 1) false false))
    /\ nth_error phases' 1
       = Some
           (Examples.recordSource [0%Qc; 0%Qc]
              (Examples.uniformPhase Examples.mesh2 "air"%string 1
                 (Examples.Qc_of 7 10) (Examples.Qc_of 12 10) false false)).
Proof.
  destruct (proj1
              (correctContinuityError_sources Examples.recordSource
                 Cases.appliesToWater Cases.injected Cases.transfer
                 Examples.waterWithAir))
    as [phases' [Hrun [_ Hnth]]].
  - repeat constructor; simpl; intuition discriminate.
  - repeat constructor.
  - intros phase [Heq|[Heq|[]]]; subst phase; simpl; lia.
  - exists phases'. split; [exact Hrun|].
    split; [exact (Hnth 0 _ eq_refl) | exact (Hnth 1 _ eq_refl)].
Defined.

(** ** calcPhi *)

(** X1: [calcPhi] fails on an empty phase list, with the index error of the
    list; on any other list it returns the sum over all phases, in list
    order, of interpolated fraction times flux, which on every face all the
    fields cover is the sum of the phases' products there. *)
Theorem calcPhi_weighted_sum {scalar : Type} `{Scalar scalar}
    (interpolate : volScalarField scalar -> surfaceScalarField scalar) :
  phaseSystem.calcPhi interpolate [] = Fatal IndexOutOfRange
  /\ (forall phase rest,
        phaseSystem.calcPhi interpolate (phase :: rest)
        = Ok (weightedPhi interpolate (phase :: rest)))
  /\ (forall phases face,
        phases <> [] ->
        Forall
          (fun phase =>
             face < List.length (interpolate (phaseModel.alpha phase))
             /\ face < List.length (phaseModel.phi phase))
          phases ->
        nth_error (weightedPhi interpolate phases) face
        = Some (weightedPhiAt interpolate phases face)).
Proof.
  split; [reflexivity|]. split.
  - intros phase rest. unfold phaseSystem.calcPhi, weightedPhi. simpl.
    unfold forRange. simpl. rewrite Nat.sub_0_r.
    pose proof (forLoop_fold
                  (fun acc ph =>
                     fadd acc
                       (fmul (interpolate (phaseModel.alpha ph))
                          (phaseModel.phi ph)))
                  (phase :: rest)) as Hfold.
    cbv beta in Hfold. rewrite Hfold; simpl; try lia.
    rewrite fold_left_map
      with (f := fadd)
           (g := fun ph =>
                   fmul (interpolate (phaseModel.alpha ph))
                     (phaseModel.phi ph)).
    reflexivity.
  - intros phases face Hne Hall.
    destruct phases as [|phase rest]; [contradiction|].
    inversion_clear Hall as [|? ? [Ha Hp] Hrest].
    unfold weightedPhi, weightedPhiAt. simpl. unfold fadd.
    rewrite fold_zipWith_nth_error
      with (d := szero)
           (x := smul (nth face (interpolate (phaseModel.alpha phase)) szero)
                   (nth face (phaseModel.phi phase) szero)).
    + f_equal. f_equal. rewrite map_map. apply map_ext_in.
      intros ph Hin. rewrite Forall_forall in Hrest.
      destruct (Hrest ph Hin) as [Ha' Hp'].
      apply nth_error_nth with (d := szero).
      unfold fmul. apply zipWith_nth_error; apply nth_error_nth_lt; assumption.
    + unfold fmul. apply zipWith_nth_error; apply nth_error_nth_lt; assumption.
    + rewrite Forall_forall in *. intros field Hin.
      apply in_map_iff in Hin. destruct Hin as [ph [Heq Hin]]. subst field.
      destruct (Hrest ph Hin) as [Ha' Hp'].
      apply nth_error_Some.
      unfold fmul.
      rewrite (zipWith_nth_error smul _ _ _
                 (nth_error_nth_lt _ szero Ha') (nth_error_nth_lt _ szero Hp')).
      discriminate.
Qed.

Lemma calcPhi_weighted_sum_witness :
  nth_error (weightedPhi Cases.toFaces Cases.twoFlowing) 1
  = Some (weightedPhiAt Cases.toFaces Cases.twoFlowing 1).
Proof.
  refine (proj2 (proj2 (calcPhi_weighted_sum Cases.toFaces))
            Cases.twoFlowing 1 _ _).
  - discriminate.
  - repeat constructor.
Defined.

(** ** The mixture velocity *)

Lemma vdiv_undiluted (a : Qc) (v : Vector Qc) :
  sIsZero a = false -> vdiv (vscale a v) a = v.
Proof.
  intros Ha. destruct v as [x y z]. unfold vdiv, vscale. simpl vx.
  simpl vy. simpl vz.
  rewrite !(@Qc_undiluted a _ Ha). reflexivity.
Qed.

Lemma zipWith_vdiv_undiluted (alpha : volScalarField Qc)
    (u : volVectorField Qc) :
  List.length alpha = List.length u ->
  nowhereZero alpha ->
  zipWith vdiv (fvscale alpha u) alpha = u.
Proof.
  unfold nowhereZero, fvscale. revert u.
  induction alpha as [|a alpha IH]; intros u Hlen Hnz;
    destruct u as [|v u]; simpl in *; try discriminate.
  - reflexivity.
  - inversion_clear Hnz as [|? ? Ha Hrest].
    f_equal.
    + apply vdiv_undiluted. exact Ha.
    + apply IH; [lia | exact Hrest].
Qed.

Lemma weightedU_at {scalar : Type} `{Scalar scalar}
    (sys : phaseSystem.t scalar) (cell : label) :
  fieldsOnMesh sys ->
  movingPhases sys <> [] ->
  cell < nCells (phaseSystem.mesh_ sys) ->
  nth_error (weightedU sys) cell = Some (weightedUAt sys cell).
Proof.
  intros Hfields Hne Hcell. unfold weightedU, weightedUAt.
  pose proof (moving_fieldsOnMesh Hfields) as Hmesh.
  destruct (movingPhases sys) as [|phase0 rest]; [contradiction|].
  simpl. unfold fvadd.
  rewrite fold_zipWith_nth_error
    with (d := {| vx := szero; vy := szero; vz := szero |})
         (x := vscale (nth cell (phaseModel.alpha phase0) szero)
                 (nth cell (phaseModel.U phase0)
                    {| vx := szero; vy := szero; vz := szero |})).
  - f_equal. f_equal. rewrite map_map. apply map_ext_in.
    intros phase Hin.
    destruct (Hmesh phase (or_intror Hin)) as [Ha [_ Hu]].
    apply nth_error_nth
      with (d := {| vx := szero; vy := szero; vz := szero |}).
    unfold fvscale. apply zipWith_nth_error; apply nth_error_nth_lt; lia.
  - destruct (Hmesh phase0 (or_introl eq_refl)) as [Ha [_ Hu]].
    unfold fvscale. apply zipWith_nth_error; apply nth_error_nth_lt; lia.
  - rewrite Forall_forall. intros field Hin.
    apply in_map_iff in Hin. destruct Hin as [phase [Heq Hin]]. subst field.
    destruct (Hmesh phase (or_intror Hin)) as [Ha [_ Hu]].
    unfold fvscale. rewrite (@zipWith_length _ _ _ vscale _ _ _ Ha Hu).
    exact Hcell.
Qed.

(** X2: with a moving phase, [U()] returns the sum over the moving phases
    of fraction times velocity when there is no stationary phase, and that
    sum divided cell by cell by the sum of the moving fractions when there
    is one (every component of the velocity by the same divisor). In every
    cell the sum is the sum over the moving phases of the phase's fraction
    there times its velocity there, and the quotient is that vector divided
    by the sum of the moving fractions there. A constructed system without
    stationary phases has the moving phase it needs. Over the rationals a
    single moving phase next to stationary ones gets its own velocity
    back. *)
Theorem U_weighted_sum :
  (forall (scalar : Type) (ops : Scalar scalar) (sys : phaseSystem.t scalar),
     validPointers sys (phaseSystem.movingPhaseModels_ sys) ->
     phaseSystem.movingPhaseModels_ sys <> [] ->
     (phaseSystem.stationaryPhaseModels_ sys = [] ->
      phaseSystem.U sys = Ok (weightedU sys))
     /\ (phaseSystem.stationaryPhaseModels_ sys <> [] ->
         phaseSystem.U sys = fvdivide (weightedU sys) (sumAlphaMoving sys))
     /\ (phaseSystem.stationaryPhaseModels_ sys <> [] ->
         fieldsOnMesh sys ->
         nowhereZero (sumAlphaMoving sys) ->
         phaseSystem.U sys
         = Ok (zipWith vdiv (weightedU sys) (sumAlphaMoving sys)))
     /\ (fieldsOnMesh sys ->
         forall cell, cell < nCells (phaseSystem.mesh_ sys) ->
           nth_error (weightedU sys) cell = Some (weightedUAt sys cell)
           /\ nth_error (zipWith vdiv (weightedU sys) (sumAlphaMoving sys))
                cell
              = Some (vdiv (weightedUAt sys cell)
                        (sumAlphaMovingAt sys cell))))
  /\ (forall (scalar : Type) (ops : Scalar scalar)
        (interpolate : volScalarField scalar -> surfaceScalarField scalar)
        (mesh : fvMesh) (phases : list (phaseModel.t scalar))
        (phi : surfaceScalarField scalar),
        phaseSystem.calcPhi interpolate phases = Ok phi ->
        phaseSystem.stationaryPhaseModels_ (phaseSystem.New mesh phases phi)
        = [] ->
        phaseSystem.U (phaseSystem.New mesh phases phi)
        = Ok (weightedU (phaseSystem.New mesh phases phi)))
  /\ (forall (sys : phaseSystem.t Qc) (phase : phaseModel.t Qc),
        movingPhases sys = [phase] ->
        validPointers sys (phaseSystem.movingPhaseModels_ sys) ->
        phaseSystem.stationaryPhaseModels_ sys <> [] ->
        List.length (phaseModel.alpha phase)
        = List.length (phaseModel.U phase) ->
        nowhereZero (phaseModel.alpha phase) ->
        phaseSystem.U sys = Ok (phaseModel.U phase)).
Proof.
  assert (Hgeneral :
            forall (scalar : Type) (ops : Scalar scalar)
              (sys : phaseSystem.t scalar),
              validPointers sys (phaseSystem.movingPhaseModels_ sys) ->
              phaseSystem.movingPhaseModels_ sys <> [] ->
              (phaseSystem.stationaryPhaseModels_ sys = [] ->
               phaseSystem.U sys = Ok (weightedU sys))
              /\ (phaseSystem.stationaryPhaseModels_ sys <> [] ->
                  phaseSystem.U sys
                  = fvdivide (weightedU sys) (sumAlphaMoving sys))).
  { intros scalar ops sys Hvalid Hmoving.
    rewrite (U_cases Hvalid).
    destruct (movingPhases sys) eqn:Hphases.
    - exfalso. apply Hmoving. apply (movingPhases_nil Hvalid). exact Hphases.
    - destruct (phaseSystem.stationaryPhaseModels_ sys); split;
        intros Hs; try reflexivity; try discriminate.
      contradiction. }
  split; [|split].
  - intros scalar ops sys Hvalid Hmoving.
    destruct (Hgeneral scalar ops sys Hvalid Hmoving) as [Hnone Hsome].
    assert (Hne : movingPhases sys <> []).
    { intros Hnil. apply Hmoving. apply (movingPhases_nil Hvalid). exact Hnil. }
    split; [exact Hnone|]. split; [exact Hsome|]. split.
    + intros Hstationary Hfields Hnz. rewrite (Hsome Hstationary).
      apply fvdivide_cases; [|exact Hnz].
      rewrite (weightedU_length Hfields Hne),
        (sumAlphaMoving_length Hfields Hne).
      reflexivity.
    + intros Hfields cell Hcell.
      pose proof (@weightedU_at _ _ sys cell Hfields Hne Hcell) as Hsum.
      split; [exact Hsum|].
      apply zipWith_nth_error; [exact Hsum|].
      apply sumAlphaMoving_at; assumption.
  - intros scalar ops interpolate mesh phases phi Hphi Hstationary.
    apply Hgeneral.
    + apply New_validPointers.
    + eapply New_moving_phase; eassumption.
    + exact Hstationary.
  - intros sys phase Hphase Hvalid Hstationary Hlen Hnz.
    rewrite (U_cases Hvalid).
    unfold weightedU, sumAlphaMoving. rewrite Hphase. simpl.
    destruct (phaseSystem.stationaryPhaseModels_ sys); [contradiction|].
    replace (fvdivide
               (fvscale (phaseModel.alpha phase) (phaseModel.U phase))
               (phaseModel.alpha phase))
      with (Ok (zipWith vdiv
                  (fvscale (phaseModel.alpha phase) (phaseModel.U phase))
                  (phaseModel.alpha phase))).
    + rewrite zipWith_vdiv_undiluted by assumption. reflexivity.
    + symmetry. apply fvdivide_cases; [|exact Hnz].
      unfold fvscale. apply zipWith_length; [reflexivity | symmetry; exact Hlen].
Qed.

Lemma U_weighted_sum_witness :
  phaseSystem.U Cases.twoStreamsAndSolid
  = Ok [{| vx := Examples.Qc_of 6 1; vy := Examples.Qc_of 2 1; vz := 0%Qc |};
        {| vx := Examples.Qc_of 6 1; vy := Examples.Qc_of 2 1; vz := 0%Qc |}]
  /\ phaseSystem.U Cases.twoStreams
     = Ok [{| vx := Examples.Qc_of 3 1; vy := Examples.Qc_of 1 1;
              vz := 0%Qc |};
           {| vx := Examples.Qc_of 3 1; vy := Examples.Qc_of 1 1;
              vz := 0%Qc |}]
  /\ nth_error (weightedU Cases.twoStreamsAndSolid) 1
     = Some
         {| vx := Examples.Qc_of 3 1; vy := Examples.Qc_of 1 1; vz := 0%Qc |}.
Proof.
  split; [|split].
  - refine (proj1
              (proj2
                 (proj2
                    (proj1 U_weighted_sum Qc Scalar_Qc
                       Cases.twoStreamsAndSolid _ _)))
              _ _ _).
    + repeat constructor.
    + discriminate.
    + discriminate.
    + repeat constructor.
    + repeat constructor.
  - refine (proj1
              (proj1 U_weighted_sum Qc Scalar_Qc Cases.twoStreams _ _)
              _).
    + repeat constructor.
    + discriminate.
    + reflexivity.
  - refine (proj1
              (proj2
                 (proj2
                    (proj2
                       (proj1 U_weighted_sum Qc Scalar_Qc
                          Cases.twoStreamsAndSolid _ _)))
                 _ 1 _)).
    + repeat constructor.
    + discriminate.
    + repeat constructor.
    + repeat constructor.
Defined.

(** ** The mixture density is an average *)

Section Averages.
Local Open Scope Qc_scope.


End Averages.



Section RhoBounds.
Variable sys : phaseSystem.t Qc.
Variables lo hi : Qc.
Hypothesis Hvalid : validPointers sys (phaseSystem.movingPhaseModels_ sys).
Hypothesis Hfields : fieldsOnMesh sys.
Hypothesis Hmoving : phaseSystem.movingPhaseModels_ sys <> [].
Hypothesis Hfractions :
  forall phase, In phase (movingPhases sys) ->
    Forall (fun a => (0 <= a)%Qc) (phaseModel.alpha phase).
Hypothesis Hdensities :
  forall phase, In phase (movingPhases sys) ->
    Forall (fun r => (lo <= r)%Qc /\ (r <= hi)%Qc) (phaseModel.rho phase).




End RhoBounds.



(** ** When generatePairs succeeds *)

Lemma findIndex_None {scalar : Type} (phases : list (phaseModel.t scalar))
    (key : word) :
  ~ namesPhase phases key -> forall i, findIndex phases key i = None.
Proof.
  unfold namesPhase.
  induction phases as [|phase rest IH]; intros Hnot i; simpl.
  - reflexivity.
  - destruct (String.eqb (phaseModel.name phase) key) eqn:E.
    + exfalso. apply Hnot. left. apply String.eqb_eq. exact E.
    + apply IH. intros Hin. apply Hnot. right. exact Hin.
Qed.

Lemma lookupPhase_unknown {scalar : Type} (phases : list (phaseModel.t scalar))
    (key : word) :
  ~ namesPhase phases key -> lookupPhase phases key = Fatal (NotFound key).
Proof.
  intros Hnot. unfold lookupPhase. rewrite (@findIndex_None _ phases key Hnot).
  reflexivity.
Qed.

Lemma lookupPhase_Ok_names {scalar : Type}
    (phases : list (phaseModel.t scalar)) (key : word) :
  forall i j,
    findIndex phases key i = Some j ->
    i <= j
    /\ exists phase,
         nth_error phases (j - i) = Some phase
         /\ phaseModel.name phase = key.
Proof.
  induction phases as [|phase rest IH]; intros i j Hfind; simpl in Hfind.
  - discriminate.
  - destruct (String.eqb (phaseModel.name phase) key) eqn:E.
    + inversion Hfind. subst j. split; [lia|].
      exists phase. rewrite Nat.sub_diag. split; [reflexivity|].
      apply String.eqb_eq. exact E.
    + destruct (IH (S i) j Hfind) as [Hle [ph [Hnth Hname]]].
      split; [lia|]. exists ph.
      replace (j - i) with (S (j - S i)) by lia. split; assumption.
Qed.

Lemma lookupPhase_Ok {scalar : Type} (phases : list (phaseModel.t scalar))
    (key : word) (j : label) :
  lookupPhase phases key = Ok j ->
  exists phase,
    nth_error phases j = Some phase /\ phaseModel.name phase = key.
Proof.
  unfold lookupPhase. intros Hlook.
  destruct (findIndex phases key 0) as [i|] eqn:Hfind; [|discriminate].
  inversion Hlook. subst i.
  destruct (lookupPhase_Ok_names phases key 0 Hfind) as [_ [ph [Hnth Hname]]].
  rewrite Nat.sub_0_r in Hnth. exists ph. split; assumption.
Qed.

Lemma lookupPhase_Ok_In {scalar : Type} (phases : list (phaseModel.t scalar))
    (key : word) (j : label) :
  lookupPhase phases key = Ok j -> namesPhase phases key.
Proof.
  intros Hlook. destruct (lookupPhase_Ok phases key Hlook) as [ph [Hnth Hname]].
  unfold namesPhase. rewrite <- Hname. apply in_map.
  apply nth_error_In with (n := j). exact Hnth.
Qed.

Section GeneratePairsSucceeds.
Context {scalar : Type} `{Scalar scalar}.

Lemma generatePair_isOk (key : phasePairKey.t) (sys : phaseSystem.t scalar) :
  isOk (phaseSystem.generatePair key sys) = true <-> servable sys key.
Proof.
  unfold servable, phaseSystem.generatePair.
  destruct (HashTable.found (phaseSystem.phasePairs_ sys) key).
  - split; [intros _; left; reflexivity | reflexivity].
  - destruct (lookupPhase (phaseSystem.phaseModels_ sys)
                (phasePairKey.first key)) as [phase1|e1] eqn:H1.
    + destruct (lookupPhase (phaseSystem.phaseModels_ sys)
                  (phasePairKey.second key)) as [phase2|e2] eqn:H2.
      * split.
        -- intros _. right. split; eapply lookupPhase_Ok_In; eassumption.
        -- intros _. destruct (phasePairKey.ordered key); reflexivity.
      * split.
        -- destruct (phasePairKey.ordered key); discriminate.
        -- intros [Hf|[_ Hsecond]]; [discriminate|].
           destruct (lookupPhase_In _ _ Hsecond) as [j Hj].
           rewrite Hj in H2. discriminate.
    + split.
      * destruct (phasePairKey.ordered key); discriminate.
      * intros [Hf|[Hfirst _]]; [discriminate|].
        destruct (lookupPhase_In _ _ Hfirst) as [j Hj].
        rewrite Hj in H1. discriminate.
Qed.

Lemma servable_step (key k : phasePairKey.t)
    (sys mid : phaseSystem.t scalar) :
  phaseSystem.generatePair key sys = Ok mid ->
  (servable mid k <-> servable sys k \/ phasePairKey.eqb key k = true).
Proof.
  intros Hstep.
  assert (Hserved : servable sys key).
  { apply generatePair_isOk. rewrite Hstep. reflexivity. }
  destruct (generatePair_cases key sys Hstep)
    as [[Hfound Heq]|[Hnew [phase1 [phase2 [H1 [H2 Heq]]]]]]; subst mid.
  - split; [intros Hs; left; exact Hs|].
    intros [Hs|Hk]; [exact Hs|].
    left. unfold HashTable.found in *.
    rewrite <- (@find_eqb_compat _ (phaseSystem.phasePairs_ sys) _ _ Hk).
    exact Hfound.
  - unfold servable. simpl. unfold HashTable.found.
    rewrite find_app. simpl.
    destruct (HashTable.find (phaseSystem.phasePairs_ sys) k) as [ptr|].
    + split; intros _; [left; left; reflexivity | left; reflexivity].
    + destruct (phasePairKey.eqb key k) eqn:Hk.
      * split; intros _; [right; reflexivity | left; reflexivity].
      * split.
        -- intros [Hf|Hnames]; [discriminate | left; right; exact Hnames].
        -- intros [[Hf|Hnames]|Hf]; try discriminate. right. exact Hnames.
Qed.

Lemma generatePairs_isOk {dictionary : Type}
    (modelDicts : HashTable.t dictionary) :
  forall sys : phaseSystem.t scalar,
    isOk (phaseSystem.generatePairs modelDicts sys) = true
    <-> Forall (fun e => servable sys (fst e)) modelDicts.
Proof.
  induction modelDicts as [|[key dict] rest IH]; intros sys.
  - simpl. split; [constructor | reflexivity].
  - simpl. destruct (phaseSystem.generatePair key sys) as [mid|e] eqn:Hstep.
    + assert (Hserved : servable sys key).
      { apply generatePair_isOk. rewrite Hstep. reflexivity. }
      simpl. rewrite IH. split.
      * intros Hall. constructor; [exact Hserved|].
        rewrite Forall_forall in *. intros [k d] Hin.
        specialize (Hall (k, d) Hin). simpl in *.
        apply (servable_step key k sys Hstep) in Hall.
        destruct Hall as [Hs|Hk]; [exact Hs|].
        destruct Hserved as [Hfound|[Hfirst Hsecond]].
        -- left. unfold HashTable.found in *.
           rewrite <- (@find_eqb_compat _ (phaseSystem.phasePairs_ sys) _ _ Hk).
           exact Hfound.
        -- right. apply phasePairKey_eqb_spec in Hk.
           destruct Hk as [_ [[Hf Hs]|[_ [Hf Hs]]]].
           ++ rewrite <- Hf, <- Hs. split; assumption.
           ++ rewrite <- Hf, <- Hs. split; assumption.
      * intros Hall. inversion_clear Hall as [|? ? _ Hrest].
        rewrite Forall_forall in *. intros [k d] Hin.
        specialize (Hrest (k, d) Hin). simpl in *.
        apply (servable_step key k sys Hstep). left. exact Hrest.
    + simpl. split; [discriminate|].
      intros Hall. inversion_clear Hall as [|? ? Hserved _]. simpl in Hserved.
      apply generatePair_isOk in Hserved. rewrite Hstep in Hserved.
      discriminate.
Qed.
End GeneratePairsSucceeds.

(** X4: [generatePairs] succeeds exactly when every key of the table either
    has a pair before the run or names two phases of the system. A request
    for a key that has no pair and exactly one name that is no phase fails
    with [NotFound] of that name. *)
Theorem generatePairs_succeeds_iff {scalar : Type} `{Scalar scalar}
    (sys : phaseSystem.t scalar) :
  (forall (dictionary : Type) (modelDicts : HashTable.t dictionary),
     isOk (phaseSystem.generatePairs modelDicts sys) = true
     <-> Forall (fun e => servable sys (fst e)) modelDicts)
  /\ (forall key,
        HashTable.found (phaseSystem.phasePairs_ sys) key = false ->
        ~ namesPhase (phaseSystem.phaseModels_ sys) (phasePairKey.first key) ->
        namesPhase (phaseSystem.phaseModels_ sys) (phasePairKey.second key) ->
        phaseSystem.generatePair key sys
        = Fatal (NotFound (phasePairKey.first key)))
  /\ (forall key,
        HashTable.found (phaseSystem.phasePairs_ sys) key = false ->
        namesPhase (phaseSystem.phaseModels_ sys) (phasePairKey.first key) ->
        ~ namesPhase (phaseSystem.phaseModels_ sys)
            (phasePairKey.second key) ->
        phaseSystem.generatePair key sys
        = Fatal (NotFound (phasePairKey.second key))).
Proof.
  split; [|split].
  - intros dictionary modelDicts. apply generatePairs_isOk.
  - intros key Hfound Hfirst _. unfold phaseSystem.generatePair.
    rewrite Hfound, (@lookupPhase_unknown _ _ _ Hfirst).
    destruct (phasePairKey.ordered key); reflexivity.
  - intros key Hfound Hfirst Hsecond. unfold phaseSystem.generatePair.
    destruct (lookupPhase_In _ _ Hfirst) as [j Hj].
    rewrite Hfound, Hj, (@lookupPhase_unknown _ _ _ Hsecond).
    destruct (phasePairKey.ordered key); reflexivity.
Qed.

Lemma generatePairs_succeeds_iff_witness :
  phaseSystem.generatePair Cases.oilWater Examples.waterWithAir
  = Fatal (NotFound "oil"%string).
Proof.
  refine (proj1 (proj2 (generatePairs_succeeds_iff Examples.waterWithAir))
            Cases.oilWater _ _ _).
  - reflexivity.
  - simpl. intros [Heq|[Heq|[]]]; discriminate.
  - simpl. left. reflexivity.
Defined.

(** ** The pairs generatePairs registers *)

Lemma find_Some_In {V : Type} (tbl : HashTable.t V) (k : phasePairKey.t)
    (v : V) :
  HashTable.find tbl k = Some v ->
  exists k', In (k', v) tbl /\ phasePairKey.eqb k' k = true.
Proof.
  induction tbl as [|[k' v'] rest IH]; simpl; intros Hfind.
  - discriminate.
  - destruct (phasePairKey.eqb k' k) eqn:E.
    + inversion Hfind. subst v'. exists k'. split; [left; reflexivity|exact E].
    + destruct (IH Hfind) as [k'' [Hin Heq]].
      exists k''. split; [right; exact Hin | exact Heq].
Qed.

Section RegisteredPairs.
Context {scalar : Type} `{Scalar scalar}.

Lemma generatePair_frame (key : phasePairKey.t)
    (sys sys' : phaseSystem.t scalar) :
  phaseSystem.generatePair key sys = Ok sys' ->
  sys' = phaseSystem.setPhasePairs sys (phaseSystem.phasePairs_ sys')
           (phaseSystem.pairStore sys').
Proof.
  intros Hok.
  destruct (generatePair_cases key sys Hok)
    as [[_ Heq]|[_ [phase1 [phase2 [_ [_ Heq]]]]]]; subst sys'.
  - destruct sys. reflexivity.
  - reflexivity.
Qed.

Lemma generatePair_pairsMatchKeys (key : phasePairKey.t)
    (sys sys' : phaseSystem.t scalar) :
  phaseSystem.generatePair key sys = Ok sys' ->
  pairsMatchKeys sys -> pairsMatchKeys sys'.
Proof.
  intros Hok Hinv.
  destruct (generatePair_cases key sys Hok)
    as [[_ Heq]|[_ [phase1 [phase2 [H1 [H2 Heq]]]]]]; subst sys'.
  - exact Hinv.
  - unfold pairsMatchKeys in *. simpl. apply Forall_app. split.
    + eapply Forall_impl; [|exact Hinv]. simpl.
      intros [k ptr] [pair [Hnth Hmatch]]. simpl in *.
      exists pair. split; [|exact Hmatch].
      rewrite nth_error_app1; [exact Hnth|].
      apply nth_error_Some. rewrite Hnth. discriminate.
    + constructor; [|constructor]. simpl.
      exists (phasePair.New (phaseSystem.phaseModels_ sys) phase1 phase2
                (phasePairKey.ordered key)).
      split.
      * rewrite nth_error_app2 by apply Nat.le_refl.
        rewrite Nat.sub_diag. reflexivity.
      * destruct (lookupPhase_Ok _ _ H1) as [ph1 [Hnth1 Hname1]].
        destruct (lookupPhase_Ok _ _ H2) as [ph2 [Hnth2 Hname2]].
        unfold pairMatches, phasePair.New. simpl.
        rewrite Hnth1, Hnth2, Hname1, Hname2.
        split; [destruct key; reflexivity|]. split; [reflexivity|].
        split; [exists ph1 | exists ph2]; split;
          try reflexivity; assumption.
Qed.

Lemma generatePairs_pairsMatchKeys {dictionary : Type}
    (modelDicts : HashTable.t dictionary) :
  forall sys sys' : phaseSystem.t scalar,
    phaseSystem.generatePairs modelDicts sys = Ok sys' ->
    (pairsMatchKeys sys -> pairsMatchKeys sys')
    /\ sys' = phaseSystem.setPhasePairs sys (phaseSystem.phasePairs_ sys')
                (phaseSystem.pairStore sys').
Proof.
  induction modelDicts as [|[key dict] rest IH]; intros sys sys' Hok.
  - simpl in Hok. inversion Hok. subst sys'.
    split; [intros Hinv; exact Hinv | destruct sys; reflexivity].
  - simpl in Hok. apply bind_Ok in Hok. destruct Hok as [mid [Hstep Hrest]].
    destruct (IH mid sys' Hrest) as [Hkeep Hframe].
    split.
    + intros Hinv. apply Hkeep.
      eapply generatePair_pairsMatchKeys; eassumption.
    + rewrite Hframe. rewrite (generatePair_frame key sys Hstep).
      reflexivity.
Qed.
End RegisteredPairs.

(** X5: [generatePairs] changes nothing of the system but the pair table
    and the pairs it owns, and after a successful run every key of the
    table has a pair. In a table grown by [generatePairs] from the
    constructor's empty one, the pair looked up by a key carries an equal
    key, is the directional pair exactly for an ordered key, and refers to
    the phases its key names. *)
Theorem registered_pairs_match_keys {scalar : Type} `{Scalar scalar} :
  (forall (dictionary : Type) (modelDicts : HashTable.t dictionary)
     (sys sys' : phaseSystem.t scalar),
     phaseSystem.generatePairs modelDicts sys = Ok sys' ->
     sys' = phaseSystem.setPhasePairs sys (phaseSystem.phasePairs_ sys')
              (phaseSystem.pairStore sys')
     /\ Forall
          (fun e =>
             HashTable.found (phaseSystem.phasePairs_ sys') (fst e) = true)
          modelDicts
     /\ (pairsMatchKeys sys -> pairsMatchKeys sys'))
  /\ (forall (mesh : fvMesh) (phases : list (phaseModel.t scalar))
        (phi : surfaceScalarField scalar),
        pairsMatchKeys (phaseSystem.New mesh phases phi))
  /\ (forall (sys : phaseSystem.t scalar) (key : phasePairKey.t)
        (ptr : address),
        pairsMatchKeys sys ->
        HashTable.find (phaseSystem.phasePairs_ sys) key = Some ptr ->
        exists pair,
          nth_error (phaseSystem.pairStore sys) ptr = Some pair
          /\ phasePairKey.eqb (phasePair.key pair) key = true
          /\ phasePair.dynamicType pair
             = (if phasePairKey.ordered key
                then phasePair.orderedPhasePair else phasePair.phasePair)
          /\ pairMatches sys (phasePair.key pair) pair).
Proof.
  split; [|split].
  - intros dictionary modelDicts sys sys' Hok.
    destruct (generatePairs_pairsMatchKeys modelDicts sys Hok)
      as [Hkeep Hframe].
    destruct (generatePairs_stable modelDicts sys Hok) as [_ [_ [Hfound _]]].
    split; [exact Hframe|]. split; [exact Hfound | exact Hkeep].
  - intros mesh phases phi. unfold phaseSystem.New.
    destruct (phaseSystem.groupingsLoop 0 phases ([], [], [], []))
      as [[[mv st] an] mc].
    unfold pairsMatchKeys. simpl. constructor.
  - intros sys key ptr Hinv Hfind.
    destruct (find_Some_In _ _ Hfind) as [k' [Hin Hk]].
    unfold pairsMatchKeys in Hinv. rewrite Forall_forall in Hinv.
    destruct (Hinv (k', ptr) Hin) as [pair [Hnth Hmatch]]. simpl in *.
    exists pair. split; [exact Hnth|].
    destruct Hmatch as [Hkey [Htype Hphases]].
    split; [rewrite Hkey; exact Hk|]. split.
    + rewrite Htype.
      apply phasePairKey_eqb_spec in Hk. destruct Hk as [Hord _].
      rewrite Hord. reflexivity.
    + rewrite Hkey. split; [exact Hkey|]. split; [exact Htype | exact Hphases].
Qed.

Lemma registered_pairs_match_keys_witness :
  exists sys' : phaseSystem.t Qc,
    phaseSystem.generatePairs Examples.surfaceTensionDicts
      Examples.waterWithAir
    = Ok sys'
    /\ Forall
         (fun e =>
            HashTable.found (phaseSystem.phasePairs_ sys') (fst e) = true)
         Examples.surfaceTensionDicts
    /\ pairsMatchKeys sys'.
Proof.
  destruct (phaseSystem.generatePairs Examples.surfaceTensionDicts
              Examples.waterWithAir) as [sys'|e] eqn:Hrun.
  - exists sys'. split; [reflexivity|].
    destruct (proj1 registered_pairs_match_keys unit
                Examples.surfaceTensionDicts Examples.waterWithAir sys' Hrun)
      as [_ [Hfound Hmatch]].
    split; [exact Hfound|]. apply Hmatch. constructor.
  - vm_compute in Hrun. discriminate.
Defined.

(** ** The two passes of the constructor *)

Lemma setAt_app_length {A : Type} (l1 l2 : list A) (x a : A) :
  setAt (l1 ++ x :: l2) (List.length l1) a = l1 ++ a :: l2.
Proof.
  induction l1 as [|y l1 IH]; simpl; [reflexivity | rewrite IH; reflexivity].
Qed.

Section ConstructorPasses.
Context {scalar : Type} `{Scalar scalar}.

Lemma positionsWhere_length_shift (select : phaseModel.t scalar -> bool)
    (phases : list (phaseModel.t scalar)) :
  forall i j,
    List.length (positionsWhere select i phases)
    = List.length (positionsWhere select j phases).
Proof.
  induction phases as [|phase rest IH]; intros i j; simpl.
  - reflexivity.
  - destruct (select phase); simpl; rewrite (IH (S i) (S j)); reflexivity.
Qed.

Lemma groupingsCount_positions (phases : list (phaseModel.t scalar)) :
  forall a b c d,
    phaseSystem.groupingsCount phases (a, b, c, d)
    = (a + List.length
             (positionsWhere (fun ph => negb (phaseModel.stationary ph))
                0 phases),
       b + List.length
             (positionsWhere (@phaseModel.stationary scalar) 0 phases),
       c + List.length
             (positionsWhere (fun ph => negb (phaseModel.isothermal ph))
                0 phases),
       d + List.length
             (positionsWhere (fun ph => negb (phaseModel.pure ph))
                0 phases)).
Proof.
  induction phases as [|phase rest IH]; intros a b c d; simpl.
  - rewrite !Nat.add_0_r. reflexivity.
  - rewrite IH.
    pose proof (positionsWhere_length_shift
                  (fun ph => negb (phaseModel.stationary ph)) rest 1 0) as H1.
    pose proof (positionsWhere_length_shift
                  (@phaseModel.stationary scalar) rest 1 0) as H2.
    pose proof (positionsWhere_length_shift
                  (fun ph => negb (phaseModel.isothermal ph)) rest 1 0) as H3.
    pose proof (positionsWhere_length_shift
                  (fun ph => negb (phaseModel.pure ph)) rest 1 0) as H4.
    destruct (phaseModel.stationary phase), (phaseModel.isothermal phase),
      (phaseModel.pure phase); simpl; rewrite ?H1, ?H2, ?H3, ?H4;
      (f_equal; [f_equal; [f_equal|]|]); lia.
Qed.

(** One step of the second pass on one list: the slots set so far are
    [done], the null slots left are as many as the phases still to come
    that belong to the group. *)
Lemma setIf_step (select : phaseModel.t scalar -> bool)
    (phase : phaseModel.t scalar) (rest : list (phaseModel.t scalar))
    (done : list label) (phasei : label) :
  phaseSystem.setIf (select phase)
    (map Some done
       ++ repeat None
            (List.length (positionsWhere select phasei (phase :: rest))),
     List.length done)
    phasei
  = Ok (map Some (done ++ (if select phase then [phasei] else []))
          ++ repeat None
               (List.length (positionsWhere select (S phasei) rest)),
        List.length (done ++ (if select phase then [phasei] else []))).
Proof.
  unfold phaseSystem.setIf, phaseSystem.setPtr.
  cbn [fst snd positionsWhere].
  destruct (select phase); cbn [List.length repeat].
  - set (k := List.length (positionsWhere select (S phasei) rest)).
    assert (Hlt : (List.length done
                   <? List.length (map Some done ++ None :: repeat None k))
                  = true).
    { apply Nat.ltb_lt. rewrite length_app, length_map. simpl. lia. }
    rewrite Hlt. cbn [bind].
    assert (Hset : setAt (map Some done ++ None :: repeat None k)
                     (List.length done) (Some phasei)
                   = map Some done ++ Some phasei :: repeat None k).
    { rewrite <- (length_map Some done). apply setAt_app_length. }
    rewrite Hset, map_app, <- app_assoc, length_app. simpl.
    rewrite Nat.add_1_r. reflexivity.
  - rewrite app_nil_r. reflexivity.
Qed.

Lemma groupingsSet_positions (phases : list (phaseModel.t scalar)) :
  forall (phasei : label) (d1 d2 d3 d4 : list label),
    phaseSystem.groupingsSet phasei phases
      ((map Some d1
          ++ repeat None
               (List.length
                  (positionsWhere (fun ph => negb (phaseModel.stationary ph))
                     phasei phases)),
        List.length d1),
       (map Some d2
          ++ repeat None
               (List.length
                  (positionsWhere (@phaseModel.stationary scalar)
                     phasei phases)),
        List.length d2),
       (map Some d3
          ++ repeat None
               (List.length
                  (positionsWhere (fun ph => negb (phaseModel.isothermal ph))
                     phasei phases)),
        List.length d3),
       (map Some d4
          ++ repeat None
               (List.length
                  (positionsWhere (fun ph => negb (phaseModel.pure ph))
                     phasei phases)),
        List.length d4))
    = Ok ((map Some
             (d1 ++ positionsWhere
                      (fun ph => negb (phaseModel.stationary ph))
                      phasei phases),
           List.length
             (d1 ++ positionsWhere
                      (fun ph => negb (phaseModel.stationary ph))
                      phasei phases)),
          (map Some
             (d2 ++ positionsWhere (@phaseModel.stationary scalar)
                      phasei phases),
           List.length
             (d2 ++ positionsWhere (@phaseModel.stationary scalar)
                      phasei phases)),
          (map Some
             (d3 ++ positionsWhere
                      (fun ph => negb (phaseModel.isothermal ph))
                      phasei phases),
           List.length
             (d3 ++ positionsWhere
                      (fun ph => negb (phaseModel.isothermal ph))
                      phasei phases)),
          (map Some
             (d4 ++ positionsWhere (fun ph => negb (phaseModel.pure ph))
                      phasei phases),
           List.length
             (d4 ++ positionsWhere (fun ph => negb (phaseModel.pure ph))
                      phasei phases))).
Proof.
  induction phases as [|phase rest IH]; intros phasei d1 d2 d3 d4.
  - simpl. rewrite !app_nil_r. reflexivity.
  - cbn [phaseSystem.groupingsSet].
    rewrite (setIf_step (fun ph => negb (phaseModel.stationary ph))
               phase rest d1 phasei).
    cbn [bind].
    rewrite (setIf_step (@phaseModel.stationary scalar) phase rest d2 phasei).
    cbn [bind].
    rewrite (setIf_step (fun ph => negb (phaseModel.isothermal ph))
               phase rest d3 phasei).
    cbn [bind].
    rewrite (setIf_step (fun ph => negb (phaseModel.pure ph))
               phase rest d4 phasei).
    cbn [bind].
    rewrite IH. cbn [positionsWhere].
    destruct (phaseModel.stationary phase), (phaseModel.isothermal phase),
      (phaseModel.pure phase); cbn [negb];
      rewrite <- ?app_assoc, ?app_nil_r; reflexivity.
Qed.

Lemma groupings_positions (phases : list (phaseModel.t scalar)) :
  phaseSystem.groupings phases
  = Ok (map Some
          (positionsWhere (fun ph => negb (phaseModel.stationary ph))
             0 phases),
        map Some (positionsWhere (@phaseModel.stationary scalar) 0 phases),
        map Some
          (positionsWhere (fun ph => negb (phaseModel.isothermal ph))
             0 phases),
        map Some
          (positionsWhere (fun ph => negb (phaseModel.pure ph)) 0 phases)).
Proof.
  unfold phaseSystem.groupings.
  rewrite groupingsCount_positions. cbn [Nat.add].
  pose proof (groupingsSet_positions phases 0 [] [] [] []) as Hset.
  cbn [map app List.length] in Hset. rewrite Hset. reflexivity.
Qed.
End ConstructorPasses.

(** X6: the two passes of the constructor fit: the counts of the first pass
    size the four filtered lists so that the second pass sets every slot,
    never outside a list, and leaves no null pointer. The lists it builds
    are the ones the system is modelled with: the positions, in increasing
    order, of the phases that are not stationary, are stationary, are not
    isothermal, are not pure. Every phase is in exactly one of the moving
    and the stationary list. *)
Theorem constructor_groupings_fill_the_lists {scalar : Type} `{Scalar scalar}
    (mesh : fvMesh) (phases : list (phaseModel.t scalar))
    (phi : surfaceScalarField scalar) :
  phaseSystem.groupings phases
  = Ok (map Some
          (phaseSystem.movingPhaseModels_ (phaseSystem.New mesh phases phi)),
        map Some
          (phaseSystem.stationaryPhaseModels_
             (phaseSystem.New mesh phases phi)),
        map Some
          (phaseSystem.anisothermalPhaseModels_
             (phaseSystem.New mesh phases phi)),
        map Some
          (phaseSystem.multiComponentPhaseModels_
             (phaseSystem.New mesh phases phi)))
  /\ phaseSystem.groupingsCount phases (0, 0, 0, 0)
     = (List.length
          (phaseSystem.movingPhaseModels_ (phaseSystem.New mesh phases phi)),
        List.length
          (phaseSystem.stationaryPhaseModels_
             (phaseSystem.New mesh phases phi)),
        List.length
          (phaseSystem.anisothermalPhaseModels_
             (phaseSystem.New mesh phases phi)),
        List.length
          (phaseSystem.multiComponentPhaseModels_
             (phaseSystem.New mesh phases phi)))
  /\ List.length
       (phaseSystem.movingPhaseModels_ (phaseSystem.New mesh phases phi))
     + List.length
         (phaseSystem.stationaryPhaseModels_
            (phaseSystem.New mesh phases phi))
     = List.length phases
  /\ (forall i phase,
        nth_error phases i = Some phase ->
        pointsTo
          (phaseSystem.movingPhaseModels_ (phaseSystem.New mesh phases phi)) i
        = negb (phaseModel.stationary phase)
        /\ pointsTo
             (phaseSystem.stationaryPhaseModels_
                (phaseSystem.New mesh phases phi)) i
           = phaseModel.stationary phase
        /\ pointsTo
             (phaseSystem.anisothermalPhaseModels_
                (phaseSystem.New mesh phases phi)) i
           = negb (phaseModel.isothermal phase)
        /\ pointsTo
             (phaseSystem.multiComponentPhaseModels_
                (phaseSystem.New mesh phases phi)) i
           = negb (phaseModel.pure phase))
  /\ (forall i,
        List.length phases <= i ->
        pointsTo
          (phaseSystem.movingPhaseModels_ (phaseSystem.New mesh phases phi)) i
        = false
        /\ pointsTo
             (phaseSystem.stationaryPhaseModels_
                (phaseSystem.New mesh phases phi)) i
           = false).
Proof.
  assert (Hlists :
            phaseSystem.movingPhaseModels_ (phaseSystem.New mesh phases phi)
            = positionsWhere (fun ph => negb (phaseModel.stationary ph))
                0 phases
            /\ phaseSystem.stationaryPhaseModels_
                 (phaseSystem.New mesh phases phi)
               = positionsWhere (@phaseModel.stationary scalar) 0 phases
            /\ phaseSystem.anisothermalPhaseModels_
                 (phaseSystem.New mesh phases phi)
               = positionsWhere (fun ph => negb (phaseModel.isothermal ph))
                   0 phases
            /\ phaseSystem.multiComponentPhaseModels_
                 (phaseSystem.New mesh phases phi)
               = positionsWhere (fun ph => negb (phaseModel.pure ph))
                   0 phases).
  { unfold phaseSystem.New. rewrite groupingsLoop_positions. simpl.
    repeat split. }
  destruct Hlists as [Hmv [Hst [Han Hmc]]].
  rewrite Hmv, Hst, Han, Hmc.
  split; [apply groupings_positions|].
  split; [rewrite groupingsCount_positions; reflexivity|].
  split; [apply positionsWhere_partition|].
  split.
  - intros i phase Hphase.
    split; [|split; [|split]].
    + exact (pointsTo_positionsWhere
               (fun ph => negb (phaseModel.stationary ph)) phases i Hphase).
    + exact (pointsTo_positionsWhere
               (@phaseModel.stationary scalar) phases i Hphase).
    + exact (pointsTo_positionsWhere
               (fun ph => negb (phaseModel.isothermal ph)) phases i Hphase).
    + exact (pointsTo_positionsWhere
               (fun ph => negb (phaseModel.pure ph)) phases i Hphase).
  - intros i Hi.
    assert (Hout : forall select,
               pointsTo (positionsWhere select 0 phases) i = false).
    { intros select.
      destruct (pointsTo (positionsWhere select 0 phases) i) eqn:E;
        [|reflexivity].
      apply pointsTo_In in E.
      pose proof (positionsWhere_bound select phases 0) as Hbound.
      rewrite Forall_forall in Hbound. specialize (Hbound i E).
      simpl in Hbound. lia. }
    split; apply Hout.
Qed.

Lemma constructor_groupings_fill_the_lists_witness :
  pointsTo (phaseSystem.movingPhaseModels_ Cases.waterAndSolid) 1 = false
  /\ pointsTo (phaseSystem.stationaryPhaseModels_ Cases.waterAndSolid) 1
     = true
  /\ pointsTo (phaseSystem.anisothermalPhaseModels_ Cases.waterAndSolid) 1
     = false
  /\ pointsTo (phaseSystem.multiComponentPhaseModels_ Cases.waterAndSolid) 1
     = false.
Proof.
  refine (proj1
            (proj2
               (proj2
                  (proj2
                     (constructor_groupings_fill_the_lists Examples.mesh2
                        [Cases.water; Cases.solid] []))))
            1 Cases.solid _).
  reflexivity.
Defined.

(** ** read *)

Section Reading.
Context {scalar : Type}.
Variable phaseRead : phaseModel.t scalar -> phaseModel.t scalar * bool.

Lemma readLoop_spec (phases : list (phaseModel.t scalar)) :
  forall (phasei : label) (readOK : bool),
    phaseSystem.readLoop phaseRead phasei phases readOK
    = (map (fun phase => fst (phaseRead phase)) phases,
       readOK && forallb (fun phase => snd (phaseRead phase)) phases,
       seq phasei (List.length phases)).
Proof.
  induction phases as [|phase rest IH]; intros phasei readOK; simpl.
  - rewrite andb_true_r. reflexivity.
  - destruct (phaseRead phase) as [phase' ok]. rewrite IH. simpl.
    rewrite andb_assoc. reflexivity.
Qed.
End Reading.

(** X7: [read()] returns true exactly when the dictionary was re-read and
    the re-reading of every phase went well. If the dictionary was re-read,
    every phase is re-read, in list order, also those after one whose
    re-reading failed; if not, no phase is touched and the system is as it
    was. *)
Theorem read_rereads_every_phase {scalar : Type}
    (phaseRead : phaseModel.t scalar -> phaseModel.t scalar * bool)
    (sys : phaseSystem.t scalar) :
  phaseSystem.read false phaseRead sys = (sys, false, [])
  /\ phaseSystem.read true phaseRead sys
     = (phaseSystem.setPhaseModels sys
          (map (fun phase => fst (phaseRead phase))
             (phaseSystem.phaseModels_ sys)),
        forallb (fun phase => snd (phaseRead phase))
          (phaseSystem.phaseModels_ sys),
        seq 0 (List.length (phaseSystem.phaseModels_ sys)))
  /\ (forall regIOobjectRead,
        snd (fst (phaseSystem.read regIOobjectRead phaseRead sys)) = true
        <-> regIOobjectRead = true
            /\ forall phase,
                 In phase (phaseSystem.phaseModels_ sys) ->
                 snd (phaseRead phase) = true)
  /\ (forall i phase,
        nth_error (phaseSystem.phaseModels_ sys) i = Some phase ->
        nth_error
          (phaseSystem.phaseModels_
             (fst (fst (phaseSystem.read true phaseRead sys)))) i
        = Some (fst (phaseRead phase))
        /\ In i (snd (phaseSystem.read true phaseRead sys))).
Proof.
  assert (Htrue : phaseSystem.read true phaseRead sys
                  = (phaseSystem.setPhaseModels sys
                       (map (fun phase => fst (phaseRead phase))
                          (phaseSystem.phaseModels_ sys)),
                     forallb (fun phase => snd (phaseRead phase))
                       (phaseSystem.phaseModels_ sys),
                     seq 0 (List.length (phaseSystem.phaseModels_ sys)))).
  { unfold phaseSystem.read. rewrite readLoop_spec. reflexivity. }
  split; [reflexivity|]. split; [exact Htrue|]. split.
  - intros [|].
    + rewrite Htrue. simpl. rewrite forallb_forall.
      split; [intros Hall; split; [reflexivity | exact Hall]
             | intros [_ Hall]; exact Hall].
    + simpl. split; [discriminate | intros [Hf _]; discriminate].
  - intros i phase Hphase. rewrite Htrue. simpl. split.
    + rewrite nth_error_map, Hphase. reflexivity.
    + apply in_seq. split; [lia|]. simpl.
      apply nth_error_Some. rewrite Hphase. discriminate.
Qed.

Lemma read_rereads_every_phase_witness :
  nth_error
    (phaseSystem.phaseModels_
       (fst (fst (phaseSystem.read true Cases.reread Cases.waterAndSolid))))
    0
  = Some (fst (Cases.reread Cases.water))
  /\ In 0 (snd (phaseSystem.read true Cases.reread Cases.waterAndSolid)).
Proof.
  refine (proj2
            (proj2
               (proj2
                  (read_rereads_every_phase Cases.reread
                     Cases.waterAndSolid)))
            0 Cases.water _).
  reflexivity.
Defined.

(** ** What the corrections leave alone *)

Section Frames.
Context {scalar : Type} `{Scalar scalar}.

Lemma forAllPhases_spec (hook : phaseModel.t scalar -> phaseModel.t scalar)
    (phases : list (phaseModel.t scalar)) :
  forall phasei,
    phaseSystem.forAllPhases hook phasei phases
    = (map hook phases, seq phasei (List.length phases)).
Proof.
  induction phases as [|phase rest IH]; intros phasei; simpl.
  - reflexivity.
  - rewrite IH. reflexivity.
Qed.

Lemma sameFrame_refl (sys : phaseSystem.t scalar) : sameFrame sys sys.
Proof. split; [reflexivity | destruct sys; reflexivity]. Qed.

Lemma sameFrame_trans (sys mid sys' : phaseSystem.t scalar) :
  sameFrame sys mid -> sameFrame mid sys' -> sameFrame sys sys'.
Proof.
  intros [Hlen1 Heq1] [Hlen2 Heq2]. split.
  - rewrite Hlen2. exact Hlen1.
  - rewrite Heq2. rewrite Heq1 at 1. reflexivity.
Qed.

Lemma sameFrame_setPhaseModels (sys : phaseSystem.t scalar)
    (phases : list (phaseModel.t scalar)) :
  List.length phases = List.length (phaseSystem.phaseModels_ sys) ->
  sameFrame sys (phaseSystem.setPhaseModels sys phases).
Proof. intros Hlen. split; [exact Hlen | reflexivity]. Qed.

Lemma correctKinematics_sameFrame
    (hook : phaseModel.t scalar -> phaseModel.t scalar)
    (ddt : volScalarField scalar -> volScalarField scalar)
    (sys : phaseSystem.t scalar) :
  sameFrame sys (fst (phaseSystem.correctKinematics hook ddt sys)).
Proof.
  rewrite correctKinematics_spec.
  destruct (requestsDpdt (map hook (phaseSystem.phaseModels_ sys))).
  - destruct (map hook (phaseSystem.phaseModels_ sys)) as [|first rest]
      eqn:Hmap.
    + simpl. split; [|reflexivity]. simpl.
      rewrite <- (length_map hook), Hmap. reflexivity.
    + simpl. split; [|reflexivity]. simpl.
      rewrite <- (length_map hook (phaseSystem.phaseModels_ sys)), Hmap.
      reflexivity.
  - simpl. apply sameFrame_setPhaseModels. apply length_map.
Qed.

Lemma correctContinuityErrorBody_sameFrame
    (hook : volScalarField scalar -> phaseModel.t scalar -> phaseModel.t scalar)
    (appliesToField : word -> bool)
    (fvOptionsSource :
       volScalarField scalar -> volScalarField scalar -> volScalarField scalar)
    (dmdts : PtrList.t (volScalarField scalar)) (ptr : label)
    (sys sys' : phaseSystem.t scalar)
    (calls calls' : list (phaseSystem.call scalar)) :
  phaseSystem.correctContinuityErrorBody hook appliesToField fvOptionsSource
    dmdts ptr (sys, calls)
  = Ok (sys', calls') ->
  sameFrame sys sys'.
Proof.
  unfold phaseSystem.correctContinuityErrorBody.
  destruct (nth_error (phaseSystem.phaseModels_ sys) ptr) as [phase|];
    [|discriminate].
  destruct (appliesToField (phaseModel.rhoName (phaseModel.thermo phase)));
    destruct (PtrList.set dmdts (phaseModel.index phase)) as [[|]|e];
    simpl; try discriminate;
    try (destruct (PtrList.get dmdts (phaseModel.index phase)); simpl;
         try discriminate);
    intros Hok; inversion Hok; subst;
    apply sameFrame_setPhaseModels; apply setAt_length.
Qed.

Lemma correctContinuityErrorLoop_sameFrame
    (hook : volScalarField scalar -> phaseModel.t scalar -> phaseModel.t scalar)
    (appliesToField : word -> bool)
    (fvOptionsSource :
       volScalarField scalar -> volScalarField scalar -> volScalarField scalar)
    (dmdts : PtrList.t (volScalarField scalar)) (moving : list label) :
  forall (sys sys' : phaseSystem.t scalar)
    (calls calls' : list (phaseSystem.call scalar)),
    phaseSystem.correctContinuityErrorLoop hook appliesToField fvOptionsSource
      dmdts moving (sys, calls)
    = Ok (sys', calls') ->
    sameFrame sys sys'.
Proof.
  induction moving as [|ptr rest IH]; intros sys sys' calls calls' Hok.
  - simpl in Hok. inversion Hok. apply sameFrame_refl.
  - cbn [phaseSystem.correctContinuityErrorLoop] in Hok.
    apply bind_Ok in Hok. destruct Hok as [[mid callsMid] [Hbody Hrest]].
    apply sameFrame_trans with (mid := mid).
    + eapply correctContinuityErrorBody_sameFrame. exact Hbody.
    + eapply IH. exact Hrest.
Qed.

Lemma sameFrame_keeps (sys sys' : phaseSystem.t scalar) :
  sameFrame sys sys' ->
  phaseSystem.mesh_ sys' = phaseSystem.mesh_ sys
  /\ phaseSystem.movingPhaseModels_ sys' = phaseSystem.movingPhaseModels_ sys
  /\ phaseSystem.stationaryPhaseModels_ sys'
     = phaseSystem.stationaryPhaseModels_ sys
  /\ phaseSystem.anisothermalPhaseModels_ sys'
     = phaseSystem.anisothermalPhaseModels_ sys
  /\ phaseSystem.multiComponentPhaseModels_ sys'
     = phaseSystem.multiComponentPhaseModels_ sys
  /\ phaseSystem.phi_ sys' = phaseSystem.phi_ sys
  /\ phaseSystem.phasePairs_ sys' = phaseSystem.phasePairs_ sys
  /\ phaseSystem.pairStore sys' = phaseSystem.pairStore sys
  /\ phaseSystem.surfaceTensionModels_ sys'
     = phaseSystem.surfaceTensionModels_ sys
  /\ phaseSystem.aspectRatioModels_ sys' = phaseSystem.aspectRatioModels_ sys.
Proof.
  intros [_ Heq]. rewrite Heq. simpl. repeat split.
Qed.
End Frames.

(** X8: each of [correct], [correctThermo], [correctReactions],
    [correctSpecies], [correctTurbulence] and [correctEnergyTransport] calls
    its hook once on every phase, in list order, and changes nothing else.
    These, [correctKinematics], [correctContinuityError] (when it returns)
    and [read] keep the number of phases and everything of the system but
    the phases and [dpdt]: the mesh, the four filtered lists, the flux, the
    pair table and the sub-model tables. Hence pointers that were valid stay
    valid, the table keeps one pair per key, and [E] and [sigma] answer as
    before. *)
Theorem corrections_keep_the_frame {scalar : Type} `{Scalar scalar}
    (sys : phaseSystem.t scalar) :
  (forall hook : phaseModel.t scalar -> phaseModel.t scalar,
     phaseSystem.correct hook sys
     = (phaseSystem.setPhaseModels sys
          (map hook (phaseSystem.phaseModels_ sys)),
        seq 0 (List.length (phaseSystem.phaseModels_ sys)))
     /\ phaseSystem.correctThermo hook sys = phaseSystem.correct hook sys
     /\ phaseSystem.correctReactions hook sys = phaseSystem.correct hook sys
     /\ phaseSystem.correctSpecies hook sys = phaseSystem.correct hook sys
     /\ phaseSystem.correctTurbulence hook sys = phaseSystem.correct hook sys
     /\ phaseSystem.correctEnergyTransport hook sys
        = phaseSystem.correct hook sys
     /\ sameFrame sys (fst (phaseSystem.correct hook sys)))
  /\ (forall (hook : phaseModel.t scalar -> phaseModel.t scalar)
        (ddt : volScalarField scalar -> volScalarField scalar),
        sameFrame sys (fst (phaseSystem.correctKinematics hook ddt sys)))
  /\ (forall (hook : volScalarField scalar -> phaseModel.t scalar
                     -> phaseModel.t scalar)
        (appliesToField : word -> bool)
        (fvOptionsSource : volScalarField scalar -> volScalarField scalar
                           -> volScalarField scalar)
        (virtualDmdts : phaseSystem.t scalar
                        -> PtrList.t (volScalarField scalar))
        (sys' : phaseSystem.t scalar) (calls : list (phaseSystem.call scalar)),
        phaseSystem.correctContinuityError hook appliesToField fvOptionsSource
          virtualDmdts sys
        = Ok (sys', calls) ->
        sameFrame sys sys')
  /\ (forall (regIOobjectRead : bool)
        (phaseRead : phaseModel.t scalar -> phaseModel.t scalar * bool),
        sameFrame sys
          (fst (fst (phaseSystem.read regIOobjectRead phaseRead sys))))
  /\ (forall sys' : phaseSystem.t scalar,
        sameFrame sys sys' ->
        phaseSystem.mesh_ sys' = phaseSystem.mesh_ sys
        /\ phaseSystem.movingPhaseModels_ sys'
           = phaseSystem.movingPhaseModels_ sys
        /\ phaseSystem.stationaryPhaseModels_ sys'
           = phaseSystem.stationaryPhaseModels_ sys
        /\ phaseSystem.anisothermalPhaseModels_ sys'
           = phaseSystem.anisothermalPhaseModels_ sys
        /\ phaseSystem.multiComponentPhaseModels_ sys'
           = phaseSystem.multiComponentPhaseModels_ sys
        /\ phaseSystem.phi_ sys' = phaseSystem.phi_ sys
        /\ (forall view, validPointers sys view -> validPointers sys' view)
        /\ (onePairPerKey sys -> onePairPerKey sys')
        /\ (forall key,
              phaseSystem.E sys' key = phaseSystem.E sys key
              /\ phaseSystem.sigma sys' key = phaseSystem.sigma sys key)).
Proof.
  split; [|split; [|split; [|split]]].
  - intros hook.
    assert (Hcorrect :
              phaseSystem.correct hook sys
              = (phaseSystem.setPhaseModels sys
                   (map hook (phaseSystem.phaseModels_ sys)),
                 seq 0 (List.length (phaseSystem.phaseModels_ sys)))).
    { unfold phaseSystem.correct. rewrite forAllPhases_spec. reflexivity. }
    split; [exact Hcorrect|].
    repeat (split; [reflexivity|]).
    rewrite Hcorrect. simpl. apply sameFrame_setPhaseModels. apply length_map.
  - intros hook ddt. apply correctKinematics_sameFrame.
  - intros hook appliesToField fvOptionsSource virtualDmdts sys' calls Hok.
    unfold phaseSystem.correctContinuityError in Hok.
    eapply correctContinuityErrorLoop_sameFrame. exact Hok.
  - intros [|] phaseRead.
    + unfold phaseSystem.read. rewrite readLoop_spec. simpl.
      apply sameFrame_setPhaseModels. apply length_map.
    + simpl. apply sameFrame_refl.
  - intros sys' Hframe.
    destruct (sameFrame_keeps Hframe)
      as [Hmesh [Hmv [Hst [Han [Hmc [Hphi [Hpairs [Hstore [Hsigma HE]]]]]]]]].
    destruct Hframe as [Hlen _].
    repeat (split; [assumption|]).
    split; [|split].
    + intros view Hvalid. unfold validPointers in *.
      rewrite Hlen. exact Hvalid.
    + unfold onePairPerKey, pairsOwned. rewrite Hpairs, Hstore.
      intros Hinv. exact Hinv.
    + intros key. unfold phaseSystem.E, phaseSystem.sigma.
      rewrite Hmesh, Hsigma, HE. split; reflexivity.
Qed.

Lemma corrections_keep_the_frame_witness :
  exists sys' calls,
    phaseSystem.correctContinuityError Examples.recordSource
      (fun _ => false) (fun alpha rho => rho) phaseSystem.dmdts
      Examples.waterWithAir
    = Ok (sys', calls)
    /\ sameFrame Examples.waterWithAir sys'.
Proof.
  destruct (phaseSystem.correctContinuityError Examples.recordSource
              (fun _ => false) (fun alpha rho => rho) phaseSystem.dmdts
              Examples.waterWithAir) as [[sys' calls]|e] eqn:Hrun.
  - exists sys', calls. split; [reflexivity|].
    exact (proj1
             (proj2 (proj2 (corrections_keep_the_frame Examples.waterWithAir)))
             _ _ _ _ _ _ Hrun).
  - vm_compute in Hrun. discriminate.
Defined.

(** ** correctContinuityError with the default mass transfer, and when the
    list of rates is too short *)

Section ContinuityDefaults.
Context {scalar : Type} `{Scalar scalar}.
Variable hook :
  volScalarField scalar -> phaseModel.t scalar -> phaseModel.t scalar.
Variable appliesToField : word -> bool.
Variable fvOptionsSource :
  volScalarField scalar -> volScalarField scalar -> volScalarField scalar.

Lemma continuitySource_unset (mesh : fvMesh)
    (dmdts : PtrList.t (volScalarField scalar))
    (phase : phaseModel.t scalar) :
  nth_error dmdts (phaseModel.index phase) = Some None ->
  continuitySource appliesToField fvOptionsSource mesh dmdts phase
  = injectedSource appliesToField fvOptionsSource mesh phase.
Proof.
  intros Hslot. unfold continuitySource, injectedSource. rewrite Hslot.
  reflexivity.
Qed.

Lemma default_slot_unset (sys : phaseSystem.t scalar) (i : label) :
  i < List.length (phaseSystem.phaseModels_ sys) ->
  nth_error (phaseSystem.dmdts sys) i = Some None.
Proof.
  intros Hi. pose proof (@sized_at (volScalarField scalar) _ _ Hi) as Hat.
  unfold at_ in Hat. unfold phaseSystem.dmdts.
  destruct (nth_error
              (PtrList.sized (volScalarField scalar)
                 (List.length (phaseSystem.phaseModels_ sys))) i)
    as [slot|]; [|discriminate].
  inversion Hat. reflexivity.
Qed.

Lemma correctContinuityErrorBody_short
    (dmdts : PtrList.t (volScalarField scalar)) (ptr : label)
    (sys : phaseSystem.t scalar) (calls : list (phaseSystem.call scalar))
    (phase : phaseModel.t scalar) :
  nth_error (phaseSystem.phaseModels_ sys) ptr = Some phase ->
  PtrList.size dmdts <= phaseModel.index phase ->
  phaseSystem.correctContinuityErrorBody hook appliesToField fvOptionsSource
    dmdts ptr (sys, calls)
  = Fatal IndexOutOfRange.
Proof.
  intros Hphase Hshort.
  unfold phaseSystem.correctContinuityErrorBody, PtrList.set, at_.
  rewrite Hphase.
  assert (Hnone : nth_error dmdts (phaseModel.index phase) = None).
  { apply nth_error_None. exact Hshort. }
  rewrite Hnone.
  destruct (appliesToField (phaseModel.rhoName (phaseModel.thermo phase)));
    reflexivity.
Qed.

Lemma correctContinuityErrorLoop_short
    (dmdts : PtrList.t (volScalarField scalar)) (moving : list label) :
  forall (sys : phaseSystem.t scalar) (calls : list (phaseSystem.call scalar)),
    NoDup moving ->
    (forall ptr, In ptr moving ->
       ptr < List.length (phaseSystem.phaseModels_ sys)) ->
    (exists ptr phase,
       In ptr moving
       /\ nth_error (phaseSystem.phaseModels_ sys) ptr = Some phase
       /\ PtrList.size dmdts <= phaseModel.index phase) ->
    phaseSystem.correctContinuityErrorLoop hook appliesToField fvOptionsSource
      dmdts moving (sys, calls)
    = Fatal IndexOutOfRange.
Proof.
  induction moving as [|ptr0 rest IH];
    intros sys calls Hnodup Hvalid [ptr [phase [Hin [Hphase Hshort]]]].
  - contradiction.
  - inversion_clear Hnodup as [|? ? Hfresh Hrest].
    cbn [phaseSystem.correctContinuityErrorLoop].
    destruct (at_lt _ (Hvalid ptr0 (or_introl eq_refl)))
      as [phase0 [Hphase0 _]].
    destruct (Nat.lt_ge_cases (phaseModel.index phase0) (PtrList.size dmdts))
      as [Hlong|Hshort0].
    + rewrite (correctContinuityErrorBody_spec hook appliesToField
                 fvOptionsSource dmdts sys calls ptr0 Hphase0 Hlong).
      cbn [bind].
      destruct Hin as [Heq|Hin].
      { subst ptr0. rewrite Hphase in Hphase0. inversion Hphase0.
        subst phase0. lia. }
      assert (Hne : ptr <> ptr0) by (intros Heq; subst ptr; contradiction).
      apply IH; [exact Hrest| |].
      * intros ptr' Hin'. simpl. rewrite setAt_length.
        apply Hvalid. right. exact Hin'.
      * exists ptr, phase. split; [exact Hin|]. split; [|exact Hshort].
        simpl. rewrite setAt_nth_error
          by (apply Hvalid; left; reflexivity).
        destruct (Nat.eqb_spec ptr ptr0); [contradiction | exact Hphase].
    + rewrite (correctContinuityErrorBody_short dmdts ptr0 sys calls
                 Hphase0 Hshort0).
      reflexivity.
Qed.
End ContinuityDefaults.

Lemma injectedSource_at {scalar : Type} `{Scalar scalar}
    (appliesToField : word -> bool)
    (fvOptionsSource :
       volScalarField scalar -> volScalarField scalar -> volScalarField scalar)
    (mesh : fvMesh) (phase : phaseModel.t scalar) (cell : label) :
  cell < nCells mesh ->
  (appliesToField (phaseModel.rhoName (phaseModel.thermo phase)) = true ->
   cell < List.length
            (fvOptionsSource (phaseModel.alpha phase)
               (phaseModel.thermoRho (phaseModel.thermo phase)))) ->
  nth_error (injectedSource appliesToField fvOptionsSource mesh phase) cell
  = Some (injectedSourceAt appliesToField fvOptionsSource phase cell).
Proof.
  intros Hcell Hoptions. unfold injectedSource, injectedSourceAt.
  destruct (appliesToField (phaseModel.rhoName (phaseModel.thermo phase))).
  - unfold fadd. apply zipWith_nth_error.
    + apply uniformField_at. exact Hcell.
    + apply nth_error_nth_lt. apply Hoptions. reflexivity.
  - apply uniformField_at. exact Hcell.
Qed.

(** X9: with the default [dmdts()] of the system, and every moving phase's
    index inside the phase list, [correctContinuityError] returns and has
    corrected each phase the moving list points to with the injected source
    alone, and no other phase. In every cell the injected source is zero
    plus the value there of the options' source if one applies to the
    phase's density field, and zero if none applies. Whatever [dmdts()] is,
    if its list is too short for the index of some moving phase the call
    ends in the index error of the list. *)
Theorem correctContinuityError_default_and_short {scalar : Type}
    `{Scalar scalar}
    (hook : volScalarField scalar -> phaseModel.t scalar -> phaseModel.t scalar)
    (appliesToField : word -> bool)
    (fvOptionsSource :
       volScalarField scalar -> volScalarField scalar -> volScalarField scalar)
    (sys : phaseSystem.t scalar)
    (Hnodup : NoDup (phaseSystem.movingPhaseModels_ sys))
    (Hvalid : validPointers sys (phaseSystem.movingPhaseModels_ sys)) :
  ((forall phase,
      In phase (movingPhases sys) ->
      phaseModel.index phase < List.length (phaseSystem.phaseModels_ sys)) ->
   exists phases' calls,
     phaseSystem.correctContinuityError hook appliesToField fvOptionsSource
       phaseSystem.dmdts sys
     = Ok (phaseSystem.setPhaseModels sys phases', calls)
     /\ forall i phase,
          nth_error (phaseSystem.phaseModels_ sys) i = Some phase ->
          nth_error phases' i
          = Some
              (if pointsTo (phaseSystem.movingPhaseModels_ sys) i
               then hook
                      (injectedSource appliesToField fvOptionsSource
                         (phaseSystem.mesh_ sys) phase)
                      phase
               else phase))
  /\ (forall virtualDmdts :
        phaseSystem.t scalar -> PtrList.t (volScalarField scalar),
        (exists phase,
           In phase (movingPhases sys)
           /\ PtrList.size (virtualDmdts sys) <= phaseModel.index phase) ->
        phaseSystem.correctContinuityError hook appliesToField fvOptionsSource
          virtualDmdts sys
        = Fatal IndexOutOfRange)
  /\ (forall phase cell,
        cell < nCells (phaseSystem.mesh_ sys) ->
        (appliesToField (phaseModel.rhoName (phaseModel.thermo phase))
         = false ->
         nth_error
           (injectedSource appliesToField fvOptionsSource
              (phaseSystem.mesh_ sys) phase)
           cell
         = Some szero)
        /\ ((appliesToField (phaseModel.rhoName (phaseModel.thermo phase))
             = true ->
             cell < List.length
                      (fvOptionsSource (phaseModel.alpha phase)
                         (phaseModel.thermoRho (phaseModel.thermo phase)))) ->
            nth_error
              (injectedSource appliesToField fvOptionsSource
                 (phaseSystem.mesh_ sys) phase)
              cell
            = Some
                (injectedSourceAt appliesToField fvOptionsSource phase cell))).
Proof.
  split; [|split].
  - intros Hindex.
    destruct (correctContinuityErrorLoop_spec hook appliesToField
                fvOptionsSource (phaseSystem.dmdts sys) sys [] Hnodup)
      as [phases' [Hloop [Hlen Hnth]]].
    { intros ptr Hin.
      unfold validPointers in Hvalid. rewrite Forall_forall in Hvalid.
      destruct (at_lt _ (Hvalid ptr Hin)) as [phase [Hphase _]].
      exists phase. split; [exact Hphase|].
      unfold PtrList.size, phaseSystem.dmdts, PtrList.sized.
      rewrite repeat_length.
      apply Hindex. unfold movingPhases, phasesOf.
      apply in_flat_map. exists ptr. split; [exact Hin|].
      rewrite Hphase. left. reflexivity. }
    eexists. eexists. split; [exact Hloop|].
    intros i phase Hphase. rewrite Hnth, Hphase. simpl.
    unfold correctedPhase.
    destruct (pointsTo (phaseSystem.movingPhaseModels_ sys) i) eqn:Hpoints;
      [|reflexivity].
    rewrite continuitySource_unset; [reflexivity|].
    apply default_slot_unset. apply Hindex.
    apply pointsTo_In in Hpoints.
    unfold movingPhases, phasesOf.
    apply in_flat_map. exists i. split; [exact Hpoints|].
    rewrite Hphase. left. reflexivity.
  - intros virtualDmdts [phase [Hin Hshort]].
    unfold phaseSystem.correctContinuityError.
    apply correctContinuityErrorLoop_short; [exact Hnodup| |].
    + unfold validPointers in Hvalid. rewrite Forall_forall in Hvalid.
      exact Hvalid.
    + unfold movingPhases, phasesOf in Hin.
      apply in_flat_map in Hin. destruct Hin as [ptr [Hptr Hin]].
      destruct (nth_error (phaseSystem.phaseModels_ sys) ptr) as [ph|] eqn:E;
        [|contradiction].
      destruct Hin as [Heq|[]]. subst ph.
      exists ptr, phase. repeat split; assumption.
  - intros phase cell Hcell. split.
    + intros Hnone. unfold injectedSource. rewrite Hnone.
      apply uniformField_at. exact Hcell.
    + intros Hoptions. apply injectedSource_at; assumption.
Qed.

Lemma correctContinuityError_default_and_short_witness :
  exists phases' calls,
    phaseSystem.correctContinuityError Examples.recordSource
      Cases.appliesToWater Cases.injected phaseSystem.dmdts
      Examples.waterWithAir
    = Ok (phaseSystem.setPhaseModels Examples.waterWithAir phases', calls)
    /\ nth_error phases' 0
       = Some
           (Examples.recordSource [Examples.Qc_of 2 1; Examples.Qc_of 3 1]
              (Examples.uniformPhase Examples.mesh2 "water"%string 0
                 (Examples.Qc_of 3 10) (Examples.Qc_of 1000 1) false false))
    /\ nth_error phases' 1
       = Some
           (Examples.recordSource [0%Qc; 0%Qc]
              (Examples.uniformPhase Examples.mesh2 "air"%string 1
                 (Examples.Qc_of 7 10) (Examples.Qc_of 12 10) false false)).
Proof.
  assert (Hnodup :
            NoDup (phaseSystem.movingPhaseModels_ Examples.waterWithAir))
    by (repeat constructor; simpl; intuition discriminate).
  assert (Hvalid :
            validPointers Examples.waterWithAir
              (phaseSystem.movingPhaseModels_ Examples.waterWithAir))
    by (repeat constructor).
  destruct (proj1
              (@correctContinuityError_default_and_short Qc Scalar_Qc
                 Examples.recordSource Cases.appliesToWater Cases.injected
                 Examples.waterWithAir Hnodup Hvalid))
    as [phases' [calls [Hrun Hnth]]].
  - intros phase [Heq|[Heq|[]]]; subst phase; simpl; lia.
  - exists phases', calls. split; [exact Hrun|].
    split; [exact (Hnth 0 _ eq_refl) | exact (Hnth 1 _ eq_refl)].
Defined.

(** ** Queries by key *)

(** X10: the per-pair queries do not tell equal keys apart: for equal keys,
    and so for the unordered keys (a, b) and (b, a), [E], [sigma] and
    [sigma] on a patch return the same. On a patch, a key without a
    surface-tension model gets a field of zeros of the size of the patch if
    the mesh has the patch and the index error of the boundary list if not;
    a key with a model gets what the model returns, whatever the patch. *)
Theorem queries_respect_key_equality {scalar : Type} `{Scalar scalar}
    (boundary : fvMesh -> list nat)
    (modelSigmaPatch : surfaceTensionModel scalar -> label -> Field scalar)
    (sys : phaseSystem.t scalar) :
  (forall k1 k2 patchi,
     phasePairKey.eqb k1 k2 = true ->
     phaseSystem.E sys k1 = phaseSystem.E sys k2
     /\ phaseSystem.sigma sys k1 = phaseSystem.sigma sys k2
     /\ phaseSystem.sigmaPatch boundary modelSigmaPatch sys k1 patchi
        = phaseSystem.sigmaPatch boundary modelSigmaPatch sys k2 patchi)
  /\ (forall (a b : word) patchi,
        phaseSystem.E sys
          {| phasePairKey.first := a; phasePairKey.second := b;
             phasePairKey.ordered := false |}
        = phaseSystem.E sys
            {| phasePairKey.first := b; phasePairKey.second := a;
               phasePairKey.ordered := false |}
        /\ phaseSystem.sigma sys
             {| phasePairKey.first := a; phasePairKey.second := b;
                phasePairKey.ordered := false |}
           = phaseSystem.sigma sys
               {| phasePairKey.first := b; phasePairKey.second := a;
                  phasePairKey.ordered := false |}
        /\ phaseSystem.sigmaPatch boundary modelSigmaPatch sys
             {| phasePairKey.first := a; phasePairKey.second := b;
                phasePairKey.ordered := false |} patchi
           = phaseSystem.sigmaPatch boundary modelSigmaPatch sys
               {| phasePairKey.first := b; phasePairKey.second := a;
                  phasePairKey.ordered := false |} patchi)
  /\ (forall key patchi,
        HashTable.find (phaseSystem.surfaceTensionModels_ sys) key = None ->
        phaseSystem.sigmaPatch boundary modelSigmaPatch sys key patchi
        = match nth_error (boundary (phaseSystem.mesh_ sys)) patchi with
          | Some size => Ok (repeat szero size)
          | None => Fatal IndexOutOfRange
          end)
  /\ (forall key patchi model,
        HashTable.find (phaseSystem.surfaceTensionModels_ sys) key
        = Some model ->
        phaseSystem.sigmaPatch boundary modelSigmaPatch sys key patchi
        = Ok (modelSigmaPatch model patchi)).
Proof.
  assert (Hequal :
            forall k1 k2 patchi,
              phasePairKey.eqb k1 k2 = true ->
              phaseSystem.E sys k1 = phaseSystem.E sys k2
              /\ phaseSystem.sigma sys k1 = phaseSystem.sigma sys k2
              /\ phaseSystem.sigmaPatch boundary modelSigmaPatch sys k1 patchi
                 = phaseSystem.sigmaPatch boundary modelSigmaPatch sys k2
                     patchi).
  { intros k1 k2 patchi Hk.
    unfold phaseSystem.E, phaseSystem.sigma, phaseSystem.sigmaPatch,
      HashTable.found, HashTable.get.
    rewrite (@find_eqb_compat _ (phaseSystem.aspectRatioModels_ sys) _ _ Hk),
      (@find_eqb_compat _ (phaseSystem.surfaceTensionModels_ sys) _ _ Hk).
    repeat split. }
  split; [exact Hequal|]. split; [|split].
  - intros a b patchi. apply Hequal. apply unordered_key_symmetric.
  - intros key patchi Hnone.
    unfold phaseSystem.sigmaPatch, HashTable.found, at_. rewrite Hnone.
    destruct (nth_error (boundary (phaseSystem.mesh_ sys)) patchi);
      reflexivity.
  - intros key patchi model Hsome.
    unfold phaseSystem.sigmaPatch, HashTable.found, HashTable.get.
    rewrite Hsome. reflexivity.
Qed.

Lemma queries_respect_key_equality_witness :
  phaseSystem.sigmaPatch Cases.patches Cases.noPatchValues
    Examples.waterWithAir Examples.waterAir 1
  = Ok [0%Qc; 0%Qc].
Proof.
  refine (proj1
            (proj2
               (proj2
                  (queries_respect_key_equality Cases.patches
                     Cases.noPatchValues Examples.waterWithAir)))
            Examples.waterAir 1 _).
  reflexivity.
Defined.

(** ** dmdtf *)

(** X11: [dmdtf] returns exactly when both names of the key are names of
    phases of the system, the key need not have a pair; if exactly one of
    the names is no phase it fails with [NotFound] of that name. *)
Theorem dmdtf_needs_both_phases {scalar : Type} `{Scalar scalar}
    (sys : phaseSystem.t scalar) (key : phasePairKey.t) :
  (isOk (phaseSystem.dmdtf sys key) = true
   <-> namesPhase (phaseSystem.phaseModels_ sys) (phasePairKey.first key)
       /\ namesPhase (phaseSystem.phaseModels_ sys) (phasePairKey.second key))
  /\ (~ namesPhase (phaseSystem.phaseModels_ sys) (phasePairKey.first key) ->
      namesPhase (phaseSystem.phaseModels_ sys) (phasePairKey.second key) ->
      phaseSystem.dmdtf sys key = Fatal (NotFound (phasePairKey.first key)))
  /\ (namesPhase (phaseSystem.phaseModels_ sys) (phasePairKey.first key) ->
      ~ namesPhase (phaseSystem.phaseModels_ sys) (phasePairKey.second key) ->
      phaseSystem.dmdtf sys key = Fatal (NotFound (phasePairKey.second key))).
Proof.
  unfold phaseSystem.dmdtf.
  split; [|split].
  - destruct (lookupPhase (phaseSystem.phaseModels_ sys)
                (phasePairKey.first key)) as [phase1|e1] eqn:H1.
    + destruct (lookupPhase (phaseSystem.phaseModels_ sys)
                  (phasePairKey.second key)) as [phase2|e2] eqn:H2; simpl.
      * split; [|reflexivity].
        intros _. split; eapply lookupPhase_Ok_In; eassumption.
      * split; [discriminate|]. intros [_ Hsecond].
        destruct (lookupPhase_In _ _ Hsecond) as [j Hj].
        rewrite Hj in H2. discriminate.
    + simpl. split; [discriminate|]. intros [Hfirst _].
      destruct (lookupPhase_In _ _ Hfirst) as [j Hj].
      rewrite Hj in H1. discriminate.
  - intros Hfirst _. rewrite (@lookupPhase_unknown _ _ _ Hfirst). reflexivity.
  - intros Hfirst Hsecond.
    destruct (lookupPhase_In _ _ Hfirst) as [j Hj].
    rewrite Hj, (@lookupPhase_unknown _ _ _ Hsecond). reflexivity.
Qed.

Lemma dmdtf_needs_both_phases_witness :
  phaseSystem.dmdtf Examples.waterWithAir Cases.oilWater
  = Fatal (NotFound "oil"%string).
Proof.
  refine (proj1
            (proj2
               (dmdtf_needs_both_phases Examples.waterWithAir Cases.oilWater))
            _ _).
  - simpl. intros [Heq|[Heq|[]]]; discriminate.
  - simpl. left. reflexivity.
Defined.

(** ** byDt *)

Lemma fdivideScalar_nonzero {scalar : Type} `{Scalar scalar}
    (f : Field scalar) (s : scalar) :
  sIsZero s = false ->
  fdivideScalar f s = Ok (map (fun x => sdiv x s) f).
Proof.
  intros Hs. induction f as [|x f IH]; [reflexivity|].
  cbn [fdivideScalar map]. unfold sdivide. rewrite Hs, IH. reflexivity.
Qed.

Lemma fdivideScalar_zero {scalar : Type} `{Scalar scalar}
    (f : Field scalar) (s : scalar) :
  sIsZero s = true ->
  fdivideScalar f s
  = match f with [] => Ok [] | _ :: _ => Fatal FloatingPointException end.
Proof.
  intros Hs. destruct f as [|x f]; [reflexivity|].
  cbn [fdivideScalar]. unfold sdivide. rewrite Hs. reflexivity.
Qed.

Lemma zipWith_length_min {A B C : Type} (f : A -> B -> C) (l : list A)
    (m : list B) :
  List.length (zipWith f l m) = Nat.min (List.length l) (List.length m).
Proof.
  revert m. induction l as [|a l IH]; intros [|b m]; simpl;
    try reflexivity.
  rewrite IH. reflexivity.
Qed.

(** X12: without local time stepping [byDt] divides every value of the
    field by the time step, for cell fields and for face fields alike: with
    a time step that is not zero the result has the size of the field, with
    the time step zero it raises the floating point exception on the first
    value, and returns the field as it is if the field has none. With
    local time stepping it never fails and does not read the time step: the
    result is the product of the field of reciprocal local steps and the
    field, in every cell or face the reciprocal local step there times the
    value there, and is as long as the shorter of the two. *)
Theorem byDt_divides_by_the_time_step {scalar : Type} `{Scalar scalar}
    (localEulerDdtEnabled : fvMesh -> bool)
    (localRDeltaT : fvMesh -> volScalarField scalar)
    (localRDeltaTf : fvMesh -> surfaceScalarField scalar)
    (deltaT : fvMesh -> scalar) (mesh : fvMesh) (f : Field scalar) :
  (localEulerDdtEnabled mesh = false ->
   sIsZero (deltaT mesh) = false ->
   byDt localEulerDdtEnabled localRDeltaT deltaT mesh f
   = Ok (map (fun x => sdiv x (deltaT mesh)) f)
   /\ byDtSurface localEulerDdtEnabled localRDeltaTf deltaT mesh f
      = Ok (map (fun x => sdiv x (deltaT mesh)) f))
  /\ (localEulerDdtEnabled mesh = false ->
      sIsZero (deltaT mesh) = true ->
      byDt localEulerDdtEnabled localRDeltaT deltaT mesh f
      = match f with
        | [] => Ok []
        | _ :: _ => Fatal FloatingPointException
        end
      /\ byDtSurface localEulerDdtEnabled localRDeltaTf deltaT mesh f
         = match f with
           | [] => Ok []
           | _ :: _ => Fatal FloatingPointException
           end)
  /\ (localEulerDdtEnabled mesh = true ->
      forall deltaT',
        (exists r,
           byDt localEulerDdtEnabled localRDeltaT deltaT' mesh f = Ok r
           /\ byDt localEulerDdtEnabled localRDeltaT deltaT mesh f = Ok r
           /\ r = fmul (localRDeltaT mesh) f
           /\ List.length r
              = Nat.min (List.length (localRDeltaT mesh)) (List.length f)
           /\ forall cell step x,
                nth_error (localRDeltaT mesh) cell = Some step ->
                nth_error f cell = Some x ->
                nth_error r cell = Some (smul step x))
        /\ (exists r,
              byDtSurface localEulerDdtEnabled localRDeltaTf deltaT' mesh f
              = Ok r
              /\ byDtSurface localEulerDdtEnabled localRDeltaTf deltaT mesh f
                 = Ok r
              /\ r = fmul (localRDeltaTf mesh) f
              /\ List.length r
                 = Nat.min (List.length (localRDeltaTf mesh))
                     (List.length f)
              /\ forall face step x,
                   nth_error (localRDeltaTf mesh) face = Some step ->
                   nth_error f face = Some x ->
                   nth_error r face = Some (smul step x))).
Proof.
  unfold byDt, byDtSurface. split; [|split].
  - intros Hoff Hstep. rewrite Hoff.
    rewrite (@fdivideScalar_nonzero _ _ f _ Hstep). split; reflexivity.
  - intros Hoff Hstep. rewrite Hoff.
    rewrite (@fdivideScalar_zero _ _ f _ Hstep). split; reflexivity.
  - intros Hon deltaT'. rewrite Hon. split.
    + exists (fmul (localRDeltaT mesh) f).
      split; [reflexivity|]. split; [reflexivity|]. split; [reflexivity|].
      split; [apply zipWith_length_min|].
      intros cell step x Hstep Hx. unfold fmul.
      apply zipWith_nth_error; assumption.
    + exists (fmul (localRDeltaTf mesh) f).
      split; [reflexivity|]. split; [reflexivity|]. split; [reflexivity|].
      split; [apply zipWith_length_min|].
      intros face step x Hstep Hx. unfold fmul.
      apply zipWith_nth_error; assumption.
Qed.

Lemma byDt_divides_by_the_time_step_witness :
  (byDt (fun _ => false) Cases.localSteps Cases.halfSecond Examples.mesh2
     [Examples.Qc_of 1 1; Examples.Qc_of 3 1]
   = Ok [Examples.Qc_of 2 1; Examples.Qc_of 6 1]
   /\ byDtSurface (fun _ => false) Cases.localSteps Cases.halfSecond
        Examples.mesh2 [Examples.Qc_of 1 1; Examples.Qc_of 3 1]
      = Ok [Examples.Qc_of 2 1; Examples.Qc_of 6 1])
  /\ exists r,
       byDt (fun _ => true) Cases.localSteps Cases.halfSecond Examples.mesh2
         [Examples.Qc_of 1 1; Examples.Qc_of 3 1]
       = Ok r
       /\ r = [Examples.Qc_of 2 1; Examples.Qc_of 12 1].
Proof.
  split.
  - refine (proj1
              (byDt_divides_by_the_time_step (fun _ => false)
                 Cases.localSteps Cases.localSteps Cases.halfSecond
                 Examples.mesh2 [Examples.Qc_of 1 1; Examples.Qc_of 3 1])
              _ _).
    + reflexivity.
    + reflexivity.
  - destruct (proj1
                (proj2
                   (proj2
                      (byDt_divides_by_the_time_step (fun _ => true)
                         Cases.localSteps Cases.localSteps Cases.halfSecond
                         Examples.mesh2
                         [Examples.Qc_of 1 1; Examples.Qc_of 3 1]))
                   eq_refl Cases.halfSecond))
      as [r [Hrun [_ [Hr _]]]].
    exists r. split; [exact Hrun | exact Hr].
Defined.



